(** * The TChannel channel core (channel.js)

    A shallow embedding of [src/channel.js]: the channel object, its
    sub-channel registry, the inbound connection table, the request router
    and the reference-counted shutdown.

    JavaScript objects live in a store indexed by locations, so that two
    references to one object are two equal locations. Every method of
    [TChannel.prototype] is a computation in a state-and-exception monad
    over that store. Calls into collaborators whose code is outside
    channel.js (net, Connection, Peers, Request, the logger, the event
    emitter) are recorded, in order, in a trace. *)

From stdpp Require Import base gmap strings list pretty.

Module Channel.

(** ** JavaScript values *)

(** The primitive values that the channel core inspects (truthiness,
    [typeof], strict equality, string concatenation). Numbers are integers:
    ports and timeouts. *)
Inductive value :=
  | VUndefined
  | VNull
  | VBool (b : bool)
  | VNum (n : Z)
  | VStr (s : string).

#[global] Instance value_eq_dec : EqDecision value.
Proof. solve_decision. Defined.

(** [if (v)] *)
Definition truthy (v : value) : bool :=
  match v with
  | VUndefined | VNull => false
  | VBool b => b
  | VNum n => negb (n =? 0)%Z
  | VStr s => negb (String.eqb s "")
  end.

(** [typeof v] *)
Definition typeof (v : value) : string :=
  match v with
  | VUndefined => "undefined"
  | VNull => "object"
  | VBool _ => "boolean"
  | VNum _ => "number"
  | VStr _ => "string"
  end.

(** [String(v)], as applied by [+] with a string operand and by a property
    access [o[v]]. *)
Definition toStr (v : value) : string :=
  match v with
  | VUndefined => "undefined"
  | VNull => "null"
  | VBool true => "true"
  | VBool false => "false"
  | VNum n => pretty n
  | VStr s => s
  end.

(** A plain object used as a bag of options: [o.k] is [undefined] when the
    key is absent. *)
Definition prop (o : gmap string value) (k : string) : value :=
  default VUndefined (o !! k).

Definition loc := nat.

(** ** Plain objects used as tables

    The sub-channel registry is made by the literal [{}]: its prototype is
    [Object.prototype]. A read [o[k]] that finds no own property [k] goes on
    to the prototype, so it finds something under each of the names below,
    whatever was stored in the table; [Object.keys] lists the own properties
    only. (The inbound connection table is made by [Object.create(null)]
    and has no prototype: there a read sees own properties only.) *)
Definition objectPrototype : list string :=
  ["constructor"; "__defineGetter__"; "__defineSetter__"; "hasOwnProperty";
   "__lookupGetter__"; "__lookupSetter__"; "isPrototypeOf";
   "propertyIsEnumerable"; "toString"; "valueOf"; "__proto__";
   "toLocaleString"].

Definition inherited (k : string) : bool :=
  bool_decide (k ∈ objectPrototype).

(** What a read [o[k]] of such a table finds: the channel stored under [k],
    or a member of [Object.prototype] (a function, or for [__proto__] the
    prototype itself): a truthy value that is no channel and has no
    [request] method. *)
Inductive Property :=
  | Own (c : loc)
  | Inherited.

#[global] Instance Property_eq_dec : EqDecision Property.
Proof. solve_decision. Defined.

Definition read (m : gmap string loc) (k : string) : option Property :=
  match m !! k with
  | Some c => Some (Own c)
  | None => if inherited k then Some Inherited else None
  end.

(** ** Collaborator objects *)

(** Handlers are distinguished by their [type] tag only. *)
Inductive Handler :=
  | EndpointHandler (serviceName : string)
  | TChannelServiceNameHandler (channel : loc)
  | CustomHandler (type : value).

#[global] Instance Handler_eq_dec : EqDecision Handler.
Proof. solve_decision. Defined.

(** Modelled from the spec: the [type] tags of the two built-in handlers
    (endpoint-handler.js and service-name-handler.js are outside src/); they
    are the two tags that [register] switches on. *)
Definition handler_type (h : Handler) : value :=
  match h with
  | EndpointHandler _ => VStr "tchannel.endpoint-handler"
  | TChannelServiceNameHandler _ => VStr "tchannel.service-name-handler"
  | CustomHandler t => t
  end.

(** An entry of [options.peers]: an address string or a peer object. *)
Inductive PeerArg :=
  | PeerStr (hostPort : string)
  | PeerObj (peer : loc).

(** The options object of the constructor. [serviceName] is the empty
    string when absent; keys the core never reads back are kept in
    [o_other]. *)
Record Options := mkOptions {
  o_serviceName : string;
  o_handler : option Handler;
  o_requestDefaults : option (gmap string value);
  o_trace : option bool;
  o_peers : option (list PeerArg);
  o_other : gmap string value
}.

(** Modelled from the spec: a Peer Pool ([create(channel, options)],
    [add(address)], [addPeer], [request], [close(onDone)]; peers.js is outside
    src/). A pool remembers the channel it was created for and maps an
    address to a peer object. *)
Record Pool := mkPool {
  pool_channel : loc;
  pool_peers : gmap string loc
}.

(** An accepted socket, as handed over by net. *)
Record Socket := mkSocket {
  sock_id : nat;
  remoteAddress : string;
  remotePort : Z
}.

(** Modelled from the spec: a Connection ([create(channel, socket, direction,
    remoteAddress)]; connection.js is outside src/). *)
Record Connection := mkConnection {
  conn_channel : loc;
  conn_socket : Socket;
  conn_direction : string;
  conn_remoteAddr : string
}.

(** The listening socket made by [net.createServer]: [address()] is [null]
    until the bind completes; [ss_callback] is the callback given to
    [listen], if any. *)
Record ServerSocket := mkServerSocket {
  ss_address : option Z;
  ss_callback : option nat
}.

(** A request object: made by the Peer Pool's [request], or a single-shot
    [TChannelRequest] bound to a channel. *)
Inductive Request :=
  | PoolRequest (pool : loc) (opts : gmap string value)
  | TChannelRequest (channel : loc) (opts : gmap string value).

(** ** The channel object *)

Record TChannelObj := mkChannel {
  options : Options;
  requestDefaults : gmap string value;
  host : value;
  requestedPort : value;
  hostPort : value;
  serviceName : string;
  topChannel : option loc;
  subChannels : option (gmap string loc);
  handler : Handler;
  peers : loc;
  tracer : bool;
  listened : bool;
  listening : bool;
  destroyed : bool;
  serverSocket : option ServerSocket;
  serverConnections : option (gmap string loc)
}.

(** ** Shutdown bookkeeping *)

(** The [callback] argument of [close]: not a function, a function of the
    caller, or the [onClose] closure of an enclosing [close] call. *)
Inductive Callback :=
  | CbNone
  | CbFun (f : nat)
  | CbOnClose (k : nat).

(** The closure environment of one [close] call: its [counter] variable and
    its [callback]. *)
Record CloseEnv := mkCloseEnv {
  counter : Z;
  callback : Callback;
  env_self : loc
}.

Inductive Resource :=
  | RServer (c : loc)
  | RConn (conn : loc)
  | RPeers (p : loc).

(** Completions that the outside world still owes to a [close] call:
    [AwaitClose r k]: the close of [r] was started and will end by calling
    [onClose] of environment [k]; [AwaitListening c k]: the server socket of
    [c] is still binding and [closeServerSocket] of [k] waits for its
    [listening] event. *)
Inductive Pending :=
  | AwaitClose (r : Resource) (k : nat)
  | AwaitListening (c : loc) (k : nat).

(** ** Errors and trace *)

(** An error that net raises on the listening socket; the core reads its
    [code]. *)
Record NetError := mkNetError {
  err_code : value
}.

(** The error that [onServerSocketError] passes on: the error of net as it
    came, or [errors.TChannelListenError(err, {requestedPort, host})]. *)
Inductive SocketError :=
  | Plain (err : NetError)
  | TChannelListenError (cause : NetError) (port hst : value).

(** What a method of the channel throws. [Unhandled err] is the error
    given to [emit('error', err)], thrown by [emit] itself when the [error]
    event has no listener. *)
Inductive Error :=
  | AssertionError (message : string)
  | TopLevelRequestError
  | TopLevelRegisterError
  | InvalidHandlerForRegister (handlerType : value) (h : Handler)
  | TypeError
  | Unhandled (err : SocketError).

(** [errors.SocketClosedError({reason: ...})] *)
Inductive ConnError :=
  | SocketClosedError (reason : string).

(** The record that [onServerSocketError] gives to the logger. *)
Record ErrorInfo := mkErrorInfo {
  info_err : SocketError;
  info_requestedPort : value;
  info_host : value;
  info_hostPort : value
}.

(** The spec's names for the failed assertions. *)
Definition UseAfterCloseError : Error :=
  AssertionError "cannot request() to destroyed tchannel".
Definition DoubleCloseError : Error :=
  AssertionError "TChannel double close".

Inductive Event :=
  | EvListening
  | EvConnection (conn : loc)
  | EvRequest (req : Request)
  | EvError (err : SocketError).

(** What the core does to the outside, and, for the shutdown counter and the
    inbound table, the writes themselves, so that their order can be
    stated. *)
Inductive Effect :=
  | ELoggerError (message : string)
  | EEmit (c : loc) (ev : Event)
  | ENewPeers (p c : loc)
  | ENewTracer (c : loc)
  | EPeersAdd (p : loc) (hostPort : string) (peer : loc)
  | EPeersAddPeer (p peer : loc)
  | EPeersRequest (p : loc) (opts : gmap string value)
  | EPeersClose (p : loc) (k : nat)
  | ENewRequest (c : loc) (opts : gmap string value)
  | ECreateServer (c : loc)
  | EServerOn (c : loc) (ev : string)
  | EServerListen (c : loc) (port : Z) (host : string) (cb : option nat)
  | EServerOnce (c : loc) (ev : string) (k : nat)
  | EServerClose (c : loc)
  | ENewConnection (conn c : loc) (sock : Socket) (dir remoteAddr : string)
  | EConnOn (conn : loc) (ev : string)
  | EConnResetAll (conn : loc) (err : ConnError)
  | EConnClose (conn : loc) (k : nat)
  | ESocketOn (sock : nat) (ev : string)
  | ETableDelete (c : loc) (remoteAddr : string)
  | ETableSet (c : loc) (remoteAddr : string) (conn : loc)
  | EHandlerRegister (c : loc) (name : string) (fn : nat)
  | EClose (c : loc) (cb : Callback)
  | ECounterInit (k : nat)
  | ECounterInc (k : nat)
  | ECounterDec (k : nat)
  | ECall (f : nat)
  | ECallback (k : nat) (f : nat).

(** ** The store *)

Record State := mkState {
  chans : gmap loc TChannelObj;
  pools : gmap loc Pool;
  peerObjs : gmap loc string;
  conns : gmap loc Connection;
  nextLoc : loc;
  closeEnvs : list CloseEnv;
  pending : list Pending;
  socketClose : list (nat * (loc * string));
  trace : list Effect
}.

Definition init : State :=
  mkState ∅ ∅ ∅ ∅ 0 [] [] [] [].

Inductive Outcome (A : Type) :=
  | Ok (a : A) (s : State)
  | Throw (e : Error) (s : State)
  | OutOfFuel.
Arguments Ok {A} a s.
Arguments Throw {A} e s.
Arguments OutOfFuel {A}.

Definition M (A : Type) : Type := State → Outcome A.

#[global] Instance M_ret : MRet M := λ A a s, Ok a s.
#[global] Instance M_bind : MBind M := λ A B f m s,
  match m s with
  | Ok a s' => f a s'
  | Throw e s' => Throw e s'
  | OutOfFuel => OutOfFuel
  end.

Definition throw {A} (e : Error) : M A := λ s, Throw e s.

Definition assert (b : bool) (message : string) : M unit :=
  if b then mret () else throw (AssertionError message).

Definition logged (e : Effect) (s : State) : State :=
  mkState (chans s) (pools s) (peerObjs s) (conns s) (nextLoc s)
    (closeEnvs s) (pending s) (socketClose s) (trace s ++ [e]).

Definition effect (e : Effect) : M unit := λ s, Ok () (logged e s).

Definition alloc : M loc := λ s,
  Ok (nextLoc s)
     (mkState (chans s) (pools s) (peerObjs s) (conns s) (S (nextLoc s))
        (closeEnvs s) (pending s) (socketClose s) (trace s)).

Definition set_chans (f : gmap loc TChannelObj → gmap loc TChannelObj)
    (s : State) : State :=
  mkState (f (chans s)) (pools s) (peerObjs s) (conns s) (nextLoc s)
    (closeEnvs s) (pending s) (socketClose s) (trace s).

Definition set_pools (f : gmap loc Pool → gmap loc Pool) (s : State) : State :=
  mkState (chans s) (f (pools s)) (peerObjs s) (conns s) (nextLoc s)
    (closeEnvs s) (pending s) (socketClose s) (trace s).

Definition set_peerObjs (f : gmap loc string → gmap loc string)
    (s : State) : State :=
  mkState (chans s) (pools s) (f (peerObjs s)) (conns s) (nextLoc s)
    (closeEnvs s) (pending s) (socketClose s) (trace s).

Definition set_conns (f : gmap loc Connection → gmap loc Connection)
    (s : State) : State :=
  mkState (chans s) (pools s) (peerObjs s) (f (conns s)) (nextLoc s)
    (closeEnvs s) (pending s) (socketClose s) (trace s).

Definition set_closeEnvs (f : list CloseEnv → list CloseEnv)
    (s : State) : State :=
  mkState (chans s) (pools s) (peerObjs s) (conns s) (nextLoc s)
    (f (closeEnvs s)) (pending s) (socketClose s) (trace s).

Definition set_pending (f : list Pending → list Pending) (s : State) : State :=
  mkState (chans s) (pools s) (peerObjs s) (conns s) (nextLoc s)
    (closeEnvs s) (f (pending s)) (socketClose s) (trace s).

Definition set_socketClose
    (f : list (nat * (loc * string)) → list (nat * (loc * string)))
    (s : State) : State :=
  mkState (chans s) (pools s) (peerObjs s) (conns s) (nextLoc s)
    (closeEnvs s) (pending s) (f (socketClose s)) (trace s).

Definition modify (f : State → State) : M unit := λ s, Ok () (f s).

Definition gets {A} (f : State → A) : M A := λ s, Ok (f s) s.

(** Reading a property of an object that is not there cannot happen in the
    program; the embedding answers with a [TypeError]. *)
Definition chan (c : loc) : M TChannelObj := λ s,
  match chans s !! c with
  | Some ch => Ok ch s
  | None => Throw TypeError s
  end.

Definition getPool (p : loc) : M Pool :=
  o ← gets (λ s, pools s !! p);
  match o with
  | Some pool => mret pool
  | None => throw TypeError
  end.

Definition closeEnv (k : nat) : M CloseEnv :=
  o ← gets (λ s, closeEnvs s !! k);
  match o with
  | Some e => mret e
  | None => throw TypeError
  end.

Definition update (c : loc) (f : TChannelObj → TChannelObj) : M unit :=
  modify (set_chans (alter f c)).

(** [for (...) body] over a list *)
Fixpoint forEach {A} (l : list A) (body : A → M unit) : M unit :=
  match l with
  | [] => mret ()
  | x :: l' => body x ;; forEach l' body
  end.

(** Field writes. *)
Definition with_hostPort (v : value) (ch : TChannelObj) : TChannelObj :=
  mkChannel (options ch) (requestDefaults ch) (host ch) (requestedPort ch) v
    (serviceName ch) (topChannel ch) (subChannels ch) (handler ch) (peers ch)
    (tracer ch) (listened ch) (listening ch) (destroyed ch) (serverSocket ch)
    (serverConnections ch).

Definition with_listening (b : bool) (ch : TChannelObj) : TChannelObj :=
  mkChannel (options ch) (requestDefaults ch) (host ch) (requestedPort ch)
    (hostPort ch) (serviceName ch) (topChannel ch) (subChannels ch)
    (handler ch) (peers ch) (tracer ch) (listened ch) b (destroyed ch)
    (serverSocket ch) (serverConnections ch).

Definition with_listen (port hst : value) (ch : TChannelObj) : TChannelObj :=
  mkChannel (options ch) (requestDefaults ch) hst port (hostPort ch)
    (serviceName ch) (topChannel ch) (subChannels ch) (handler ch) (peers ch)
    (tracer ch) true (listening ch) (destroyed ch) (serverSocket ch)
    (serverConnections ch).

Definition with_destroyed (b : bool) (ch : TChannelObj) : TChannelObj :=
  mkChannel (options ch) (requestDefaults ch) (host ch) (requestedPort ch)
    (hostPort ch) (serviceName ch) (topChannel ch) (subChannels ch)
    (handler ch) (peers ch) (tracer ch) (listened ch) (listening ch) b
    (serverSocket ch) (serverConnections ch).

Definition with_topChannel (t : option loc) (ch : TChannelObj) : TChannelObj :=
  mkChannel (options ch) (requestDefaults ch) (host ch) (requestedPort ch)
    (hostPort ch) (serviceName ch) t (subChannels ch) (handler ch) (peers ch)
    (tracer ch) (listened ch) (listening ch) (destroyed ch) (serverSocket ch)
    (serverConnections ch).

Definition with_subChannels (m : option (gmap string loc))
    (ch : TChannelObj) : TChannelObj :=
  mkChannel (options ch) (requestDefaults ch) (host ch) (requestedPort ch)
    (hostPort ch) (serviceName ch) (topChannel ch) m (handler ch) (peers ch)
    (tracer ch) (listened ch) (listening ch) (destroyed ch) (serverSocket ch)
    (serverConnections ch).

Definition with_serverSocket (ss : option ServerSocket)
    (ch : TChannelObj) : TChannelObj :=
  mkChannel (options ch) (requestDefaults ch) (host ch) (requestedPort ch)
    (hostPort ch) (serviceName ch) (topChannel ch) (subChannels ch)
    (handler ch) (peers ch) (tracer ch) (listened ch) (listening ch)
    (destroyed ch) ss (serverConnections ch).

Definition with_serverConnections (m : option (gmap string loc))
    (ch : TChannelObj) : TChannelObj :=
  mkChannel (options ch) (requestDefaults ch) (host ch) (requestedPort ch)
    (hostPort ch) (serviceName ch) (topChannel ch) (subChannels ch)
    (handler ch) (peers ch) (tracer ch) (listened ch) (listening ch)
    (destroyed ch) (serverSocket ch) m.

(** [server.close()] of net, as far as the channel can see it: the socket
    stops listening at once, so that its [address()] is [null] from then
    on; the [close] event comes later. *)
Definition unbound (ss : ServerSocket) : ServerSocket :=
  mkServerSocket None (ss_callback ss).

Definition with_closedServer (ch : TChannelObj) : TChannelObj :=
  with_serverSocket (unbound <$> serverSocket ch) ch.

(** ** Invariants of the store *)

(** Locations are handed out in increasing order: every object of the store,
    and the pool a channel refers to, lies below [nextLoc]. *)
Definition fresh (s : State) : Prop :=
  map_Forall (λ c ch, c < nextLoc s ∧ peers ch < nextLoc s) (chans s) ∧
  map_Forall (λ p _, p < nextLoc s) (pools s) ∧
  map_Forall (λ p _, p < nextLoc s) (peerObjs s) ∧
  map_Forall (λ c _, c < nextLoc s) (conns s).

#[global] Instance fresh_dec s : Decision (fresh s).
Proof. unfold fresh. apply _. Defined.

(** The hierarchy has one level: a channel has a sub-channel registry
    exactly when its service name is empty, every registered sub-channel is
    a channel of the store without a registry of its own, and no channel is
    registered under two names. *)
Definition isSubChannel (s : State) (c : loc) : Prop :=
  match chans s !! c with
  | Some sc => subChannels sc = None
  | None => False
  end.

#[global] Instance isSubChannel_dec s c : Decision (isSubChannel s c).
Proof. unfold isSubChannel. destruct (chans s !! c); apply _. Defined.

Definition hierarchy (s : State) : Prop :=
  map_Forall (λ _ ch,
    (subChannels ch = None ↔ serviceName ch ≠ "") ∧
    map_Forall (λ _ sub, isSubChannel s sub) (default ∅ (subChannels ch)) ∧
    NoDup (map_to_list (default ∅ (subChannels ch))).*2)
    (chans s).

#[global] Instance hierarchy_dec s : Decision (hierarchy s).
Proof. unfold hierarchy. apply _. Defined.

(** The inbound table is keyed by the remote address of the connection it
    holds. *)
Definition tracks (s : State) (remoteAddr : string) (conn : loc) : Prop :=
  conn < nextLoc s ∧ conn_remoteAddr <$> conns s !! conn = Some remoteAddr.

Definition tableKeyed (s : State) (table : gmap string loc) : Prop :=
  map_Forall (tracks s) table.

#[global] Instance tableKeyed_dec s table : Decision (tableKeyed s table).
Proof. unfold tableKeyed, tracks. apply _. Defined.

(** The routing decision of [request] in the words of the specification,
    on the options that [request] works on: a top channel without an
    explicit host re-enters the sub-channel registered under [service], and
    fails when [service] is falsy or names nothing in the registry;
    otherwise an explicit host or a streamed transfer goes through the Peer
    Pool; otherwise the request is single-shot. A [service] that names no
    sub-channel but a member of [Object.prototype] is set apart: there the
    registry gives something that is not a channel. *)
Inductive Route :=
  | ReEnter (sub : loc)
  | FailTopLevelRequest
  | NotAChannel
  | ViaPeerPool
  | SingleShot.

Definition route_spec (ch : TChannelObj) (opts : gmap string value) : Route :=
  let service := prop opts "service" in
  if bool_decide (serviceName ch = "") && negb (truthy (prop opts "host")) then
    match subChannels ch with
    | Some registry =>
        if negb (truthy service) then FailTopLevelRequest
        else match registry !! toStr service with
             | Some sub => ReEnter sub
             | None =>
                 if bool_decide (toStr service ∈ objectPrototype) then NotAChannel
                 else FailTopLevelRequest
             end
    | None => FailTopLevelRequest
    end
  else if truthy (prop opts "host") || truthy (prop opts "streamed")
  then ViaPeerPool
  else SingleShot.

(** *** Shutdown accounting *)

#[global] Instance Callback_eq_dec : EqDecision Callback.
Proof. solve_decision. Defined.

Definition target (p : Pending) : nat :=
  match p with
  | AwaitClose _ k | AwaitListening _ k => k
  end.

(** A [close] call that was started with the [onClose] of environment [k]
    as its callback and has not called it yet. *)
Definition openChildOf (k : nat) (e : CloseEnv) : bool :=
  bool_decide (callback e = CbOnClose k) && bool_decide (0 < counter e)%Z.

(** The sub-resources of the [close] call [k] that have not signalled their
    completion yet: sockets, connections and pools whose close was started,
    and sub-channel closes that have not called back. *)
Definition pendingFor (k : nat) (l : list Pending) : nat :=
  sum_list_with (λ p, if bool_decide (target p = k) then 1 else 0) l.

Definition openChildren (k : nat) (l : list CloseEnv) : nat :=
  sum_list_with (λ e, if openChildOf k e then 1 else 0) l.

Definition outstanding (k : nat) (s : State) : nat :=
  pendingFor k (pending s) + openChildren k (closeEnvs s).

(** How often the callback given to the [close] call [k] was invoked. *)
Definition isCallbackOf (k : nat) (ev : Effect) : nat :=
  match ev with
  | ECallback k' _ => if bool_decide (k' = k) then 1 else 0
  | _ => 0
  end.

Definition firedIn (k : nat) (tr : list Effect) : nat :=
  sum_list_with (isCallbackOf k) tr.

Definition fired (k : nat) (s : State) : nat := firedIn k (trace s).

(** The accounting of environment [k]: the counter is the number of
    outstanding sub-resources plus a credit (the 1 that a [close] still
    running holds for its pool, and the increment made just before a
    sub-resource's close is started); an enclosing environment is older; a
    caller's callback was invoked once if the counter is back at 0 and not
    at all otherwise. *)
Definition envOk (credit : nat → nat) (s : State) (k : nat) (e : CloseEnv)
    : Prop :=
  counter e = Z.of_nat (outstanding k s + credit k) ∧
  match callback e with
  | CbOnClose k' => k' < k
  | CbFun _ => fired k s = if bool_decide (counter e = 0%Z) then 1 else 0
  | CbNone => True
  end.

#[global] Instance envOk_dec credit s k e : Decision (envOk credit s k e).
Proof. unfold envOk. destruct (callback e); apply _. Defined.

Definition knownCallback (n : nat) (ev : Effect) : Prop :=
  match ev with
  | ECallback k _ => k < n
  | _ => True
  end.

#[global] Instance knownCallback_dec n ev : Decision (knownCallback n ev).
Proof. destruct ev; simpl; apply _. Defined.

Definition closing (credit : nat → nat) (s : State) : Prop :=
  Forall (λ k, from_option (envOk credit s k) True (closeEnvs s !! k))
    (seq 0 (length (closeEnvs s))) ∧
  Forall (λ p, target p < length (closeEnvs s)) (pending s) ∧
  Forall (knownCallback (length (closeEnvs s))) (trace s).

#[global] Instance closing_dec credit s : Decision (closing credit s).
Proof.
  unfold closing. apply and_dec; [|apply _].
  apply Forall_dec. intros k. destruct (closeEnvs s !! k); simpl; apply _.
Defined.

(** No [close] is running: all credits are 0. *)
Definition settled (s : State) : Prop := closing (λ _, 0) s.

#[global] Instance settled_dec s : Decision (settled s).
Proof. unfold settled. apply _. Defined.

Definition plus1 (credit : nat → nat) (k : nat) : nat → nat :=
  λ j, credit j + (if bool_decide (j = k) then 1 else 0).

(** The credit an enclosing [close] holds when it calls [close] on a
    sub-channel: the increment it has just made. *)
Definition parentCredit (credit : nat → nat) (cb : Callback) : nat → nat :=
  match cb with
  | CbOnClose k0 => plus1 credit k0
  | _ => credit
  end.

Definition notCallback (ev : Effect) : bool :=
  match ev with
  | ECallback _ _ => false
  | _ => true
  end.

(** The registered sub-channels that are there and not destroyed. *)
Definition live (m : gmap loc TChannelObj) (c : loc) : bool :=
  match m !! c with
  | Some sc => negb (destroyed sc)
  | None => false
  end.

Definition liveCount (m : gmap loc TChannelObj) (l : list loc) : nat :=
  sum_list_with (λ c, if live m c then 1 else 0) l.

Definition subList (ch : TChannelObj) : list loc :=
  match subChannels ch with
  | Some subs => (map_to_list subs).*2
  | None => []
  end.

(** The first statement of [onClose]: [--counter]. *)
Definition decremented (k : nat) (e : CloseEnv) (s : State) : State :=
  logged (ECounterDec k)
    (set_closeEnvs
       <[k := mkCloseEnv (counter e - 1) (callback e) (env_self e)]> s).

(** The accounts are settled and the callbacks of the [close] calls made
    so far are [cbs]. *)
Definition accounts (cbs : list Callback) (s : State) : Prop :=
  settled s ∧ callback <$> closeEnvs s = cbs.

(** *** close, in one piece *)

Definition serverPending (c : loc) (ss : option ServerSocket) (k : nat)
    : list Pending :=
  match ss with
  | Some ss =>
      [match ss_address ss with
       | Some _ => AwaitClose (RServer c) k
       | None => AwaitListening c k
       end]
  | None => []
  end.

Definition serverTrace (c : loc) (ss : option ServerSocket) (k : nat)
    : list Effect :=
  match ss with
  | Some ss =>
      ECounterInc k ::
      match ss_address ss with
      | Some _ => [EServerOnce c "close" k; EServerClose c]
      | None => [EServerOnce c "listening" k]
      end
  | None => []
  end.

Definition connList (table : option (gmap string loc)) : list loc :=
  match table with
  | Some t => (map_to_list t).*2
  | None => []
  end.

Definition connTrace (k : nat) (l : list loc) : list Effect :=
  l ≫= λ c, [ECounterInc k; EConnClose c k].

(** What [close] does to the channel itself: it is destroyed, and its
    server socket, if it has one that is bound, is closed (for a socket
    that is not bound [with_closedServer] changes nothing). *)
Definition shut (ch : TChannelObj) : TChannelObj :=
  with_closedServer (with_destroyed true ch).

(** [close] up to and including the loop over the inbound connections. *)
Definition closeBegin (c : loc) (ch : TChannelObj) (cb : Callback) (s : State)
    : State :=
  let k := length (closeEnvs s) in
  mkState (alter shut c (chans s)) (pools s) (peerObjs s)
    (conns s) (nextLoc s)
    (closeEnvs s ++
       [mkCloseEnv
          (1 + Z.of_nat (length (serverPending c (serverSocket ch) k))
             + Z.of_nat (length (connList (serverConnections ch))))
          cb c])
    (pending s ++ serverPending c (serverSocket ch) k ++
       ((λ x, AwaitClose (RConn x) k) <$> connList (serverConnections ch)))
    (socketClose s)
    (trace s ++ [EClose c cb; ECounterInit k] ++
       serverTrace c (serverSocket ch) k ++
       connTrace k (connList (serverConnections ch))).

(** The last statement of [close]: [self.peers.close(onClose)]. *)
Definition closeEnd (p : loc) (k : nat) (s : State) : State :=
  set_pending (λ l, l ++ [AwaitClose (RPeers p) k]) (logged (EPeersClose p k) s).

Definition incremented (k : nat) (s : State) : State :=
  logged (ECounterInc k)
    (set_closeEnvs (λ l,
       match l !! k with
       | Some e => <[k := mkCloseEnv (counter e + 1) (callback e) (env_self e)]> l
       | None => l
       end) s).

(** The whole [close] of a channel without sub-channels. *)
Definition closedLeaf (c : loc) (ch : TChannelObj) (cb : Callback) (s : State)
    : State :=
  closeEnd (peers ch) (length (closeEnvs s)) (closeBegin c ch cb s).

(** One turn of the loop over the sub-channels of the [close] call [k]. *)
Definition closeSub (k : nat) (s : State) (sub : loc) : State :=
  match chans s !! sub with
  | Some sc =>
      if destroyed sc then s
      else closedLeaf sub sc (CbOnClose k) (incremented k s)
  | None => s
  end.

(** The whole of a successful [close] of a channel whose sub-channels have
    no sub-channels. *)
Definition closed (c : loc) (ch : TChannelObj) (cb : Callback) (s : State)
    : State :=
  let k := length (closeEnvs s) in
  closeEnd (peers ch) k (foldl (closeSub k) (closeBegin c ch cb s) (subList ch)).

(** The order the specification asks for: every start of a sub-resource's
    close comes right after an increment of the counter it will decrement.
    [startsFor] tells which effects start such a close, and for which
    counter. *)
Definition startsAll (ev : Effect) : option nat :=
  match ev with
  | EServerOnce _ _ k | EConnClose _ k | EPeersClose _ k
  | EClose _ (CbOnClose k) => Some k
  | _ => None
  end.

(** The same without the Peer Pool. *)
Definition startsButPool (ev : Effect) : option nat :=
  match ev with
  | EServerOnce _ _ k | EConnClose _ k | EClose _ (CbOnClose k) => Some k
  | _ => None
  end.

Fixpoint incBeforeStart (starts : Effect → option nat) (prev : option Effect)
    (tr : list Effect) : bool :=
  match tr with
  | [] => true
  | ev :: tr' =>
      match starts ev with
      | Some k =>
          match prev with
          | Some (ECounterInc k') => bool_decide (k' = k)
          | _ => false
          end
      | None => true
      end && incBeforeStart starts (Some ev) tr'
  end.

(** A stretch of trace in which every start (but the pool's) has its
    increment right before it, whatever came before the stretch. *)
Definition selfContained (tr : list Effect) : Prop :=
  ∀ prev, incBeforeStart startsButPool prev tr = true.

(** The number of increments of counter [k] in a trace. *)
Definition isIncOf (k : nat) (ev : Effect) : nat :=
  match ev with
  | ECounterInc k' => if bool_decide (k' = k) then 1 else 0
  | _ => 0
  end.

Definition countInc (k : nat) (tr : list Effect) : nat :=
  sum_list_with (isIncOf k) tr.

(** [hostPort] handed down: what the [listening] event does to one
    sub-channel, and to the registry. *)
Definition inherit (hp : value) (c : TChannelObj) : TChannelObj :=
  if truthy (hostPort c) then c else with_hostPort hp c.

Definition propagate (hp : value) (l : list (string * loc))
    (m : gmap loc TChannelObj) : gmap loc TChannelObj :=
  foldl (λ m x, alter (inherit hp) x.2 m) m l.

(** The [listening] event on a channel that is not destroyed, in one
    piece. *)
Definition bound (self : loc) (ch : TChannelObj) (port : Z) (s : State)
    : State :=
  let hp := VStr (toStr (host ch) +:+ ":" +:+ pretty port) in
  logged (EEmit self EvListening)
    (set_chans (propagate hp (map_to_list (default ∅ (subChannels ch))))
       (set_chans (alter (with_listening true) self)
          (set_chans (alter (with_hostPort hp) self) s))).

(** The channels after the [closeServerSocket] closures that waited for the
    [listening] event of [self] have run: each of them closes the socket. *)
Definition resumedChans (self : loc) (waiting : list nat)
    (m : gmap loc TChannelObj) : gmap loc TChannelObj :=
  foldl (λ m _, alter with_closedServer self m) m waiting.

(** *** Predicates used in the proofs *)

(** [preserves I m]: the computation [m] keeps [I], whether it returns or
    throws. *)
Definition preserves {A} (I : State → Prop) (m : M A) : Prop :=
  ∀ s, I s →
    match m s with
    | Ok _ s' | Throw _ s' => I s'
    | OutOfFuel => True
    end.

(** [terminates m]: the computation [m] returns or throws, whatever the
    store. *)
Definition terminates {A} (m : M A) : Prop :=
  ∀ s, m s ≠ OutOfFuel.

(** What the loop over [options.peers] leaves alone, and what it keeps of
    the pool [p]: the channel it was made for. *)
Definition peersFrame (s : State) (p c : loc) (t : State) : Prop :=
  chans t = chans s ∧ conns t = conns s ∧ closeEnvs t = closeEnvs s ∧
  pending t = pending s ∧ socketClose t = socketClose s ∧
  nextLoc s ≤ nextLoc t ∧
  ∃ pool, pools t !! p = Some pool ∧ pool_channel pool = c.

(** The claim that a sub-channel holds its top channel's very pool. *)
Definition sharesPool (s : State) (top c : loc) : Prop :=
  ∃ cht chc,
    chans s !! top = Some cht ∧ chans s !! c = Some chc ∧ peers chc = peers cht.

(** "Channel [c] has listened": it lies below [nextLoc], so that no later
    allocation takes its place, and its [listened] flag is set. *)
Definition hasListened (c : loc) (s : State) : Prop :=
  c < nextLoc s ∧ ∃ ch, chans s !! c = Some ch ∧ listened ch = true.

Definition isLeaf (s : State) (c : loc) : Prop :=
  ∃ sc, chans s !! c = Some sc ∧ subChannels sc = None.

(** The registry and the back references agree: a channel with a
    [topChannel] has a service name and its top channel has none, and a
    channel registered under a name carries that name and refers back to
    the channel that holds the registry. *)
Definition linked (s : State) : Prop :=
  map_Forall (λ c ch,
    match topChannel ch with
    | Some t =>
        serviceName ch ≠ "" ∧
        from_option (λ top, serviceName top = "") False (chans s !! t)
    | None => True
    end ∧
    map_Forall (λ name sub,
      from_option (λ sc, topChannel sc = Some c ∧ serviceName sc = name) False
        (chans s !! sub))
      (default ∅ (subChannels ch)))
    (chans s).

#[global] Instance linked_dec s : Decision (linked s).
Proof.
  unfold linked. apply map_Forall_dec. intros c ch. apply and_dec.
  - destruct (topChannel ch) as [t|]; [|apply _].
    apply and_dec; [apply _|]. destruct (chans s !! t); simpl; apply _.
  - apply map_Forall_dec. intros name sub. destruct (chans s !! sub); simpl; apply _.
Defined.

(** A channel that has a server socket has an inbound table. *)
Definition serverReady (s : State) : Prop :=
  map_Forall (λ _ ch, serverSocket ch ≠ None → serverConnections ch ≠ None)
    (chans s).

#[global] Instance serverReady_dec s : Decision (serverReady s).
Proof. unfold serverReady. apply _. Defined.

(** The log line of [onClose] for a counter that went below 0. *)
Definition overClosed (ev : Effect) : bool :=
  match ev with
  | ELoggerError m => String.eqb m "closed more channel sockets than expected"
  | _ => false
  end.

(** No counter has gone below 0 so far. *)
Definition quiet (s : State) : Prop :=
  Forall (λ ev, overClosed ev = false) (trace s).

#[global] Instance quiet_dec s : Decision (quiet s).
Proof. unfold quiet. apply _. Defined.

(** What places a channel in the hierarchy, and the stores in which every
    channel has the place it has in [s]. *)
Definition shape (ch : TChannelObj)
    : string * option loc * option (gmap string loc) :=
  (serviceName ch, topChannel ch, subChannels ch).

Definition sameShape (s t : State) : Prop :=
  ∀ c, shape <$> chans t !! c = shape <$> chans s !! c.

(** The stores that the calls and events keep to. *)
Definition wellFormed (s : State) : Prop :=
  fresh s ∧ hierarchy s ∧ linked s.

#[global] Instance wellFormed_dec s : Decision (wellFormed s).
Proof. unfold wellFormed. apply _. Defined.

(** The stores of a running program: well-formed, with an inbound table
    wherever there is a server socket, with settled accounts and without a
    counter that went below 0. *)
Definition sound (s : State) : Prop :=
  wellFormed s ∧ serverReady s ∧ settled s ∧ quiet s.

#[global] Instance sound_dec s : Decision (sound s).
Proof. unfold sound. apply _. Defined.

(** What a channel keeps of the options it was constructed with. *)
Definition made (ch : TChannelObj)
    : Options * gmap string value * bool * Handler :=
  (options ch, requestDefaults ch, tracer ch, handler ch).

(** What [request] leaves alone: everything but the trace. *)
Definition sameStore (s t : State) : Prop :=
  chans t = chans s ∧ pools t = pools s ∧ peerObjs t = peerObjs s ∧
  conns t = conns s ∧ nextLoc t = nextLoc s ∧ closeEnvs t = closeEnvs s ∧
  pending t = pending s ∧ socketClose t = socketClose s.

(** "Channel [c] is destroyed": it lies below [nextLoc] and its [destroyed]
    flag is set. *)
Definition isDestroyed (c : loc) (s : State) : Prop :=
  c < nextLoc s ∧ ∃ ch, chans s !! c = Some ch ∧ destroyed ch = true.

(** ** A sample store

    A top channel (object 0, pool 1) that has listened on 127.0.0.1 and whose
    socket has just been bound to port 4040, with one inbound connection
    (object 4) from 9.9.9.9:10 and one sub-channel "svc" (object 2, pool
    3). *)

Definition sampleOptions : Options :=
  mkOptions "" None None None None
    (<["timeoutCheckInterval" := VNum 1000]>
       (<["timeoutFuzz" := VNum 100]> (<["processName" := VStr "node[1]"]> ∅))).

Definition sampleTop : TChannelObj :=
  mkChannel sampleOptions (<["timeout" := VNum 100]> ∅)
    (VStr "127.0.0.1") (VNum 0) VNull "" None (Some (<["svc" := 2]> ∅))
    (TChannelServiceNameHandler 0) 1 false true false false
    (Some (mkServerSocket (Some 4040%Z) (Some 7)))
    (Some (<["9.9.9.9:10" := 4]> ∅)).

Definition sampleSub : TChannelObj :=
  mkChannel sampleOptions (<["timeout" := VNum 100]> ∅)
    VNull VNull VNull "svc" (Some 0) None
    (EndpointHandler "svc") 3 false false false false None None.

Definition sample : State :=
  mkState (<[0 := sampleTop]> (<[2 := sampleSub]> ∅))
    (<[1 := mkPool 0 ∅]> (<[3 := mkPool 2 ∅]> ∅))
    ∅
    (<[4 := mkConnection 0 (mkSocket 1 "9.9.9.9" 10) "in" "9.9.9.9:10"]> ∅)
    5 [] [] [(1, (0, "9.9.9.9:10"))] [].

(** The same store with the [destroyed] flag of the top channel set. *)
Definition sampleDestroyed : State :=
  set_chans (alter (with_destroyed true) 0) sample.

Definition sampleSubOptions : Options :=
  mkOptions "other" None None None (Some [PeerStr "1.2.3.4:5"]) ∅.

(** ** The methods of channel.js *)

Section Core.

(** [TChannelRequest.defaultTimeout] (request.js) and the process name
    [format('%s[%s]', process.title, process.pid)] are fixed outside
    channel.js. *)
Variable defaultTimeout : value.
Variable processName : string.

(** [TChannelPeers(channel, options)]: a new pool for [channel]. *)
Definition TChannelPeers (c : loc) (opts : Options) : M loc :=
  p ← alloc;
  modify (set_pools <[p := mkPool c ∅]>) ;;
  effect (ENewPeers p c) ;;
  mret p.

Definition withPeer (hp : string) (peer : loc) (pool : Pool) : Pool :=
  mkPool (pool_channel pool) (<[hp := peer]> (pool_peers pool)).

(** [pool.add(hostPort)]: the peer for that address, made on first use. *)
Definition peers_add (p : loc) (hp : string) : M loc :=
  pool ← getPool p;
  match pool_peers pool !! hp with
  | Some peer => effect (EPeersAdd p hp peer) ;; mret peer
  | None =>
      peer ← alloc;
      modify (set_peerObjs <[peer := hp]>) ;;
      modify (set_pools (alter (withPeer hp peer) p)) ;;
      effect (EPeersAdd p hp peer) ;;
      mret peer
  end.

(** [pool.addPeer(peer)]: attach an existing peer object. *)
Definition peers_addPeer (p peer : loc) : M unit :=
  _ ← getPool p;
  o ← gets (λ s, peerObjs s !! peer);
  match o with
  | Some hp =>
      modify (set_pools (alter (withPeer hp peer) p)) ;;
      effect (EPeersAddPeer p peer)
  | None => throw TypeError
  end.

(** The body of the loop over [options.peers] in [makeSubChannel]. *)
Definition attachPeer (topPeers chanPeers : loc) (a : PeerArg) : M unit :=
  match a with
  | PeerStr hp => peer ← peers_add topPeers hp; peers_addPeer chanPeers peer
  | PeerObj peer => peers_addPeer chanPeers peer
  end.

(** [function TChannel(options)] *)
Definition TChannel (opts : Options) : M loc :=
  self ← alloc;
  let other :=
    o_other opts ∪
      <["timeoutCheckInterval" := VNum 1000]>
        (<["timeoutFuzz" := VNum 100]>
           (<["processName" := VStr processName]> ∅)) in
  let rd := default ∅ (o_requestDefaults opts)
              ∪ <["timeout" := defaultTimeout]> ∅ in
  let name := o_serviceName opts in
  let opts' :=
    mkOptions "" None (o_requestDefaults opts) (o_trace opts) (o_peers opts)
      other in
  let h :=
    match o_handler opts with
    | None =>
        if String.eqb name "" then TChannelServiceNameHandler self
        else EndpointHandler name
    | Some h => h
    end in
  p ← TChannelPeers self opts';
  let tr := bool_decide (o_trace opts = Some true) in
  (if tr then effect (ENewTracer self) else mret ()) ;;
  let rd' :=
    if tr && negb (bool_decide (prop rd "trace" = VBool false))
    then <["trace" := VBool true]> rd else rd in
  modify (set_chans
            <[self := mkChannel opts' rd' VNull VNull VNull name None
                        (if String.eqb name "" then Some ∅ else None)
                        h p tr false false false None None]>) ;;
  mret self.

(** [TChannel.prototype.makeSubChannel] *)
Definition makeSubChannel (self : loc) (opts : Options) : M loc :=
  ch ← chan self;
  assert (String.eqb (serviceName ch) "")
    "arbitrary-depth sub channels are unsupported" ;;
  assert (negb (String.eqb (o_serviceName opts) ""))
    "must specify serviceName" ;;
  subs ← match subChannels ch with
         | Some m => mret m
         | None => throw TypeError
         end;
  assert (bool_decide (read subs (o_serviceName opts) = None))
    "duplicate sub channel creation" ;;
  let merged :=
    mkOptions (o_serviceName opts)
      (match o_handler opts with
       | Some h => Some h
       | None => o_handler (options ch)
       end)
      (match o_requestDefaults opts with
       | Some d => Some d
       | None => o_requestDefaults (options ch)
       end)
      (match o_trace opts with
       | Some b => Some b
       | None => o_trace (options ch)
       end)
      (o_peers (options ch))
      (o_other opts ∪ o_other (options ch)) in
  c ← TChannel merged;
  update c (with_topChannel (Some self)) ;;
  new ← chan c;
  forEach (default [] (o_peers opts)) (attachPeer (peers ch) (peers new)) ;;
  update self (λ x,
    with_subChannels (<[serviceName new := c]> <$> subChannels x) x) ;;
  top ← chan self;
  (if truthy (hostPort top) then update c (with_hostPort (hostPort top))
   else mret ()) ;;
  mret c.

(** [TChannel.prototype.getServer] *)
Definition getServer (self : loc) : M unit :=
  ch ← chan self;
  match serverSocket ch with
  | Some _ => mret ()
  | None =>
      update self (with_serverConnections (Some ∅)) ;;
      update self (with_serverSocket (Some (mkServerSocket None None))) ;;
      effect (ECreateServer self) ;;
      effect (EServerOn self "listening") ;;
      effect (EServerOn self "error")
  end.

(** [server.listen(port, host, callback)] of net: starts the bind and keeps
    the callback for the [listening] event. *)
Definition server_listen (self : loc) (port : Z) (hst : string)
    (cb : option nat) : M unit :=
  update self (λ x,
    with_serverSocket
      ((λ ss, mkServerSocket (ss_address ss) cb) <$> serverSocket x) x) ;;
  effect (EServerListen self port hst cb).

(** [TChannel.prototype.listen] *)
Definition listen (self : loc) (port hst : value) (cb : option nat) : M unit :=
  ch ← chan self;
  assert (negb (listened ch)) "TChannel can only listen once" ;;
  assert (String.eqb (typeof hst) "string")
    "TChannel requires host argument" ;;
  assert (String.eqb (typeof port) "number")
    "TChannel must listen with numeric port" ;;
  assert (negb (bool_decide (hst = VStr "0.0.0.0")))
    "TChannel must listen with externally visible host" ;;
  update self (with_listen port hst) ;;
  getServer self ;;
  match port, hst with
  | VNum p, VStr h => server_listen self p h cb
  | _, _ => throw TypeError
  end.

(** [TChannel.prototype.onServerSocketListening] *)
Definition onServerSocketListening (self : loc) : M unit :=
  ch ← chan self;
  match serverSocket ch ≫= ss_address with
  | None => throw TypeError
  | Some port =>
      if destroyed ch then
        effect (ELoggerError "got serverSocket listen whilst destroyed")
      else
        update self (with_hostPort (VStr (toStr (host ch) +:+ ":" +:+ pretty port))) ;;
        update self (with_listening true) ;;
        match subChannels ch with
        | Some subs =>
            forEach (map_to_list subs) (λ '(_, sub),
              c ← chan sub;
              if truthy (hostPort c) then mret ()
              else top ← chan self; update sub (with_hostPort (hostPort top)))
        | None => mret ()
        end ;;
        effect (EEmit self EvListening)
  end.

(** [self.emit('error', err)]. The listeners of the [error] event are
    attached by the users of the channel (with [on], which the channel has
    from EventEmitter), outside channel.js; [handled] tells whether there is
    one when the event is emitted. With a listener the event is delivered;
    without one, [emit] throws the error it was given. *)
Definition emitError (self : loc) (handled : bool) (err : SocketError)
    : M unit :=
  if handled then effect (EEmit self (EvError err)) else throw (Unhandled err).

(** [TChannel.prototype.onServerSocketError]. The log line goes to the
    trace; the record given to the logger with it is the result, when the
    method returns. *)
Definition onServerSocketError (self : loc) (err : NetError) (handled : bool)
    : M ErrorInfo :=
  ch ← chan self;
  let err' :=
    if bool_decide (err_code err = VStr "EADDRINUSE")
    then TChannelListenError err (requestedPort ch) (host ch)
    else Plain err in
  let info :=
    mkErrorInfo err' (requestedPort ch) (host ch)
      (if truthy (hostPort ch) then hostPort ch else VNull) in
  effect (ELoggerError "server socket error") ;;
  emitError self handled err' ;;
  mret info.

(** [TChannel.prototype.onServerSocketConnection] *)
Definition onServerSocketConnection (self : loc) (sock : Socket) : M unit :=
  ch ← chan self;
  if destroyed ch then
    effect (ELoggerError "got incoming socket whilst destroyed")
  else
    let remoteAddr := remoteAddress sock +:+ ":" +:+ pretty (remotePort sock) in
    conn ← alloc;
    modify (set_conns <[conn := mkConnection self sock "in" remoteAddr]>) ;;
    effect (ENewConnection conn self sock "in" remoteAddr) ;;
    effect (EConnOn conn "span") ;;
    match serverConnections ch with
    | None => throw TypeError
    | Some table =>
        match table !! remoteAddr with
        | Some oldConn =>
            effect (EConnResetAll oldConn
                      (SocketClosedError "duplicate remoteAddr incoming conn")) ;;
            update self (λ x,
              with_serverConnections (delete remoteAddr <$> serverConnections x) x) ;;
            effect (ETableDelete self remoteAddr)
        | None => mret ()
        end ;;
        modify (set_socketClose (λ l, l ++ [(sock_id sock, (self, remoteAddr))])) ;;
        effect (ESocketOn (sock_id sock) "close") ;;
        update self (λ x,
          with_serverConnections (<[remoteAddr := conn]> <$> serverConnections x) x) ;;
        effect (ETableSet self remoteAddr conn) ;;
        effect (EEmit self (EvConnection conn))
    end.

(** The closure [onSocketClose] made by [onServerSocketConnection] for
    [self] and [remoteAddr]. *)
Definition onSocketClose (self : loc) (remoteAddr : string) : M unit :=
  ch ← chan self;
  match serverConnections ch with
  | None => throw TypeError
  | Some _ =>
      update self (λ x,
        with_serverConnections (delete remoteAddr <$> serverConnections x) x) ;;
      effect (ETableDelete self remoteAddr)
  end.

(** [TChannel.prototype.register] *)
Definition register (self : loc) (name : string) (fn : nat) : M unit :=
  ch ← chan self;
  let handlerType := handler_type (handler ch) in
  if bool_decide (handlerType = VStr "tchannel.endpoint-handler") then
    effect (EHandlerRegister self name fn)
  else if bool_decide (handlerType = VStr "tchannel.service-name-handler") then
    throw TopLevelRegisterError
  else
    throw (InvalidHandlerForRegister handlerType (handler ch)).

(** [TChannel.prototype.address]: the port the socket is bound to, [None]
    for [null]. The recursion is the call on the top channel. *)
Fixpoint address (fuel : nat) (self : loc) : M (option Z) :=
  match fuel with
  | 0 => λ _, OutOfFuel
  | S fuel' =>
      ch ← chan self;
      match serverSocket ch with
      | Some ss => mret (ss_address ss)
      | None =>
          match topChannel ch with
          | Some top => address fuel' top
          | None => mret None
          end
      end
  end.

(** The options of one request: the channel's [requestDefaults] overlaid by
    the caller's options, then [service] taken from [serviceName] when only
    the latter is given. *)
Definition requestOptions (ch : TChannelObj) (opt : gmap string value)
    : gmap string value :=
  let opts := opt ∪ requestDefaults ch in
  if negb (truthy (prop opts "service")) && truthy (prop opts "serviceName")
  then <["service" := prop opts "serviceName"]> opts else opts.

(** [TChannel.prototype.request]. The recursion is the re-entry on a
    sub-channel. *)
Fixpoint request (fuel : nat) (self : loc) (opt : gmap string value)
    : M Request :=
  match fuel with
  | 0 => λ _, OutOfFuel
  | S fuel' =>
      ch ← chan self;
      assert (negb (destroyed ch)) "cannot request() to destroyed tchannel" ;;
      let opts := requestOptions ch opt in
      if negb (truthy (VStr (serviceName ch))) && negb (truthy (prop opts "host"))
      then
        match (if truthy (prop opts "service")
               then subChannels ch ≫= (λ m, read m (toStr (prop opts "service")))
               else None) with
        | Some (Own sub) => request fuel' sub opts
        | Some Inherited => throw TypeError
        | None => throw TopLevelRequestError
        end
      else
        req ← (if truthy (prop opts "host") || truthy (prop opts "streamed")
               then effect (EPeersRequest (peers ch) opts) ;;
                    mret (PoolRequest (peers ch) opts)
               else effect (ENewRequest self opts) ;;
                    mret (TChannelRequest self opts));
        effect (EEmit self (EvRequest req)) ;;
        mret req
  end.

(** *** close *)

(** [var counter = 1], together with the closures [onClose] and
    [closeServerSocket] that capture it. *)
Definition newCounter (self : loc) (cb : Callback) : M nat :=
  k ← gets (λ s, length (closeEnvs s));
  modify (set_closeEnvs (λ l, l ++ [mkCloseEnv 1 cb self])) ;;
  effect (ECounterInit k) ;;
  mret k.

(** [++counter] *)
Definition incr (k : nat) : M unit :=
  modify (set_closeEnvs (λ l,
    match l !! k with
    | Some e => <[k := mkCloseEnv (counter e + 1) (callback e) (env_self e)]> l
    | None => l
    end)) ;;
  effect (ECounterInc k).

Definition await (p : Pending) : M unit :=
  modify (set_pending (λ l, l ++ [p])).

(** [self.serverSocket.close()]: see [unbound]. *)
Definition server_close (self : loc) : M unit :=
  update self with_closedServer ;;
  effect (EServerClose self).

(** The closure [closeServerSocket] *)
Definition closeServerSocket (self : loc) (k : nat) : M unit :=
  effect (EServerOnce self "close" k) ;;
  server_close self ;;
  await (AwaitClose (RServer self) k).

(** [TChannel.prototype.close]. The recursion is the close of the
    sub-channels. *)
Fixpoint close (fuel : nat) (self : loc) (cb : Callback) : M unit :=
  match fuel with
  | 0 => λ _, OutOfFuel
  | S fuel' =>
      ch ← chan self;
      assert (negb (destroyed ch)) "TChannel double close" ;;
      effect (EClose self cb) ;;
      update self (with_destroyed true) ;;
      k ← newCounter self cb;
      match serverSocket ch with
      | Some ss =>
          incr k ;;
          match ss_address ss with
          | Some _ => closeServerSocket self k
          | None =>
              effect (EServerOnce self "listening" k) ;;
              await (AwaitListening self k)
          end
      | None => mret ()
      end ;;
      match serverConnections ch with
      | Some table =>
          forEach (map_to_list table) (λ '(_, incomingConn),
            incr k ;;
            effect (EConnClose incomingConn k) ;;
            await (AwaitClose (RConn incomingConn) k))
      | None => mret ()
      end ;;
      match subChannels ch with
      | Some subs =>
          forEach (map_to_list subs) (λ '(_, svcchan),
            sc ← chan svcchan;
            if destroyed sc then mret ()
            else incr k ;; close fuel' svcchan (CbOnClose k))
      | None => mret ()
      end ;;
      effect (EPeersClose (peers ch) k) ;;
      await (AwaitClose (RPeers (peers ch)) k)
  end.

(** The closure [onClose] of the [close] call with environment [k]. When
    the callback is the [onClose] of an enclosing call, that one runs in
    turn. *)
Fixpoint onClose (fuel : nat) (k : nat) : M unit :=
  match fuel with
  | 0 => λ _, OutOfFuel
  | S fuel' =>
      e ← closeEnv k;
      let n := (counter e - 1)%Z in
      modify (set_closeEnvs <[k := mkCloseEnv n (callback e) (env_self e)]>) ;;
      effect (ECounterDec k) ;;
      if (n <=? 0)%Z then
        (if (n <? 0)%Z then
           effect (ELoggerError "closed more channel sockets than expected")
         else mret ()) ;;
        match callback e with
        | CbNone => mret ()
        | CbFun f => effect (ECallback k f)
        | CbOnClose k' => onClose fuel' k'
        end
      else mret ()
  end.

(** *** What the outside world does *)

(** A pending completion arrives: the resource whose close was started calls
    back [onClose]. It does so once: the entry is consumed. *)
Definition completes (i : nat) : M unit :=
  o ← gets (λ s, pending s !! i);
  match o with
  | Some (AwaitClose r k) => modify (set_pending (delete i)) ;; onClose (S k) k
  | _ => mret ()
  end.

Definition waitingForListening (self : loc) (l : list Pending) : list nat :=
  omap (λ p, match p with
             | AwaitListening c k => if bool_decide (c = self) then Some k else None
             | AwaitClose _ _ => None
             end) l.

Definition resumed (self : loc) (p : Pending) : Pending :=
  match p with
  | AwaitListening c k =>
      if bool_decide (c = self) then AwaitClose (RServer self) k else p
  | AwaitClose _ _ => p
  end.

Definition resumeCloses (self : loc) : M unit :=
  l ← gets pending;
  forEach (waitingForListening self l) (λ k,
    effect (EServerOnce self "close" k) ;;
    server_close self) ;;
  modify (set_pending (fmap (resumed self))).

(** What [resumeCloses] does to the outside. *)
Definition resumeTrace (self : loc) (l : list Pending) : list Effect :=
  waitingForListening self l ≫= λ k,
    [EServerOnce self "close" k; EServerClose self].

(** The bind of the server socket of [self] completes on [port]. The
    [listening] listeners run in the order of their registration:
    [onServerSocketListening] (from [getServer]), the callback given to
    [listen], and the [closeServerSocket] closures that a [close] left
    waiting, which from then on wait for the socket's [close] event. *)
Definition serverListening (self : loc) (port : Z) : M unit :=
  ch ← chan self;
  match serverSocket ch with
  | None => throw TypeError
  | Some ss =>
      update self
        (with_serverSocket (Some (mkServerSocket (Some port) (ss_callback ss)))) ;;
      onServerSocketListening self ;;
      match ss_callback ss with
      | Some f => effect (ECall f)
      | None => mret ()
      end ;;
      resumeCloses self
  end.

(** An accepted socket closes: its [close] listeners run. *)
Definition socketClosed (sock : nat) : M unit :=
  l ← gets socketClose;
  forEach (filter (λ x, x.1 = sock) l)
    (λ '(_, (c, remoteAddr)), onSocketClose c remoteAddr).

(** The calls of the API and the events of the outside world. *)
Inductive Action :=
  | ANew (opts : Options)
  | AMakeSubChannel (c : loc) (opts : Options)
  | AListen (c : loc) (port hst : value) (cb : option nat)
  | ARegister (c : loc) (name : string) (fn : nat)
  | ARequest (c : loc) (opts : gmap string value)
  | AClose (c : loc) (cb : option nat)
  | AServerListening (c : loc) (port : Z)
  | AServerConnection (c : loc) (sock : Socket)
  | ASocketClosed (sock : nat)
  | ACompletes (i : nat).

Definition notClose (a : Action) : Prop :=
  match a with
  | AClose _ _ => False
  | _ => True
  end.

Definition void {A} (m : M A) : M unit := m ≫= λ _, mret ().

Definition perform (a : Action) : M unit :=
  match a with
  | ANew opts => void (TChannel opts)
  | AMakeSubChannel c opts => void (makeSubChannel c opts)
  | AListen c port hst cb => listen c port hst cb
  | ARegister c name fn => register c name fn
  | ARequest c opts => void (request 2 c opts)
  | AClose c cb => close 2 c (from_option CbFun CbNone cb)
  | AServerListening c port => serverListening c port
  | AServerConnection c sock => onServerSocketConnection c sock
  | ASocketClosed sock => socketClosed sock
  | ACompletes i => completes i
  end.

(** The state after an outcome; a thrown exception leaves the store as it
    was at the throw. *)
Definition after {A} (o : Outcome A) : option State :=
  match o with
  | Ok _ s | Throw _ s => Some s
  | OutOfFuel => None
  end.

Fixpoint run (l : list Action) (s : State) : option State :=
  match l with
  | [] => Some s
  | a :: l' => after (perform a s) ≫= run l'
  end.

(** * Properties *)

Ltac run_monad :=
  repeat (unfold mbind, M_bind, mret, M_ret, chan, assert, throw, effect,
            modify, update; simpl).

(** ** Requests after close *)

(** C7: on a destroyed channel [request] throws the failed assertion at once,
    for every options value, and hands back the store it was given: no
    Request was made, nothing was written, nothing was emitted. *)
Theorem request_after_close (fuel : nat) (self : loc) (opt : gmap string value)
    (s : State) (ch : TChannelObj) :
  chans s !! self = Some ch →
  destroyed ch = true →
  request (S fuel) self opt s = Throw UseAfterCloseError s.
Proof.
  intros Hch Hd. simpl. run_monad. rewrite Hch. simpl. rewrite Hd. reflexivity.
Qed.

(** ** register *)

(** C9: [register] succeeds, handing the endpoint to the handler's own
    [register], exactly when the handler carries the endpoint-handler tag;
    with the service-name-handler tag it throws [TopLevelRegisterError], and
    with any other tag [InvalidHandlerForRegister]. *)
Theorem register_by_handler_kind (self : loc) (name : string) (fn : nat)
    (s : State) (ch : TChannelObj) :
  chans s !! self = Some ch →
  ((∃ s', register self name fn s = Ok () s') ↔
     handler_type (handler ch) = VStr "tchannel.endpoint-handler") ∧
  (handler_type (handler ch) = VStr "tchannel.endpoint-handler" →
     register self name fn s = Ok () (logged (EHandlerRegister self name fn) s)) ∧
  (handler_type (handler ch) = VStr "tchannel.service-name-handler" →
     register self name fn s = Throw TopLevelRegisterError s) ∧
  (handler_type (handler ch) ≠ VStr "tchannel.endpoint-handler" →
   handler_type (handler ch) ≠ VStr "tchannel.service-name-handler" →
     register self name fn s =
       Throw (InvalidHandlerForRegister (handler_type (handler ch)) (handler ch)) s).
Proof.
  intros Hch. unfold register. run_monad. rewrite Hch. simpl.
  repeat split.
  - intros [s' H]. repeat case_bool_decide; try done.
  - intros H. rewrite bool_decide_eq_true_2 by done. eauto.
  - intros H. rewrite bool_decide_eq_true_2 by done. done.
  - intros H. rewrite H. done.
  - intros H1 H2. rewrite !bool_decide_eq_false_2 by done. done.
Qed.

(** ** Stepping through monadic code *)

Lemma bind_Ok {A B} (m : M A) (f : A → M B) (s s' : State) (b : B) :
  (m ≫= f) s = Ok b s' → ∃ a s1, m s = Ok a s1 ∧ f a s1 = Ok b s'.
Proof.
  unfold mbind, M_bind. destruct (m s) as [a s1| |]; try discriminate. eauto.
Qed.

Lemma bind_eq {A B} (m : M A) (f : A → M B) (s s1 : State) (a : A) :
  m s = Ok a s1 → (m ≫= f) s = f a s1.
Proof. unfold mbind, M_bind. intros ->. reflexivity. Qed.

Lemma bind_bind {A B C} (m : M A) (k : A → M B) (f : B → M C) (s : State) :
  ((m ≫= k) ≫= f) s = (m ≫= (λ a, k a ≫= f)) s.
Proof. unfold mbind, M_bind. destruct (m s); reflexivity. Qed.

Lemma bind_ret {A B} (a : A) (f : A → M B) (s : State) :
  (mret a ≫= f) s = f a s.
Proof. reflexivity. Qed.

Lemma bind_assert_true {B} (msg : string) (f : unit → M B) (s : State) :
  (assert true msg ≫= f) s = f () s.
Proof. reflexivity. Qed.

Lemma bind_effect {B} (e : Effect) (f : unit → M B) (s : State) :
  (effect e ≫= f) s = f () (logged e s).
Proof. reflexivity. Qed.

Lemma bind_modify {B} (g : State → State) (f : unit → M B) (s : State) :
  (modify g ≫= f) s = f () (g s).
Proof. reflexivity. Qed.

Lemma bind_gets {A B} (g : State → A) (f : A → M B) (s : State) :
  (gets g ≫= f) s = f (g s) s.
Proof. reflexivity. Qed.

Lemma bind_update {B} (c : loc) (g : TChannelObj → TChannelObj)
    (f : unit → M B) (s : State) :
  (update c g ≫= f) s = f () (set_chans (alter g c) s).
Proof. reflexivity. Qed.

Lemma assert_Ok (b : bool) (msg : string) (s s' : State) (u : unit) :
  assert b msg s = Ok u s' → b = true ∧ s' = s.
Proof. destruct b; simpl; [intros [= <-]; done | discriminate]. Qed.

Lemma chan_Ok (c : loc) (s s' : State) (ch : TChannelObj) :
  chan c s = Ok ch s' → chans s !! c = Some ch ∧ s' = s.
Proof.
  unfold chan. destruct (chans s !! c); [intros [= <- <-]; done | discriminate].
Qed.

Lemma preserves_ret {A} I (a : A) : preserves I (mret a).
Proof. intros s H. exact H. Qed.

Lemma preserves_throw {A} I e : preserves I (@throw A e).
Proof. intros s H. exact H. Qed.

Lemma preserves_assert I b msg : preserves I (assert b msg).
Proof. intros s H. destruct b; exact H. Qed.

Lemma preserves_chan I c : preserves I (chan c).
Proof. intros s H. unfold chan. destruct (chans s !! c); exact H. Qed.

Lemma preserves_gets {A} I (f : State → A) : preserves I (gets f).
Proof. intros s H. exact H. Qed.

Lemma preserves_bind {A B} I (m : M A) (f : A → M B) :
  preserves I m → (∀ a, preserves I (f a)) → preserves I (m ≫= f).
Proof.
  intros Hm Hf s H. unfold mbind, M_bind. specialize (Hm s H).
  destruct (m s) as [a s1|e s1|]; [apply Hf; exact Hm | exact Hm | constructor].
Qed.

Lemma preserves_modify I (f : State → State) :
  (∀ s, I s → I (f s)) → preserves I (modify f).
Proof. intros Hf s H. apply Hf, H. Qed.

Lemma preserves_forEach {A} I (l : list A) (body : A → M unit) :
  (∀ x, x ∈ l → preserves I (body x)) → preserves I (forEach l body).
Proof.
  induction l as [|x l IH]; intros Hb; simpl.
  - apply preserves_ret.
  - apply preserves_bind; [apply Hb; left | intros _; apply IH].
    intros y Hy. apply Hb. right. exact Hy.
Qed.

Lemma preserves_Ok {A} I (m : M A) (s s' : State) (a : A) :
  preserves I m → I s → m s = Ok a s' → I s'.
Proof. intros Hm H E. specialize (Hm s H). rewrite E in Hm. exact Hm. Qed.

Lemma preserves_after {A} I (m : M A) (s s' : State) :
  preserves I m → I s → after (m s) = Some s' → I s'.
Proof.
  intros Hm H E. specialize (Hm s H).
  destruct (m s); simpl in E; congruence.
Qed.

(** ** The constructor *)

(** What [TChannel(options)] builds, in one piece: a channel at the next
    free location, its own new pool right after it, nothing else touched. *)
Lemma TChannel_Ok (opts : Options) (s : State) :
  ∃ s' new,
    TChannel opts s = Ok (nextLoc s) s' ∧
    chans s' = <[nextLoc s := new]> (chans s) ∧
    pools s' = <[S (nextLoc s) := mkPool (nextLoc s) ∅]> (pools s) ∧
    peerObjs s' = peerObjs s ∧ conns s' = conns s ∧
    nextLoc s' = S (S (nextLoc s)) ∧
    closeEnvs s' = closeEnvs s ∧ pending s' = pending s ∧
    socketClose s' = socketClose s ∧
    (∃ tr, trace s' = trace s ++ ENewPeers (S (nextLoc s)) (nextLoc s) :: tr ∧
           (tr = [] ∨ tr = [ENewTracer (nextLoc s)])) ∧
    serviceName new = o_serviceName opts ∧
    (subChannels new = if String.eqb (o_serviceName opts) "" then Some ∅ else None) ∧
    peers new = S (nextLoc s) ∧
    topChannel new = None ∧ hostPort new = VNull ∧
    listened new = false ∧ listening new = false ∧ destroyed new = false ∧
    serverSocket new = None ∧ serverConnections new = None ∧
    handler new = match o_handler opts with
                  | Some h => h
                  | None => if String.eqb (o_serviceName opts) ""
                            then TChannelServiceNameHandler (nextLoc s)
                            else EndpointHandler (o_serviceName opts)
                  end.
Proof.
  unfold TChannel, TChannelPeers. run_monad.
  destruct (bool_decide (o_trace opts = Some true)); simpl;
    eexists _, _; (split; [reflexivity|]); simpl;
    repeat split; eauto.
  eexists; split; [rewrite <- app_assoc; reflexivity | eauto].
Qed.

Ltac preserves_step :=
  match goal with
  | |- preserves _ (mbind _ _) => apply preserves_bind; [|intros ?]
  | |- preserves _ (mret _) => apply preserves_ret
  | |- preserves _ (throw _) => apply preserves_throw
  | |- preserves _ (assert _ _) => apply preserves_assert
  | |- preserves _ (chan _) => apply preserves_chan
  | |- preserves _ (gets _) => apply preserves_gets
  | |- preserves _ (forEach _ _) => apply preserves_forEach; intros ? ?
  | |- preserves _ (match ?x with _ => _ end) => destruct x
  end.

Ltac preserves_prim :=
  match goal with
  | |- preserves _ (modify _) => intros ? ?; unfold modify; simpl
  | |- preserves _ (effect _) => intros ? ?; unfold effect; simpl
  | |- preserves _ (update _ _) => intros ? ?; unfold update, modify; simpl
  | |- preserves _ alloc => intros ? ?; unfold alloc; simpl
  end.

(** ** Sub-channel creation *)

Lemma attachPeer_frame (s : State) (p c topPeers chanPeers : loc) (a : PeerArg) :
  preserves (peersFrame s p c) (attachPeer topPeers chanPeers a).
Proof.
  unfold attachPeer, peers_add, peers_addPeer, getPool.
  repeat preserves_step; preserves_prim;
    match goal with H : peersFrame _ _ _ _ |- _ =>
      destruct H as (?&?&?&?&?&?&pool&Hp&?) end;
    unfold peersFrame; simpl; repeat split; try done; try lia.
  all: try (eexists; split; [eassumption | done]).
  all: rewrite lookup_alter; case_decide; subst; rewrite Hp; simpl; eauto.
Qed.

Lemma update_eq (c : loc) (f : TChannelObj → TChannelObj) (s : State) :
  update c f s = Ok () (set_chans (alter f c) s).
Proof. reflexivity. Qed.

Lemma chan_eq (c : loc) (s : State) (ch : TChannelObj) :
  chans s !! c = Some ch → chan c s = Ok ch s.
Proof. unfold chan. intros ->. reflexivity. Qed.

Lemma read_None (m : gmap string loc) (k : string) :
  read m k = None ↔ m !! k = None ∧ inherited k = false.
Proof.
  unfold read. destruct (m !! k); [split; [discriminate | intros [? _]; discriminate]|].
  destruct (inherited k); split; try done. intros [_ ?]; discriminate.
Qed.

Lemma read_Own (m : gmap string loc) (k : string) (c : loc) :
  read m k = Some (Own c) ↔ m !! k = Some c.
Proof.
  unfold read. destruct (m !! k); [split; congruence|].
  destruct (inherited k); split; discriminate.
Qed.

Lemma read_Inherited (m : gmap string loc) (k : string) :
  read m k = Some Inherited ↔ m !! k = None ∧ inherited k = true.
Proof.
  unfold read. destruct (m !! k); [split; [discriminate | intros [? _]; discriminate]|].
  destruct (inherited k); split; try done. intros [_ ?]; discriminate.
Qed.

(** A successful [makeSubChannel], in one piece. *)
Lemma makeSubChannel_Ok (self : loc) (opts : Options) (s s' : State) (c : loc) :
  map_Forall (λ c _, c < nextLoc s) (chans s) →
  makeSubChannel self opts s = Ok c s' →
  ∃ ch subs new,
    chans s !! self = Some ch ∧ serviceName ch = "" ∧
    subChannels ch = Some subs ∧ subs !! o_serviceName opts = None ∧
    o_serviceName opts ≠ "" ∧
    c = nextLoc s ∧
    chans s' =
      <[c := new]>
        (<[self := with_subChannels (Some (<[o_serviceName opts := c]> subs)) ch]>
           (chans s)) ∧
    serviceName new = o_serviceName opts ∧ subChannels new = None ∧
    topChannel new = Some self ∧ peers new = S (nextLoc s) ∧
    hostPort new = (if truthy (hostPort ch) then hostPort ch else VNull) ∧
    listened new = false ∧ destroyed new = false ∧
    serverSocket new = None ∧ serverConnections new = None ∧
    (∃ pool, pools s' !! S (nextLoc s) = Some pool ∧ pool_channel pool = c) ∧
    conns s' = conns s ∧ closeEnvs s' = closeEnvs s ∧ pending s' = pending s ∧
    socketClose s' = socketClose s ∧ nextLoc s < nextLoc s'.
Proof.
  intros Hfresh H. unfold makeSubChannel in H.
  apply bind_Ok in H as (ch & s1 & H1 & H). apply chan_Ok in H1 as [Hch ->].
  apply bind_Ok in H as (u & s1 & H1 & H). apply assert_Ok in H1 as [Hsn ->].
  apply bind_Ok in H as (u' & s1 & H1 & H). apply assert_Ok in H1 as [Hon ->].
  apply bind_Ok in H as (subs & s1 & H1 & H).
  destruct (subChannels ch) as [subs'|] eqn:Hsubs; [|discriminate].
  injection H1 as <- <-.
  apply bind_Ok in H as (u'' & s1 & H1 & H). apply assert_Ok in H1 as [Hdup ->].
  match type of H with (TChannel ?m ≫= _) _ = _ =>
    destruct (TChannel_Ok m s) as
      (t1 & new0 & HT & Hc1 & Hp1 & Hpo1 & Hcn1 & Hn1 & Hce1 & Hpe1 & Hsc1 & _ &
       Hname & Hsub0 & Hpeers0 & Htop0 & Hhp0 & Hl0 & _ & Hd0 & Hss0 & Hsconn0 & _)
  end.
  rewrite (bind_eq _ _ _ _ _ HT) in H.
  rewrite (bind_eq _ _ _ _ _ (update_eq _ _ _)) in H.
  assert (Hself : self < nextLoc s) by (eapply (map_Forall_lookup_1 _ _ _ _ Hfresh Hch)).
  set (f := with_topChannel (Some self)) in *.
  assert (Hnew : chans (set_chans (alter f (nextLoc s)) t1) !! nextLoc s = Some (f new0)).
  { simpl. rewrite Hc1, lookup_alter_eq, lookup_insert_eq. reflexivity. }
  rewrite (bind_eq _ _ _ _ _ (chan_eq _ _ _ Hnew)) in H.
  apply bind_Ok in H as (u3 & t3 & Hloop & H).
  assert (HF : peersFrame (set_chans (alter f (nextLoc s)) t1) (S (nextLoc s))
                 (nextLoc s) t3).
  { eapply preserves_Ok; [| |exact Hloop].
    - apply preserves_forEach. intros x _. apply attachPeer_frame.
    - unfold peersFrame; simpl. repeat split; try done.
      rewrite Hp1, lookup_insert_eq. eauto. }
  destruct HF as (Hc3 & Hcn3 & Hce3 & Hpe3 & Hsc3 & Hn3 & pool & Hpool & Hpc).
  simpl in Hc3, Hcn3, Hce3, Hpe3, Hsc3, Hn3.
  rewrite (bind_eq _ _ _ _ _ (update_eq _ _ _)) in H.
  set (g := λ x : TChannelObj,
         with_subChannels (<[serviceName (f new0) := nextLoc s]> <$> subChannels x) x) in *.
  assert (Htop : chans (set_chans (alter g self) t3) !! self = Some (g ch)).
  { simpl. rewrite Hc3, Hc1, lookup_alter_eq, lookup_alter_ne, lookup_insert_ne, Hch by lia.
    reflexivity. }
  rewrite (bind_eq _ _ _ _ _ (chan_eq _ _ _ Htop)) in H.
  apply negb_true_iff, String.eqb_neq in Hon.
  apply String.eqb_eq in Hsn.
  apply bool_decide_eq_true_1, read_None in Hdup as [Hdup _].
  assert (Hgch : g ch = with_subChannels (Some (<[o_serviceName opts := nextLoc s]> subs')) ch).
  { unfold g. rewrite Hsubs. simpl. unfold f. simpl. rewrite Hname. reflexivity. }
  assert (Hsub1 : subChannels new0 = None).
  { rewrite Hsub0. simpl. apply String.eqb_neq in Hon. rewrite Hon. reflexivity. }
  simpl in H.
  destruct (truthy (hostPort ch)) eqn:Htr.
  - rewrite (bind_eq _ _ _ _ _ (update_eq _ _ _)) in H. injection H as <- <-.
    exists ch, subs', (with_hostPort (hostPort ch) (f new0)).
    simpl. rewrite Htr, Hc3, Hc1, Hcn3, Hce3, Hpe3, Hsc3, Hcn1, Hce1, Hpe1, Hsc1.
    repeat split; try done; try lia; eauto.
    rewrite <- Hgch. apply map_eq. intros i.
    destruct (decide (i = nextLoc s)) as [->|Hi].
    + rewrite lookup_alter_eq, lookup_alter_ne, lookup_alter_eq, !lookup_insert_eq by lia.
      reflexivity.
    + rewrite lookup_alter_ne, (lookup_insert_ne _ (nextLoc s)) by done.
      destruct (decide (i = self)) as [->|Hi'].
      * rewrite lookup_alter_eq, lookup_insert_eq, lookup_alter_ne, lookup_insert_ne, Hch by lia.
        reflexivity.
      * rewrite !lookup_alter_ne, !lookup_insert_ne by done. reflexivity.
  - injection H as <- <-.
    exists ch, subs', (f new0).
    simpl. rewrite Htr, Hc3, Hc1, Hcn3, Hce3, Hpe3, Hsc3, Hcn1, Hce1, Hpe1, Hsc1.
    repeat split; try done; try lia; eauto.
    rewrite <- Hgch. apply map_eq. intros i.
    destruct (decide (i = nextLoc s)) as [->|Hi].
    + rewrite lookup_alter_ne, lookup_alter_eq, !lookup_insert_eq by lia.
      reflexivity.
    + rewrite (lookup_insert_ne _ (nextLoc s)) by done.
      destruct (decide (i = self)) as [->|Hi'].
      * rewrite lookup_alter_eq, lookup_insert_eq, lookup_alter_ne, lookup_insert_ne, Hch by lia.
        reflexivity.
      * rewrite !lookup_alter_ne, !lookup_insert_ne by done. reflexivity.
Qed.

(** *** The peers of a sub-channel *)

Lemma attachPeer_trace (topPeers chanPeers : loc) (a : PeerArg) (t t' : State) :
  attachPeer topPeers chanPeers a t = Ok () t' →
  ∃ seg, trace t' = trace t ++ seg ∧
    match a with
    | PeerStr hp =>
        ∃ peer, seg = [EPeersAdd topPeers hp peer; EPeersAddPeer chanPeers peer]
    | PeerObj peer => seg = [EPeersAddPeer chanPeers peer]
    end.
Proof.
  assert (Hadd : ∀ peer u u', peers_addPeer chanPeers peer u = Ok () u' →
            trace u' = trace u ++ [EPeersAddPeer chanPeers peer]).
  { intros peer u u' H. unfold peers_addPeer, getPool in H.
    rewrite bind_bind, bind_gets in H.
    destruct (pools u !! chanPeers); [|discriminate]. rewrite bind_ret, bind_gets in H.
    destruct (peerObjs u !! peer); [|discriminate].
    rewrite bind_modify in H. injection H as <-. reflexivity. }
  intros H. destruct a as [hp|peer]; simpl in H.
  - apply bind_Ok in H as (peer & u & H1 & H2). apply Hadd in H2.
    exists [EPeersAdd topPeers hp peer; EPeersAddPeer chanPeers peer].
    split; [|eauto]. rewrite H2.
    unfold peers_add, getPool in H1. rewrite bind_bind, bind_gets in H1.
    destruct (pools t !! topPeers) as [pool|]; [|discriminate].
    rewrite bind_ret in H1. destruct (pool_peers pool !! hp).
    + rewrite bind_effect in H1. injection H1 as <- <-. simpl.
      rewrite <- app_assoc. reflexivity.
    + revert H1. run_monad. intros [= <- <-]. simpl.
      rewrite <- app_assoc. reflexivity.
  - exists [EPeersAddPeer chanPeers peer]. split; [|reflexivity].
    apply Hadd. exact H.
Qed.

Lemma attachLoop_trace (topPeers chanPeers : loc) (l : list PeerArg) :
  ∀ t t', forEach l (attachPeer topPeers chanPeers) t = Ok () t' →
    ∃ segs, trace t' = trace t ++ concat segs ∧
      Forall2 (λ a seg,
        match a with
        | PeerStr hp =>
            ∃ peer, seg = [EPeersAdd topPeers hp peer; EPeersAddPeer chanPeers peer]
        | PeerObj peer => seg = [EPeersAddPeer chanPeers peer]
        end) l segs.
Proof.
  induction l as [|a l IH]; intros t t' H; simpl in H.
  - injection H as <-. exists []. simpl. rewrite app_nil_r. split; [done | constructor].
  - apply bind_Ok in H as ([] & u & H1 & H2).
    destruct (attachPeer_trace _ _ _ _ _ H1) as (seg & Hseg & Ha).
    destruct (IH _ _ H2) as (segs & Hsegs & Hall).
    exists (seg :: segs). split; [|constructor; assumption].
    rewrite Hsegs, Hseg. simpl. rewrite <- app_assoc. reflexivity.
Qed.

(** What a successful [makeSubChannel] does to the outside: the pool of the
    new channel is made, then the peers are attached in the order of
    [options.peers]. *)
Lemma makeSubChannel_trace (self : loc) (opts : Options)
    (s s' : State) (c : loc) :
  makeSubChannel self opts s = Ok c s' →
  ∃ top tr segs,
    chans s !! self = Some top ∧
    trace s' = trace s ++ ENewPeers (S c) c :: tr ++ concat segs ∧
    (tr = [] ∨ tr = [ENewTracer c]) ∧
    Forall2 (λ a seg,
      match a with
      | PeerStr hp =>
          ∃ peer, seg = [EPeersAdd (peers top) hp peer; EPeersAddPeer (S c) peer]
      | PeerObj peer => seg = [EPeersAddPeer (S c) peer]
      end) (default [] (o_peers opts)) segs.
Proof.
  intros H. unfold makeSubChannel in H.
  apply bind_Ok in H as (ch & s1 & H1 & H). apply chan_Ok in H1 as [Hch ->].
  apply bind_Ok in H as (u & s1 & H1 & H). apply assert_Ok in H1 as [Hsn ->].
  apply bind_Ok in H as (u' & s1 & H1 & H). apply assert_Ok in H1 as [Hon ->].
  apply bind_Ok in H as (subs & s1 & H1 & H).
  destruct (subChannels ch) as [subs'|] eqn:Hsubs; [|discriminate].
  injection H1 as <- <-.
  apply bind_Ok in H as (u'' & s1 & H1 & H). apply assert_Ok in H1 as [Hdup ->].
  match type of H with (TChannel ?m ≫= _) _ = _ =>
    destruct (TChannel_Ok m s) as
      (t1 & new0 & HT & Hc1 & _ & _ & _ & _ & _ & _ & _ & (tr & Htr & Htr') & _ & _ &
       Hpeers0 & _)
  end.
  rewrite (bind_eq _ _ _ _ _ HT) in H.
  rewrite (bind_eq _ _ _ _ _ (update_eq _ _ _)) in H.
  set (f := with_topChannel (Some self)) in *.
  assert (Hnew : chans (set_chans (alter f (nextLoc s)) t1) !! nextLoc s = Some (f new0)).
  { simpl. rewrite Hc1, lookup_alter_eq, lookup_insert_eq. reflexivity. }
  rewrite (bind_eq _ _ _ _ _ (chan_eq _ _ _ Hnew)) in H.
  apply bind_Ok in H as ([] & t3 & Hloop & H).
  destruct (attachLoop_trace _ _ _ _ _ Hloop) as (segs & Hsegs & Hall).
  change (peers (f new0)) with (peers new0) in Hall. rewrite Hpeers0 in Hall.
  simpl in Hsegs.
  assert (Hend : trace s' = trace t3 ∧ c = nextLoc s).
  { rewrite (bind_eq _ _ _ _ _ (update_eq _ _ _)) in H.
    apply bind_Ok in H as (top & t4 & H1 & H). apply chan_Ok in H1 as [_ ->].
    destruct (truthy (hostPort top)).
    - rewrite (bind_eq _ _ _ _ _ (update_eq _ _ _)) in H. injection H as <- <-. done.
    - rewrite bind_ret in H. injection H as <- <-. done. }
  destruct Hend as [Hend ->].
  exists ch, tr, segs. split; [exact Hch|]. split; [|split; [exact Htr' | exact Hall]].
  rewrite Hend, Hsegs, Htr. rewrite <- !app_assoc. reflexivity.
Qed.

(** C2 (as the code has it): a sub-channel made by [makeSubChannel] has a
    pool object of its own: a pool that was not in the store before, made
    for the sub-channel by its own constructor call, and different from the
    pool object of its top channel, whose [peers] attribute stays what it
    was. The two pools are connected through the peers only: for every
    address string of [options.peers], in their order, the top channel's
    pool is asked for the peer of that address ([add]) and the peer it
    returns is handed to the sub-channel's pool ([addPeer]); a peer object
    is handed to the sub-channel's pool as it is. *)
Theorem makeSubChannel_own_pool (self : loc) (opts : Options) (s s' : State)
    (c : loc) :
  fresh s →
  makeSubChannel self opts s = Ok c s' →
  ∃ top0 top new pool tr segs,
    chans s !! self = Some top0 ∧
    chans s' !! self = Some top ∧ chans s' !! c = Some new ∧
    peers top = peers top0 ∧
    peers new ≠ peers top ∧
    pools s !! peers new = None ∧
    pools s' !! peers new = Some pool ∧ pool_channel pool = c ∧
    ¬ sharesPool s' self c ∧
    trace s' = trace s ++ ENewPeers (peers new) c :: tr ++ concat segs ∧
    (tr = [] ∨ tr = [ENewTracer c]) ∧
    Forall2 (λ a seg,
      match a with
      | PeerStr hp =>
          ∃ peer, seg = [EPeersAdd (peers top) hp peer;
                         EPeersAddPeer (peers new) peer]
      | PeerObj peer => seg = [EPeersAddPeer (peers new) peer]
      end) (default [] (o_peers opts)) segs.
Proof.
  intros (Hc & Hpl & _) H.
  assert (Hlt : map_Forall (λ c _, c < nextLoc s) (chans s)).
  { intros i x Hi. apply (Hc i x Hi). }
  destruct (makeSubChannel_trace _ _ _ _ _ H) as (ch' & tr & segs & Hch' & Htr & Htr' & Hall).
  destruct (makeSubChannel_Ok _ _ _ _ _ Hlt H) as
    (ch & subs & new & Hch & _ & _ & _ & _ & -> & Hchans & _ & _ & _ & Hp & _ & _ &
     _ & _ & _ & (pool & Hpool & Hpc) & _).
  rewrite Hch in Hch'. injection Hch' as <-.
  destruct (Hc _ _ Hch) as [Hself Hpeers].
  assert (H1 : chans s' !! self =
               Some (with_subChannels (Some (<[o_serviceName opts := nextLoc s]> subs)) ch)).
  { rewrite Hchans, lookup_insert_ne, lookup_insert_eq by lia. reflexivity. }
  assert (H2 : chans s' !! nextLoc s = Some new).
  { rewrite Hchans, lookup_insert_eq. reflexivity. }
  assert (Hnone : pools s !! S (nextLoc s) = None).
  { destruct (pools s !! S (nextLoc s)) eqn:E; [|reflexivity].
    apply Hpl in E. lia. }
  exists ch, (with_subChannels (Some (<[o_serviceName opts := nextLoc s]> subs)) ch),
    new, pool, tr, segs.
  rewrite Hp. simpl. split_and!; try done; try lia.
  intros (cht & chc & E1 & E2 & E3). rewrite H1 in E1. rewrite H2 in E2.
  injection E1 as <-. injection E2 as <-. simpl in E3. lia.
Qed.

(** ** The listening event *)

Lemma inherit_idemp (hp : value) (c : TChannelObj) :
  inherit hp (inherit hp c) = inherit hp c.
Proof.
  unfold inherit. destruct (truthy (hostPort c)) eqn:E; [rewrite E; done|].
  simpl. destruct (truthy hp); reflexivity.
Qed.

Lemma inherit_same (hp : value) (c : TChannelObj) :
  hostPort c = hp → inherit hp c = c.
Proof.
  intros <-. unfold inherit. destruct (truthy (hostPort c)); [done|].
  destruct c; reflexivity.
Qed.

Lemma propagate_lookup (hp : value) (l : list (string * loc))
    (m : gmap loc TChannelObj) (c : loc) :
  propagate hp l m !! c =
    (if bool_decide (c ∈ l.*2) then inherit hp else id) <$> m !! c.
Proof.
  revert m. induction l as [|[n x] l IH]; intros m.
  - simpl. destruct (m !! c); reflexivity.
  - change (propagate hp ((n, x) :: l) m)
      with (propagate hp l (alter (inherit hp) x m)).
    rewrite IH, lookup_alter, fmap_cons. simpl.
    destruct (decide (x = c)) as [->|Hne]; destruct (m !! c) as [y|]; simpl;
      repeat case_bool_decide; simpl; rewrite ?inherit_idemp;
      try reflexivity; set_solver.
Qed.

Lemma set_chans_id (s : State) : set_chans (λ m, m) s = s.
Proof. destruct s; reflexivity. Qed.

Lemma propagate_loop (self : loc) (hp : value) (l : list (string * loc)) :
  ∀ (t : State) (top : TChannelObj),
    chans t !! self = Some top → hostPort top = hp →
    (∀ x, x ∈ l → is_Some (chans t !! x.2)) →
    forEach l (λ '(_, sub),
        c ← chan sub;
        if truthy (hostPort c) then mret ()
        else top ← chan self; update sub (with_hostPort (hostPort top))) t
    = Ok () (set_chans (propagate hp l) t).
Proof.
  induction l as [|[n sub] l IH]; intros t top Htop Hhp Hl.
  - simpl. unfold propagate. simpl. rewrite set_chans_id. reflexivity.
  - simpl. destruct (Hl (n, sub)) as [c Hc]; [left|]. simpl in Hc.
    rewrite bind_bind, (bind_eq _ _ _ _ _ (chan_eq _ _ _ Hc)).
    destruct (truthy (hostPort c)) eqn:E.
    + rewrite (bind_eq _ _ _ _ _ eq_refl). erewrite IH; try eassumption.
      * unfold propagate. simpl. f_equal. unfold set_chans. f_equal.
        f_equal. symmetry. apply alter_id. intros y Hy.
        rewrite Hc in Hy. injection Hy as <-. unfold inherit. rewrite E. done.
      * intros x Hx. apply Hl. by right.
    + rewrite bind_bind, (bind_eq _ _ _ _ _ (chan_eq _ _ _ Htop)).
      rewrite (bind_eq _ _ _ _ _ (update_eq _ _ _)).
      assert (Ha : alter (with_hostPort (hostPort top)) sub (chans t)
                   = alter (inherit hp) sub (chans t)).
      { apply alter_ext. intros y Hy. rewrite Hc in Hy. injection Hy as <-.
        unfold inherit. rewrite E, Hhp. done. }
      destruct (decide (sub = self)) as [->|Hne].
      * erewrite (IH _ (with_hostPort hp top)).
        -- unfold propagate, set_chans. simpl. rewrite Ha. reflexivity.
        -- simpl. rewrite lookup_alter_eq, Htop, Hhp. reflexivity.
        -- reflexivity.
        -- intros x Hx. simpl. rewrite lookup_alter_is_Some. apply Hl. by right.
      * erewrite (IH _ top).
        -- unfold propagate, set_chans. simpl. rewrite Ha. reflexivity.
        -- simpl. rewrite lookup_alter_ne by done. exact Htop.
        -- exact Hhp.
        -- intros x Hx. simpl. rewrite lookup_alter_is_Some. apply Hl. by right.
Qed.

Lemma hierarchy_sub (s : State) (c : loc) (ch : TChannelObj)
    (subs : gmap string loc) (name : string) (sub : loc) :
  hierarchy s → chans s !! c = Some ch → subChannels ch = Some subs →
  subs !! name = Some sub →
  ∃ sc, chans s !! sub = Some sc ∧ subChannels sc = None ∧ sub ≠ c.
Proof.
  intros Hh Hc Hs Hn. destruct (Hh c ch Hc) as (_ & Hsubs & _).
  rewrite Hs in Hsubs. simpl in Hsubs. specialize (Hsubs name sub Hn).
  unfold isSubChannel in Hsubs. destruct (chans s !! sub) as [sc|] eqn:E; [|done].
  exists sc. split_and!; try done. intros ->. congruence.
Qed.


(** ** Inbound connections *)

Lemma tableKeyed_accept (s s' : State) (table : gmap string loc)
    (remoteAddr : string) (cn : Connection) :
  tableKeyed s table →
  nextLoc s' = S (nextLoc s) →
  conns s' = <[nextLoc s := cn]> (conns s) →
  conn_remoteAddr cn = remoteAddr →
  tableKeyed s' (<[remoteAddr := nextLoc s]> (delete remoteAddr table)).
Proof.
  intros Hk Hn Hc Hra. apply map_Forall_insert_2.
  - unfold tracks. rewrite Hn, Hc, lookup_insert_eq. simpl. rewrite Hra.
    split; [lia | reflexivity].
  - apply map_Forall_delete. intros a c Hac. destruct (Hk a c Hac) as [Hlt Hcn].
    unfold tracks. rewrite Hn, Hc, lookup_insert_ne by lia. split; [lia | exact Hcn].
Qed.

Lemma tableKeyed_functional (s : State) (table : gmap string loc)
    (a1 a2 : string) (c1 c2 : loc) :
  tableKeyed s table →
  table !! a1 = Some c1 → table !! a2 = Some c2 →
  conn_remoteAddr <$> conns s !! c1 = conn_remoteAddr <$> conns s !! c2 →
  c1 = c2.
Proof.
  intros Hk H1 H2 E. destruct (Hk _ _ H1) as [_ E1]. destruct (Hk _ _ H2) as [_ E2].
  rewrite E1, E2 in E. injection E as ->. congruence.
Qed.

(** C5: on a channel that is not destroyed, a socket accepted from a remote
    address that is already in the inbound table makes the old connection
    receive [resetAll] with [SocketClosedError], reason "duplicate remoteAddr
    incoming conn", and leave the table before the new connection is put in,
    in that order; afterwards the table holds the new connection under that
    address, the old one nowhere, as many entries as before and at most one
    connection per remote address. On a destroyed channel the socket is only
    logged: no connection object is made. *)
Theorem accept_duplicate_remoteAddr (self : loc) (sock : Socket) (s : State)
    (ch : TChannelObj) :
  chans s !! self = Some ch →
  let remoteAddr := remoteAddress sock +:+ ":" +:+ pretty (remotePort sock) in
  let conn := nextLoc s in
  (destroyed ch = false →
   ∀ table oldConn,
     serverConnections ch = Some table →
     table !! remoteAddr = Some oldConn →
     tableKeyed s table →
     ∃ s' ch' table',
       onServerSocketConnection self sock s = Ok () s' ∧
       trace s' = trace s ++
         [ENewConnection conn self sock "in" remoteAddr;
          EConnOn conn "span";
          EConnResetAll oldConn
            (SocketClosedError "duplicate remoteAddr incoming conn");
          ETableDelete self remoteAddr;
          ESocketOn (sock_id sock) "close";
          ETableSet self remoteAddr conn;
          EEmit self (EvConnection conn)] ∧
       chans s' !! self = Some ch' ∧
       serverConnections ch' = Some table' ∧
       table' = <[remoteAddr := conn]> (delete remoteAddr table) ∧
       table' !! remoteAddr = Some conn ∧
       conn ≠ oldConn ∧
       (∀ a, table' !! a ≠ Some oldConn) ∧
       size table' = size table ∧
       tableKeyed s' table' ∧
       (∀ a1 a2 c1 c2,
          table' !! a1 = Some c1 → table' !! a2 = Some c2 →
          conn_remoteAddr <$> conns s' !! c1 = conn_remoteAddr <$> conns s' !! c2 →
          c1 = c2)) ∧
  (destroyed ch = true →
     onServerSocketConnection self sock s =
       Ok () (logged (ELoggerError "got incoming socket whilst destroyed") s)).
Proof.
  intros Hch remoteAddr conn. split.
  - intros Hd table oldConn Htable Hold Hkeyed.
    unfold onServerSocketConnection. run_monad. rewrite Hch. simpl.
    rewrite Hd, Htable. simpl. fold remoteAddr. rewrite Hold. simpl.
    destruct (Hkeyed _ _ Hold) as [Holdlt Holdra].
    eexists _,
      (with_serverConnections (Some (<[remoteAddr := conn]> (delete remoteAddr table)))
         (with_serverConnections (Some (delete remoteAddr table)) ch)),
      (<[remoteAddr := conn]> (delete remoteAddr table)).
    split; [reflexivity|].
    match goal with |- trace ?t = _ ∧ _ =>
      assert (Hk' : tableKeyed t (<[remoteAddr := conn]> (delete remoteAddr table)))
        by (eapply tableKeyed_accept; [exact Hkeyed|reflexivity|reflexivity|reflexivity])
    end.
    split_and!.
    + simpl. rewrite <- !app_assoc. reflexivity.
    + simpl. rewrite !lookup_alter_eq, Hch. simpl. rewrite Htable. reflexivity.
    + reflexivity.
    + reflexivity.
    + apply lookup_insert_eq.
    + unfold conn. lia.
    + intros a Ha. destruct (Hk' _ _ Ha) as [_ E].
      simpl in E. rewrite lookup_insert_ne in E by (unfold conn in *; lia).
      rewrite Holdra in E. injection E as <-.
      rewrite lookup_insert_eq in Ha. injection Ha as E'. unfold conn in E'. lia.
    + rewrite map_size_insert_None by apply lookup_delete_eq.
      rewrite (map_size_delete_Some remoteAddr table) by eauto. destruct (size table) eqn:E; [|reflexivity].
      apply map_size_empty_inv in E. subst table. rewrite lookup_empty in Hold. done.
    + exact Hk'.
    + intros a1 a2 c1 c2 H1 H2 E. eapply tableKeyed_functional; eassumption.
  - intros Hd. unfold onServerSocketConnection. run_monad. rewrite Hch. simpl.
    rewrite Hd. reflexivity.
Qed.


Lemma filter_none (sock : nat) (l : list (nat * (loc * string))) :
  (∀ x, x ∈ l → x.1 ≠ sock) → filter (λ x, x.1 = sock) l = [].
Proof.
  induction l as [|x l IH]; intros H; [reflexivity|].
  rewrite filter_cons_False by (apply H; left).
  apply IH. intros y Hy. apply H. by right.
Qed.

(** An accepted socket on a channel that is not destroyed, whether or not
    its remote address was in the table. *)
Lemma accept_Ok (self : loc) (sock : Socket) (s : State) (ch : TChannelObj)
    (table : gmap string loc) :
  chans s !! self = Some ch → destroyed ch = false →
  serverConnections ch = Some table →
  let remoteAddr := remoteAddress sock +:+ ":" +:+ pretty (remotePort sock) in
  ∃ s' ch',
    onServerSocketConnection self sock s = Ok () s' ∧
    chans s' !! self = Some ch' ∧ destroyed ch' = false ∧
    serverConnections ch' = Some (<[remoteAddr := nextLoc s]> table) ∧
    socketClose s' = socketClose s ++ [(sock_id sock, (self, remoteAddr))] ∧
    nextLoc s' = S (nextLoc s) ∧
    conns s' = <[nextLoc s := mkConnection self sock "in" remoteAddr]> (conns s).
Proof.
  intros Hch Hd Htable remoteAddr.
  unfold onServerSocketConnection. run_monad. rewrite Hch. simpl.
  rewrite Hd, Htable. simpl. fold remoteAddr.
  destruct (table !! remoteAddr) as [old|] eqn:Hold; simpl;
    eexists _, _; (split; [reflexivity|]); simpl;
    rewrite !lookup_alter_eq, Hch; simpl; rewrite Htable; simpl;
    split_and!; try done.
  rewrite insert_delete_eq. reflexivity.
Qed.

(** C10: the [close] handler put on an accepted socket deletes the table
    entry of that socket's remote address whatever connection is stored
    there. So when a second socket from the same remote address has taken
    the place of a first one, the close of the first socket removes the
    second, newer connection from the table, although that connection's own
    socket is still open. *)
Theorem superseded_socket_close_removes_newer (self : loc)
    (sock1 sock2 : Socket) (s : State) (ch : TChannelObj)
    (table : gmap string loc) :
  chans s !! self = Some ch → destroyed ch = false →
  serverConnections ch = Some table →
  remoteAddress sock1 = remoteAddress sock2 →
  remotePort sock1 = remotePort sock2 →
  sock_id sock1 ≠ sock_id sock2 →
  (∀ x, x ∈ socketClose s → x.1 ≠ sock_id sock1) →
  let remoteAddr := remoteAddress sock1 +:+ ":" +:+ pretty (remotePort sock1) in
  let newer := S (nextLoc s) in
  (∀ addr, ∃ s',
     onSocketClose self addr s = Ok () s' ∧
     (serverConnections <$> chans s' !! self) = Some (Some (delete addr table))) ∧
  ∃ s2 s3 ch2 ch3 t2 t3,
    (onServerSocketConnection self sock1 ;;
     onServerSocketConnection self sock2) s = Ok () s2 ∧
    chans s2 !! self = Some ch2 ∧ serverConnections ch2 = Some t2 ∧
    t2 !! remoteAddr = Some newer ∧
    conn_socket <$> conns s2 !! newer = Some sock2 ∧
    socketClosed (sock_id sock1) s2 = Ok () s3 ∧
    chans s3 !! self = Some ch3 ∧ serverConnections ch3 = Some t3 ∧
    t3 !! remoteAddr = None ∧
    conn_socket <$> conns s3 !! newer = Some sock2.
Proof.
  intros Hch Hd Htable Hra Hrp Hid Hfresh remoteAddr newer. split.
  { intros addr. unfold onSocketClose. run_monad. rewrite Hch. simpl. rewrite Htable.
    eexists. split; [reflexivity|]. simpl. rewrite lookup_alter_eq, Hch. simpl.
    rewrite Htable. reflexivity. }
  destruct (accept_Ok self sock1 s ch table Hch Hd Htable)
    as (s1 & ch1 & E1 & Hch1 & Hd1 & Ht1 & Hsc1 & Hn1 & Hcn1).
  destruct (accept_Ok self sock2 s1 ch1 _ Hch1 Hd1 Ht1)
    as (s2 & ch2 & E2 & Hch2 & Hd2 & Ht2 & Hsc2 & Hn2 & Hcn2).
  rewrite <- Hra, <- Hrp in Ht2, Hsc2, Hcn2. fold remoteAddr in Ht1, Hsc1, Hcn1, Ht2, Hsc2, Hcn2.
  rewrite Hn1 in Ht2, Hcn2. fold newer in Ht2, Hcn2.
  assert (Hfilter : filter (λ x, x.1 = sock_id sock1) (socketClose s2)
                    = [(sock_id sock1, (self, remoteAddr))]).
  { rewrite Hsc2, Hsc1, !filter_app.
    rewrite (filter_none _ (socketClose s)) by exact Hfresh.
    rewrite !filter_cons, filter_nil. simpl.
    rewrite decide_True by done. rewrite decide_False by (simpl; congruence).
    reflexivity. }
  eexists s2, _, ch2, _, _, _.
  split_and!.
  - rewrite (bind_eq _ _ _ _ _ E1). exact E2.
  - exact Hch2.
  - exact Ht2.
  - apply lookup_insert_eq.
  - rewrite Hcn2, lookup_insert_eq. reflexivity.
  - unfold socketClosed. unfold mbind at 1, M_bind at 1, gets. rewrite Hfilter.
    simpl. unfold onSocketClose. run_monad. rewrite Hch2. simpl. rewrite Ht2. reflexivity.
  - simpl. rewrite lookup_alter_eq, Hch2. reflexivity.
  - simpl. rewrite Ht2. reflexivity.
  - apply lookup_delete_eq.
  - simpl. rewrite Hcn2, lookup_insert_eq. reflexivity.
Qed.

(** ** Routing of requests *)

Lemma request_emits_last (fuel : nat) :
  ∀ (self : loc) (opt : gmap string value) (s s' : State) (req : Request),
    request fuel self opt s = Ok req s' →
    ∃ c, last (trace s') = Some (EEmit c (EvRequest req)).
Proof.
  induction fuel as [|fuel IH]; intros self opt s s' req H; [discriminate|].
  simpl in H.
  apply bind_Ok in H as (ch & s1 & H1 & H). apply chan_Ok in H1 as [Hch ->].
  apply bind_Ok in H as (u & s1 & H1 & H). apply assert_Ok in H1 as [Hd ->].
  match type of H with (if ?b then _ else _) _ = _ => destruct b end.
  - destruct (if truthy (prop (requestOptions ch opt) "service") then _ else _)
      as [[sub|]|]; [|unfold throw in H; discriminate..].
    eapply IH. exact H.
  - exists self.
    destruct (truthy (prop (requestOptions ch opt) "host") ||
              truthy (prop (requestOptions ch opt) "streamed"));
      unfold mbind, M_bind, mret, M_ret, effect in H; simpl in H;
      injection H as <- <-; simpl; rewrite last_snoc; reflexivity.
Qed.

(** The options that [request] works on: a key has the caller's value when
    the caller gave one and the channel's default otherwise, and [service]
    is [serviceName] when [service] is falsy and [serviceName] is truthy. *)
Lemma requestOptions_lookup (ch : TChannelObj) (opt : gmap string value) :
  let merged k :=
    match opt !! k with
    | Some v => Some v
    | None => requestDefaults ch !! k
    end in
  (∀ k, k ≠ "service" → requestOptions ch opt !! k = merged k) ∧
  requestOptions ch opt !! "service" =
    if negb (truthy (default VUndefined (merged "service"))) &&
       truthy (default VUndefined (merged "serviceName"))
    then merged "serviceName" else merged "service".
Proof.
  intros merged.
  assert (Hm : ∀ k, (opt ∪ requestDefaults ch) !! k = merged k).
  { intros k. unfold merged. rewrite lookup_union.
    destruct (opt !! k), (requestDefaults ch !! k); reflexivity. }
  unfold requestOptions, prop. rewrite !Hm. split.
  - intros k Hk. destruct (_ && _); [rewrite lookup_insert_ne by done|]; apply Hm.
  - destruct (negb _ && _) eqn:Hb; [|apply Hm].
    rewrite lookup_insert_eq. apply andb_true_iff in Hb as [_ Hb].
    destruct (merged "serviceName"); [reflexivity | discriminate].
Qed.

(** C4 (as the code has it): on a channel that is not destroyed, [request]
    works on the channel's request defaults overlaid by the caller's options
    (the caller's value wins, and [service] is taken from [serviceName] when
    only the latter is truthy) and follows the routing of the specification
    on these: a top channel without explicit host re-enters [request], with
    these options, on the sub-channel registered under [service], and throws
    [TopLevelRequestError] when [service] is falsy or names neither a
    registered sub-channel nor a member of [Object.prototype] (for such a
    member the registry gives something that is no channel, and calling its
    [request] is a [TypeError]); otherwise an explicit host or a streamed
    transfer makes the request through the Peer Pool's [request]; otherwise a
    single-shot request bound to this channel is made; a pinned host never
    yields a single-shot request; whenever a request is returned, the last
    thing done before is the emission of [request] carrying it; and in a
    one-level hierarchy the re-entry ends after one step. *)
Theorem request_routing (fuel : nat) (self : loc) (opt : gmap string value)
    (s : State) (ch : TChannelObj) :
  chans s !! self = Some ch → destroyed ch = false →
  let opts := requestOptions ch opt in
  let merged k :=
    match opt !! k with
    | Some v => Some v
    | None => requestDefaults ch !! k
    end in
  (∀ k, k ≠ "service" → opts !! k = merged k) ∧
  opts !! "service" =
    (if negb (truthy (default VUndefined (merged "service"))) &&
        truthy (default VUndefined (merged "serviceName"))
     then merged "serviceName" else merged "service") ∧
  request (S fuel) self opt s =
    match route_spec ch opts with
    | ReEnter sub => request fuel sub opts s
    | FailTopLevelRequest => Throw TopLevelRequestError s
    | NotAChannel => Throw TypeError s
    | ViaPeerPool =>
        Ok (PoolRequest (peers ch) opts)
           (logged (EEmit self (EvRequest (PoolRequest (peers ch) opts)))
              (logged (EPeersRequest (peers ch) opts) s))
    | SingleShot =>
        Ok (TChannelRequest self opts)
           (logged (EEmit self (EvRequest (TChannelRequest self opts)))
              (logged (ENewRequest self opts) s))
    end ∧
  (truthy (prop opts "host") = true →
     request (S fuel) self opt s =
       Ok (PoolRequest (peers ch) opts)
          (logged (EEmit self (EvRequest (PoolRequest (peers ch) opts)))
             (logged (EPeersRequest (peers ch) opts) s))) ∧
  (∀ n req s', request n self opt s = Ok req s' →
     ∃ c, last (trace s') = Some (EEmit c (EvRequest req))) ∧
  (hierarchy s → request 2 self opt s ≠ OutOfFuel).
Proof.
  intros Hch Hd opts merged.
  assert (Hname : negb (negb (String.eqb (serviceName ch) ""))
                  = bool_decide (serviceName ch = "")).
  { rewrite negb_involutive. destruct (String.eqb_spec (serviceName ch) "");
      [rewrite bool_decide_eq_true_2 | rewrite bool_decide_eq_false_2]; done. }
  assert (Hmain : ∀ fuel, request (S fuel) self opt s =
    match route_spec ch opts with
    | ReEnter sub => request fuel sub opts s
    | FailTopLevelRequest => Throw TopLevelRequestError s
    | NotAChannel => Throw TypeError s
    | ViaPeerPool =>
        Ok (PoolRequest (peers ch) opts)
           (logged (EEmit self (EvRequest (PoolRequest (peers ch) opts)))
              (logged (EPeersRequest (peers ch) opts) s))
    | SingleShot =>
        Ok (TChannelRequest self opts)
           (logged (EEmit self (EvRequest (TChannelRequest self opts)))
              (logged (ENewRequest self opts) s))
    end).
  { intros n. simpl. rewrite (bind_eq _ _ _ _ _ (chan_eq _ _ _ Hch)). rewrite Hd. simpl.
    rewrite (bind_eq _ _ _ _ _ eq_refl). fold opts. unfold route_spec.
    rewrite Hname.
    destruct (bool_decide (serviceName ch = "") && negb (truthy (prop opts "host"))).
    - destruct (subChannels ch) as [registry|];
        destruct (truthy (prop opts "service")); simpl; try reflexivity.
      unfold read, inherited.
      destruct (registry !! toStr (prop opts "service")); [reflexivity|].
      destruct (bool_decide (toStr (prop opts "service") ∈ objectPrototype));
        reflexivity.
    - destruct (truthy (prop opts "host") || truthy (prop opts "streamed"));
        reflexivity. }
  destruct (requestOptions_lookup ch opt) as [Hk Hservice].
  split_and!.
  - exact Hk.
  - exact Hservice.
  - apply Hmain.
  - intros Hhost. rewrite Hmain. unfold route_spec. rewrite Hhost.
    rewrite andb_false_r. reflexivity.
  - intros n req s' H. eapply request_emits_last. exact H.
  - intros Hh. rewrite (Hmain 1).
    destruct (route_spec ch opts) as [sub| | | |] eqn:Hr; try discriminate.
    unfold route_spec in Hr.
    destruct (bool_decide (serviceName ch = "") && negb (truthy (prop opts "host")));
      [|destruct (_ || _); discriminate].
    destruct (subChannels ch) as [subs|] eqn:Hsubs; [|discriminate].
    destruct (negb (truthy (prop opts "service"))); [discriminate|].
    destruct (subs !! toStr (prop opts "service")) eqn:Hsub;
      [|destruct (bool_decide (toStr (prop opts "service") ∈ objectPrototype));
        discriminate].
    injection Hr as ->.
    destruct (hierarchy_sub _ _ _ _ _ _ Hh Hch Hsubs Hsub) as (sc & Hsc & Hnone & _).
    destruct (Hh _ _ Hsc) as (Hiff & _). apply Hiff in Hnone.
    simpl. rewrite (bind_eq _ _ _ _ _ (chan_eq _ _ _ Hsc)).
    destruct (destroyed sc); simpl; [discriminate|].
    rewrite (bind_eq _ _ _ _ _ eq_refl).
    apply String.eqb_neq in Hnone. rewrite Hnone. simpl.
    destruct (_ || _); discriminate.
Qed.

(** ** listen *)

Lemma hasListened_update (c x : loc) (f : TChannelObj → TChannelObj) (s : State) :
  (∀ ch, listened ch = true → listened (f ch) = true) →
  hasListened c s → hasListened c (set_chans (alter f x) s).
Proof.
  intros Hf (Hlt & ch & Hch & Hl). split; [exact Hlt|]. simpl.
  destruct (decide (x = c)) as [->|Hne].
  - exists (f ch). rewrite lookup_alter_eq, Hch. split; [reflexivity | auto].
  - exists ch. rewrite lookup_alter_ne by done. done.
Qed.

Lemma hasListened_TChannel (c : loc) (opts : Options) :
  preserves (hasListened c) (TChannel opts).
Proof.
  intros s (Hlt & ch & Hch & Hl).
  destruct (TChannel_Ok opts s) as (s' & new & -> & Hc & _ & _ & _ & Hn & _).
  split; [lia|]. exists ch. rewrite Hc, lookup_insert_ne by lia. done.
Qed.

Ltac hasListened_prim :=
  first
    [ apply hasListened_TChannel
    | preserves_prim;
      first
        [ assumption
        | apply hasListened_update; [intros []; simpl; auto | assumption]
        | match goal with H : hasListened _ _ |- _ =>
            destruct H as (? & ? & ? & ?); split; simpl; [lia | eauto] end ] ].

Lemma hasListened_request (c : loc) (fuel : nat) :
  ∀ self opt, preserves (hasListened c) (request fuel self opt).
Proof.
  induction fuel as [|fuel IH]; intros self opt; [intros s _; exact I|].
  simpl. repeat first [preserves_step | apply IH | hasListened_prim].
Qed.

Lemma hasListened_close (c : loc) (fuel : nat) :
  ∀ self cb, preserves (hasListened c) (close fuel self cb).
Proof.
  induction fuel as [|fuel IH]; intros self cb; [intros s _; exact I|].
  simpl. unfold newCounter, incr, closeServerSocket, server_close, await.
  repeat first [preserves_step | apply IH | hasListened_prim].
Qed.

Lemma hasListened_onClose (c : loc) (fuel : nat) :
  ∀ k, preserves (hasListened c) (onClose fuel k).
Proof.
  induction fuel as [|fuel IH]; intros k; [intros s _; exact I|].
  simpl. unfold closeEnv.
  repeat first [preserves_step | apply IH | hasListened_prim].
Qed.

Lemma hasListened_perform (c : loc) (a : Action) :
  preserves (hasListened c) (perform a).
Proof.
  destruct a; unfold perform, void.
  - repeat first [preserves_step | hasListened_prim].
  - unfold makeSubChannel, attachPeer, peers_add, peers_addPeer, getPool.
    repeat first [preserves_step | hasListened_prim].
  - unfold listen, getServer, server_listen.
    repeat first [preserves_step | hasListened_prim].
  - unfold register. repeat first [preserves_step | hasListened_prim].
  - apply preserves_bind; [apply hasListened_request | intros ?; apply preserves_ret].
  - apply hasListened_close.
  - unfold serverListening, onServerSocketListening, resumeCloses, server_close.
    repeat first [preserves_step | hasListened_prim].
  - unfold onServerSocketConnection.
    repeat first [preserves_step | hasListened_prim].
  - unfold socketClosed, onSocketClose.
    repeat first [preserves_step | hasListened_prim].
  - unfold completes.
    repeat first [preserves_step | apply hasListened_onClose | hasListened_prim].
Qed.

Lemma hasListened_run (c : loc) (l : list Action) :
  ∀ s s', hasListened c s → run l s = Some s' → hasListened c s'.
Proof.
  induction l as [|a l IH]; intros s s' H E; simpl in E.
  - injection E as <-. exact H.
  - destruct (after (perform a s)) as [s1|] eqn:E1; [|discriminate].
    simpl in E. eapply IH; [|exact E].
    eapply preserves_after; [apply hasListened_perform | exact H | exact E1].
Qed.

Lemma listen_again (self : loc) (port hst : value) (cb : option nat) (s : State) :
  hasListened self s →
  listen self port hst cb s =
    Throw (AssertionError "TChannel can only listen once") s.
Proof.
  intros (_ & ch & Hch & Hl). unfold listen.
  rewrite (bind_eq _ _ _ _ _ (chan_eq _ _ _ Hch)), Hl. reflexivity.
Qed.

(** C8: [listen] throws at once, leaving the store as it was, when the
    channel has already listened, when [host] is not a string, when [port]
    is not a number, or when [host] is '0.0.0.0'. Otherwise it sets
    [listened] before it returns, while the bind is still to complete
    ([listening] is not touched), and from then on every further [listen]
    on that channel throws, whatever calls and events come in between. *)
Theorem listen_fails_fast (self : loc) (port hst : value) (cb : option nat)
    (s : State) (ch : TChannelObj) :
  chans s !! self = Some ch →
  (listened ch = true ∨ typeof hst ≠ "string" ∨ typeof port ≠ "number" ∨
   hst = VStr "0.0.0.0" →
     ∃ msg, listen self port hst cb s = Throw (AssertionError msg) s) ∧
  (listened ch = true →
     listen self port hst cb s =
       Throw (AssertionError "TChannel can only listen once") s) ∧
  (listened ch = false → typeof hst = "string" → typeof port = "number" →
   hst ≠ VStr "0.0.0.0" → self < nextLoc s →
     ∃ s1 ch1,
       listen self port hst cb s = Ok () s1 ∧
       chans s1 !! self = Some ch1 ∧
       listened ch1 = true ∧ listening ch1 = listening ch ∧
       host ch1 = hst ∧ requestedPort ch1 = port ∧
       ∀ l s2 port' hst' cb',
         run l s1 = Some s2 →
         listen self port' hst' cb' s2 =
           Throw (AssertionError "TChannel can only listen once") s2).
Proof.
  intros Hch. split_and!.
  - intros H. unfold listen. rewrite (bind_eq _ _ _ _ _ (chan_eq _ _ _ Hch)).
    destruct (listened ch); [eexists; reflexivity|]. simpl.
    rewrite (bind_eq _ _ _ _ _ eq_refl).
    destruct (String.eqb_spec (typeof hst) "string") as [Eh|Eh];
      [|eexists; reflexivity]. simpl. rewrite (bind_eq _ _ _ _ _ eq_refl).
    destruct (String.eqb_spec (typeof port) "number") as [Ep|Ep];
      [|eexists; reflexivity]. simpl. rewrite (bind_eq _ _ _ _ _ eq_refl).
    destruct H as [H|[H|[H|H]]]; try done.
    rewrite bool_decide_eq_true_2 by done. eexists; reflexivity.
  - intros Hl. unfold listen. rewrite (bind_eq _ _ _ _ _ (chan_eq _ _ _ Hch)), Hl.
    reflexivity.
  - intros Hl Hh Hp Hne Hlt.
    destruct hst as [| | | |h]; try discriminate.
    destruct port as [| | |p|]; try discriminate.
    assert (∃ s1 ch1, listen self (VNum p) (VStr h) cb s = Ok () s1 ∧
              chans s1 !! self = Some ch1 ∧ listened ch1 = true ∧
              listening ch1 = listening ch ∧ host ch1 = VStr h ∧
              requestedPort ch1 = VNum p ∧ nextLoc s1 = nextLoc s)
      as (s1 & ch1 & E & Hch1 & Hl1 & Hg1 & Hh1 & Hp1 & Hn1).
    { unfold listen, getServer, server_listen. run_monad. rewrite Hch. simpl.
      rewrite Hl. simpl. rewrite bool_decide_eq_false_2 by done. simpl.
      rewrite lookup_alter_eq, Hch. simpl.
      destruct (serverSocket ch) as [ss|]; simpl;
        eexists _, _; (split; [reflexivity|]); simpl;
        rewrite !lookup_alter_eq, Hch; simpl; split_and!; reflexivity. }
    exists s1, ch1. split_and!; try done.
    intros l s2 port' hst' cb' Hrun. apply listen_again.
    eapply hasListened_run; [|exact Hrun].
    split; [lia|]. eauto.
Qed.

(** ** Shutdown *)

Lemma State_eq (s1 s2 : State) :
  chans s1 = chans s2 → pools s1 = pools s2 → peerObjs s1 = peerObjs s2 →
  conns s1 = conns s2 → nextLoc s1 = nextLoc s2 →
  closeEnvs s1 = closeEnvs s2 → pending s1 = pending s2 →
  socketClose s1 = socketClose s2 → trace s1 = trace s2 → s1 = s2.
Proof. destruct s1, s2; simpl; intros; subst; reflexivity. Qed.

Lemma incr_eq (k : nat) (s : State) : incr k s = Ok () (incremented k s).
Proof. reflexivity. Qed.

Lemma incremented_last (s : State) (envs : list CloseEnv) (e : CloseEnv) :
  closeEnvs s = envs ++ [e] →
  closeEnvs (incremented (length envs) s)
  = envs ++ [mkCloseEnv (counter e + 1) (callback e) (env_self e)].
Proof.
  intros E. simpl. rewrite E.
  rewrite lookup_app_r, Nat.sub_diag by lia. simpl.
  rewrite insert_app_r_alt, Nat.sub_diag by lia. reflexivity.
Qed.

Lemma connLoop_eq (k : nat) (cb : Callback) (c : loc) (envs : list CloseEnv)
    (l : list (string * loc)) :
  ∀ (s : State) (n : Z),
    k = length envs →
    closeEnvs s = envs ++ [mkCloseEnv n cb c] →
    ∃ s',
      forEach l (λ '(_, incomingConn),
        incr k ;;
        effect (EConnClose incomingConn k) ;;
        await (AwaitClose (RConn incomingConn) k)) s = Ok () s' ∧
      chans s' = chans s ∧ pools s' = pools s ∧ peerObjs s' = peerObjs s ∧
      conns s' = conns s ∧ nextLoc s' = nextLoc s ∧
      closeEnvs s' = envs ++ [mkCloseEnv (n + Z.of_nat (length l)) cb c] ∧
      pending s' = pending s ++ ((λ x, AwaitClose (RConn x) k) <$> l.*2) ∧
      socketClose s' = socketClose s ∧
      trace s' = trace s ++ connTrace k l.*2.
Proof.
  induction l as [|[a x] l IH]; intros s n Hk E.
  - exists s. simpl. rewrite !app_nil_r, Z.add_0_r. split_and!; done.
  - simpl forEach.
    set (s1 := set_pending (λ l, l ++ [AwaitClose (RConn x) k])
                 (logged (EConnClose x k) (incremented k s))).
    assert (E1 : closeEnvs s1 = envs ++ [mkCloseEnv (n + 1) cb c]).
    { unfold s1. subst k. apply (incremented_last s envs _ E). }
    destruct (IH s1 (n + 1)%Z Hk E1)
      as (s' & Hrun & Hc & Hp & Hpo & Hcn & Hn & Hce & Hpe & Hsc & Htr).
    exists s'. split.
    { rewrite <- Hrun. reflexivity. }
    rewrite Hc, Hp, Hpo, Hcn, Hn, Hce, Hpe, Hsc, Htr.
    split_and!; try reflexivity.
    + do 3 f_equal. rewrite length_cons. lia.
    + simpl. rewrite <- app_assoc. reflexivity.
    + unfold s1, connTrace. simpl. rewrite <- !app_assoc. reflexivity.
Qed.

Lemma with_closedServer_unbound (ch : TChannelObj) :
  serverSocket ch ≫= ss_address = None → with_closedServer ch = ch.
Proof.
  unfold with_closedServer, with_serverSocket.
  destruct ch as [? ? ? ? ? ? ? ? ? ? ? ? ? ? [[[?|] ?]|] ?]; simpl;
    intros; try discriminate; reflexivity.
Qed.

Lemma shut_unbound (ch : TChannelObj) :
  serverSocket ch ≫= ss_address = None → shut ch = with_destroyed true ch.
Proof. intros H. unfold shut. apply with_closedServer_unbound. exact H. Qed.

(** [close] on a channel that is not destroyed: the statements before the
    loop over the sub-channels amount to [closeBegin]. *)
Lemma close_begin (fuel : nat) (self : loc) (cb : Callback) (s : State)
    (ch : TChannelObj) :
  chans s !! self = Some ch → destroyed ch = false →
  let k := length (closeEnvs s) in
  close (S fuel) self cb s =
    (match subChannels ch with
     | Some subs =>
         forEach (map_to_list subs) (λ '(_, svcchan),
           sc ← chan svcchan;
           if destroyed sc then mret ()
           else incr k ;; close fuel svcchan (CbOnClose k))
     | None => mret ()
     end ;;
     effect (EPeersClose (peers ch) k) ;;
     await (AwaitClose (RPeers (peers ch)) k)) (closeBegin self ch cb s).
Proof.
  intros Hch Hd k. simpl close.
  rewrite (bind_eq _ _ _ _ _ (chan_eq _ _ _ Hch)). rewrite Hd. simpl negb.
  rewrite bind_assert_true, bind_effect, bind_update.
  unfold newCounter.
  rewrite bind_bind, bind_gets, bind_bind, bind_modify, bind_bind, bind_effect, bind_ret.
  cbn [closeEnvs logged set_chans]. fold k.
  match goal with |- (_ ≫= _) ?t = _ => set (s0 := t) end.
  assert (E0 : closeEnvs s0 = closeEnvs s ++ [mkCloseEnv 1 cb self]) by reflexivity.
  (* the server socket *)
  set (n1 := (1 + Z.of_nat (length (serverPending self (serverSocket ch) k)))%Z).
  assert (∃ s1,
    (match serverSocket ch with
     | Some ss =>
         incr k ;;
         match ss_address ss with
         | Some _ => closeServerSocket self k
         | None => effect (EServerOnce self "listening" k) ;;
                   await (AwaitListening self k)
         end
     | None => mret ()
     end) s0 = Ok () s1 ∧
    chans s1 = alter shut self (chans s) ∧
    pools s1 = pools s0 ∧ peerObjs s1 = peerObjs s0 ∧
    conns s1 = conns s0 ∧ nextLoc s1 = nextLoc s0 ∧
    closeEnvs s1 = closeEnvs s ++ [mkCloseEnv n1 cb self] ∧
    pending s1 = pending s0 ++ serverPending self (serverSocket ch) k ∧
    socketClose s1 = socketClose s0 ∧
    trace s1 = trace s0 ++ serverTrace self (serverSocket ch) k)
    as (s1 & Hrun1 & Hc1 & Hp1 & Hpo1 & Hcn1 & Hn1 & Hce1 & Hpe1 & Hsc1 & Htr1).
  { pose proof (incremented_last s0 _ _ E0) as Hinc. fold k in Hinc.
    assert (Hkeep : serverSocket ch ≫= ss_address = None →
              alter (with_destroyed true) self (chans s) = alter shut self (chans s)).
    { intros Hnone. apply alter_ext. intros x Hx. rewrite Hch in Hx.
      injection Hx as <-. symmetry. apply shut_unbound. exact Hnone. }
    unfold n1. destruct (serverSocket ch) as [ss|] eqn:Hss;
      cbn [serverPending serverTrace].
    - destruct (ss_address ss) eqn:Haddr.
      + exists (set_pending (λ l, l ++ [AwaitClose (RServer self) k])
                  (logged (EServerClose self)
                     (set_chans (alter with_closedServer self)
                        (logged (EServerOnce self "close" k) (incremented k s0))))).
        split; [reflexivity|].
        cbn [chans pools peerObjs conns nextLoc closeEnvs pending socketClose trace
             set_pending set_chans logged].
        rewrite Hinc. split_and!; try reflexivity.
        * simpl. rewrite alter_alter_eq. reflexivity.
        * simpl. rewrite <- !app_assoc. reflexivity.
      + exists (set_pending (λ l, l ++ [AwaitListening self k])
                  (logged (EServerOnce self "listening" k) (incremented k s0))).
        split; [reflexivity|].
        cbn [chans pools peerObjs conns nextLoc closeEnvs pending socketClose trace
             set_pending logged].
        rewrite Hinc. split_and!; try reflexivity.
        * simpl. apply Hkeep. simpl. exact Haddr.
        * simpl. rewrite <- !app_assoc. reflexivity.
    - exists s0. rewrite !app_nil_r. split_and!; try done.
      apply Hkeep. reflexivity. }
  rewrite (bind_eq _ _ _ _ _ Hrun1).
  (* the inbound connections *)
  assert (∃ s2,
    (match serverConnections ch with
     | Some table =>
         forEach (map_to_list table) (λ '(_, incomingConn),
           incr k ;;
           effect (EConnClose incomingConn k) ;;
           await (AwaitClose (RConn incomingConn) k))
     | None => mret ()
     end) s1 = Ok () s2 ∧ s2 = closeBegin self ch cb s) as (s2 & Hrun2 & ->).
  { destruct (serverConnections ch) as [table|] eqn:Ht.
    - destruct (connLoop_eq k cb self (closeEnvs s) (map_to_list table) s1 n1 eq_refl Hce1)
        as (s2 & Hrun & Hc & Hp & Hpo & Hcn & Hn & Hce & Hpe & Hsc & Htr).
      exists s2. split; [exact Hrun|].
      apply State_eq; unfold closeBegin; cbn [chans pools peerObjs conns nextLoc
        closeEnvs pending socketClose trace]; rewrite ?Ht; simpl connList; fold k.
      + rewrite Hc, Hc1. reflexivity.
      + rewrite Hp, Hp1. reflexivity.
      + rewrite Hpo, Hpo1. reflexivity.
      + rewrite Hcn, Hcn1. reflexivity.
      + rewrite Hn, Hn1. reflexivity.
      + rewrite Hce. unfold n1. rewrite length_fmap. reflexivity.
      + rewrite Hpe, Hpe1. rewrite <- app_assoc. reflexivity.
      + rewrite Hsc, Hsc1. reflexivity.
      + rewrite Htr, Htr1. unfold s0. simpl. rewrite <- !app_assoc. reflexivity.
    - exists s1. split; [reflexivity|].
      apply State_eq; unfold closeBegin; cbn [chans pools peerObjs conns nextLoc
        closeEnvs pending socketClose trace]; rewrite ?Ht; simpl connList; fold k.
      + rewrite Hc1. reflexivity.
      + rewrite Hp1. reflexivity.
      + rewrite Hpo1. reflexivity.
      + rewrite Hcn1. reflexivity.
      + rewrite Hn1. reflexivity.
      + rewrite Hce1. unfold n1. simpl. rewrite Z.add_0_r. reflexivity.
      + rewrite Hpe1. simpl. rewrite app_nil_r. reflexivity.
      + rewrite Hsc1. reflexivity.
      + rewrite Htr1. unfold s0. simpl. rewrite app_nil_r, <- !app_assoc. reflexivity. }
  rewrite (bind_eq _ _ _ _ _ Hrun2). reflexivity.
Qed.

Lemma close_leaf (fuel : nat) (self : loc) (cb : Callback) (s : State)
    (ch : TChannelObj) :
  chans s !! self = Some ch → destroyed ch = false → subChannels ch = None →
  close (S fuel) self cb s = Ok () (closedLeaf self ch cb s).
Proof.
  intros Hch Hd Hsub. rewrite (close_begin _ _ _ _ _ Hch Hd), Hsub. reflexivity.
Qed.

Lemma isLeaf_alter (s : State) (f : gmap loc TChannelObj → gmap loc TChannelObj)
    (g : TChannelObj → TChannelObj) (x c : loc) :
  (∀ ch, subChannels (g ch) = subChannels ch) →
  isLeaf s c → isLeaf (set_chans (alter g x) s) c.
Proof.
  intros Hg (sc & Hsc & Hnone). unfold isLeaf. simpl.
  destruct (decide (x = c)) as [->|Hne].
  - exists (g sc). rewrite lookup_alter_eq, Hsc, Hg. done.
  - exists sc. rewrite lookup_alter_ne by done. done.
Qed.

Lemma closeSub_chans (k : nat) (s : State) (sub : loc) :
  chans (closeSub k s sub) = chans s ∨
  chans (closeSub k s sub) = alter shut sub (chans s).
Proof.
  unfold closeSub. destruct (chans s !! sub) as [sc|]; [|by left].
  destruct (destroyed sc); [by left | by right].
Qed.

Lemma closeSub_isLeaf (k : nat) (s : State) (sub c : loc) :
  isLeaf s c → isLeaf (closeSub k s sub) c.
Proof.
  intros (sc & Hsc & Hnone). unfold isLeaf.
  destruct (closeSub_chans k s sub) as [-> | ->]; [eauto|].
  destruct (decide (sub = c)) as [->|Hne].
  - exists (shut sc). rewrite lookup_alter_eq, Hsc. done.
  - exists sc. rewrite lookup_alter_ne by done. done.
Qed.

Lemma subLoop_eq (fuel : nat) (k : nat) (l : list (string * loc)) :
  ∀ s, (∀ x, x ∈ l → isLeaf s x.2) →
    forEach l (λ '(_, svcchan),
      sc ← chan svcchan;
      if destroyed sc then mret ()
      else incr k ;; close (S fuel) svcchan (CbOnClose k)) s
    = Ok () (foldl (closeSub k) s l.*2).
Proof.
  induction l as [|[n sub] l IH]; intros s Hl; [reflexivity|].
  simpl forEach. rewrite fmap_cons. simpl foldl.
  destruct (Hl (n, sub)) as (sc & Hsc & Hnone); [left|]. simpl in Hsc.
  assert (Hstep : (sc ← chan sub;
                   if destroyed sc then mret ()
                   else incr k ;; close (S fuel) sub (CbOnClose k)) s
                  = Ok () (closeSub k s sub)).
  { rewrite (bind_eq _ _ _ _ _ (chan_eq _ _ _ Hsc)). unfold closeSub. rewrite Hsc.
    destruct (destroyed sc) eqn:Hd; [reflexivity|].
    rewrite (bind_eq _ _ _ _ _ (incr_eq _ _)).
    apply close_leaf; done. }
  rewrite (bind_eq _ _ _ _ _ Hstep). apply IH.
  intros x Hx. apply closeSub_isLeaf. apply Hl. by right.
Qed.

(** A successful [close] in a one-level hierarchy is [closed]. *)
Lemma close_closed (fuel : nat) (self : loc) (cb : Callback) (s : State)
    (ch : TChannelObj) :
  hierarchy s →
  chans s !! self = Some ch → destroyed ch = false →
  close (S (S fuel)) self cb s = Ok () (closed self ch cb s).
Proof.
  intros Hh Hch Hd. rewrite (close_begin _ _ _ _ _ Hch Hd). unfold closed, subList.
  destruct (subChannels ch) as [subs|] eqn:Hsubs; [|reflexivity].
  assert (Hl : ∀ x, x ∈ map_to_list subs → isLeaf (closeBegin self ch cb s) x.2).
  { intros [n sub] Hx. apply elem_of_map_to_list in Hx. simpl.
    destruct (hierarchy_sub _ _ _ _ _ _ Hh Hch Hsubs Hx) as (sc & Hsc & Hnone & Hne).
    exists sc. unfold closeBegin. simpl. rewrite lookup_alter_ne by done. done. }
  rewrite (bind_eq _ _ _ _ _ (subLoop_eq fuel _ (map_to_list subs) _ Hl)).
  reflexivity.
Qed.

(** *** Counting *)

Lemma sum_insert {A} (g : A → nat) (l : list A) (k : nat) (x y : A) :
  l !! k = Some x →
  sum_list_with g (<[k := y]> l) + g x = sum_list_with g l + g y.
Proof.
  revert k. induction l as [|a l IH]; intros [|k] H; simpl in *; try discriminate.
  - injection H as ->. lia.
  - specialize (IH k H). lia.
Qed.

Lemma sum_delete {A} (g : A → nat) (l : list A) (i : nat) (x : A) :
  l !! i = Some x →
  sum_list_with g (delete i l) + g x = sum_list_with g l.
Proof.
  revert i. induction l as [|a l IH]; intros [|i] H; simpl in *; try discriminate.
  - injection H as ->. lia.
  - specialize (IH i H). lia.
Qed.

Lemma sum_fmap {A B} (g : B → nat) (f : A → B) (l : list A) :
  sum_list_with g (f <$> l) = sum_list_with (λ x, g (f x)) l.
Proof.
  induction l as [|a l IH]; [reflexivity|].
  rewrite fmap_cons. simpl. rewrite IH. reflexivity.
Qed.

Lemma sum_zero {A} (g : A → nat) (l : list A) :
  Forall (λ x, g x = 0) l → sum_list_with g l = 0.
Proof. induction 1 as [|x l Hx _ IH]; simpl; lia. Qed.

Lemma sum_ext_in {A} (g h : A → nat) (l : list A) :
  Forall (λ x, g x = h x) l → sum_list_with g l = sum_list_with h l.
Proof. induction 1 as [|x l Hx _ IH]; simpl; lia. Qed.

Lemma closing_alt (credit : nat → nat) (s : State) :
  closing credit s ↔
    (∀ k e, closeEnvs s !! k = Some e → envOk credit s k e) ∧
    Forall (λ p, target p < length (closeEnvs s)) (pending s) ∧
    Forall (knownCallback (length (closeEnvs s))) (trace s).
Proof.
  unfold closing. split; intros (H1 & H2 & H3); split_and!; try done.
  - intros k e Hk. rewrite Forall_forall in H1.
    specialize (H1 k). rewrite Hk in H1. apply H1.
    apply elem_of_seq. apply lookup_lt_Some in Hk. lia.
  - apply Forall_forall. intros k _.
    destruct (closeEnvs s !! k) as [e|] eqn:Hk; simpl; [auto | exact I].
Qed.

Lemma closing_ext (c1 c2 : nat → nat) (s : State) :
  (∀ k, c1 k = c2 k) → closing c1 s → closing c2 s.
Proof.
  intros Hc. rewrite !closing_alt. intros (H1 & H2 & H3). split_and!; try done.
  intros k e Hk. destruct (H1 k e Hk) as [Ha Hb]. split; [|exact Hb].
  rewrite <- Hc. exact Ha.
Qed.

Lemma firedIn_known (n k : nat) (tr : list Effect) :
  Forall (knownCallback n) tr → n ≤ k → firedIn k tr = 0.
Proof.
  intros H Hk. apply sum_zero. eapply Forall_impl; [exact H|].
  intros [] Hx; simpl in *; try reflexivity.
  rewrite bool_decide_eq_false_2 by lia. reflexivity.
Qed.

Lemma openChildren_older (k : nat) (credit : nat → nat) (s : State) :
  closing credit s → length (closeEnvs s) ≤ k → openChildren k (closeEnvs s) = 0.
Proof.
  rewrite closing_alt. intros (H1 & _) Hk. apply sum_zero.
  apply Forall_lookup. intros j e Hj. destruct (H1 j e Hj) as [_ Hcb].
  unfold openChildOf. destruct (callback e) as [| |k']; simpl; try reflexivity.
  apply lookup_lt_Some in Hj.
  rewrite bool_decide_eq_false_2; [reflexivity|]. intros [= ->]. lia.
Qed.

Lemma pendingFor_older (k : nat) (credit : nat → nat) (s : State) :
  closing credit s → length (closeEnvs s) ≤ k → pendingFor k (pending s) = 0.
Proof.
  rewrite closing_alt. intros (_ & H2 & _) Hk. apply sum_zero.
  eapply Forall_impl; [exact H2|]. intros p Hp. simpl in Hp.
  rewrite bool_decide_eq_false_2 by lia. reflexivity.
Qed.

Lemma firedIn_app (k : nat) (t1 t2 : list Effect) :
  firedIn k (t1 ++ t2) = firedIn k t1 + firedIn k t2.
Proof. apply sum_list_with_app. Qed.

Lemma pendingFor_app (k : nat) (l1 l2 : list Pending) :
  pendingFor k (l1 ++ l2) = pendingFor k l1 + pendingFor k l2.
Proof. apply sum_list_with_app. Qed.

Lemma openChildren_app (k : nat) (l1 l2 : list CloseEnv) :
  openChildren k (l1 ++ l2) = openChildren k l1 + openChildren k l2.
Proof. apply sum_list_with_app. Qed.

Lemma openChildren_insert_same (j k : nat) (l : list CloseEnv) (x y : CloseEnv) :
  openChildOf j y = openChildOf j x → l !! k = Some x →
  openChildren j (<[k := y]> l) = openChildren j l.
Proof.
  intros Heq Hk. unfold openChildren.
  pose proof (sum_insert (λ e, if openChildOf j e then 1 else 0) l k x y Hk) as Hs.
  cbv beta in Hs. rewrite Heq in Hs. lia.
Qed.

(** [++counter] of a running [close]: one more credit. *)
Lemma closing_incremented (credit : nat → nat) (s : State) (k : nat) :
  closing credit s → 1 ≤ credit k → k < length (closeEnvs s) →
  closing (plus1 credit k) (incremented k s).
Proof.
  rewrite !closing_alt. intros (H1 & H2 & H3) Hc Hk.
  destruct (lookup_lt_is_Some_2 _ _ Hk) as [e He].
  set (e' := mkCloseEnv (counter e + 1) (callback e) (env_self e)).
  assert (Henvs : closeEnvs (incremented k s) = <[k := e']> (closeEnvs s)).
  { simpl. rewrite He. reflexivity. }
  destruct (H1 k e He) as [Hcnt Hcb].
  assert (Hkids : ∀ j, openChildren j (closeEnvs (incremented k s))
                       = openChildren j (closeEnvs s)).
  { intros j. rewrite Henvs. apply (openChildren_insert_same j k _ e); [|exact He].
    unfold openChildOf, e'. simpl. f_equal.
    rewrite !bool_decide_eq_true_2 by lia. reflexivity. }
  assert (Hfired : ∀ j, fired j (incremented k s) = fired j s).
  { intros j. unfold fired, incremented. simpl. rewrite firedIn_app. simpl.
    unfold fired. lia. }
  split_and!.
  - intros j ej Hj. rewrite Henvs in Hj. unfold envOk, outstanding.
    rewrite Hkids, Hfired. change (pending (incremented k s)) with (pending s).
    unfold plus1. destruct (decide (j = k)) as [->|Hne].
    + rewrite list_lookup_insert_eq in Hj by done. injection Hj as <-.
      rewrite bool_decide_eq_true_2 by done. unfold e'. simpl.
      unfold outstanding in Hcnt. split; [lia|].
      destruct (callback e); try done.
      rewrite Hcb. rewrite !bool_decide_eq_false_2 by lia. reflexivity.
    + rewrite list_lookup_insert_ne in Hj by done.
      destruct (H1 j ej Hj) as [Ha Hb]. rewrite bool_decide_eq_false_2 by done.
      unfold outstanding in Ha. split; [lia | exact Hb].
  - rewrite Henvs, length_insert. exact H2.
  - rewrite Henvs, length_insert. unfold incremented. simpl.
    apply Forall_app. split; [exact H3|]. repeat constructor.
Qed.

(** [self.peers.close(onClose)]: the credit of the running [close] turns
    into the pool's outstanding completion. *)
Lemma closing_closeEnd (credit : nat → nat) (s : State) (p k : nat) :
  closing (plus1 credit k) s → k < length (closeEnvs s) →
  closing credit (closeEnd p k s).
Proof.
  rewrite !closing_alt. intros (H1 & H2 & H3) Hk. split_and!.
  - intros j ej Hj. change (closeEnvs (closeEnd p k s)) with (closeEnvs s) in Hj.
    destruct (H1 j ej Hj) as [Ha Hb]. unfold envOk, outstanding, fired in *.
    simpl. rewrite pendingFor_app, firedIn_app. simpl.
    unfold plus1 in Ha. split.
    + repeat case_bool_decide; subst; try done; lia.
    + destruct (callback ej); try done. rewrite Hb. lia.
  - simpl. apply Forall_app. split; [exact H2|]. repeat constructor. simpl. exact Hk.
  - simpl. apply Forall_app. split; [exact H3|]. repeat constructor.
Qed.

Lemma pendingFor_same (j k : nat) (l : list Pending) :
  Forall (λ p, target p = k) l →
  pendingFor j l = if bool_decide (j = k) then length l else 0.
Proof.
  induction 1 as [|p l Hp _ IH]; [by case_bool_decide|].
  unfold pendingFor in *. simpl. rewrite IH, Hp.
  repeat case_bool_decide; subst; try done; lia.
Qed.

Lemma notCallback_firedIn (k : nat) (tr : list Effect) :
  Forall (λ ev, notCallback ev = true) tr → firedIn k tr = 0.
Proof.
  intros H. apply sum_zero. eapply Forall_impl; [exact H|].
  intros [] Hx; simpl in *; try reflexivity. discriminate.
Qed.

Lemma notCallback_known (n : nat) (tr : list Effect) :
  Forall (λ ev, notCallback ev = true) tr → Forall (knownCallback n) tr.
Proof.
  intros H. eapply Forall_impl; [exact H|].
  intros [] Hx; simpl in *; try exact I. discriminate.
Qed.

Lemma known_mono (n m : nat) (tr : list Effect) :
  n ≤ m → Forall (knownCallback n) tr → Forall (knownCallback m) tr.
Proof.
  intros Hnm H. eapply Forall_impl; [exact H|].
  intros [] Hx; simpl in *; try exact I. lia.
Qed.

Lemma serverPending_target (c : loc) (ss : option ServerSocket) (k : nat) :
  Forall (λ p, target p = k) (serverPending c ss k).
Proof.
  destruct ss as [ss|]; simpl; [|constructor].
  destruct (ss_address ss); repeat constructor.
Qed.

Lemma connPending_target (k : nat) (l : list loc) :
  Forall (λ p, target p = k) ((λ x, AwaitClose (RConn x) k) <$> l).
Proof. apply Forall_fmap. apply Forall_forall. intros x _. reflexivity. Qed.

Lemma serverTrace_notCallback (c : loc) (ss : option ServerSocket) (k : nat) :
  Forall (λ ev, notCallback ev = true) (serverTrace c ss k).
Proof.
  destruct ss as [ss|]; simpl; [|constructor].
  destruct (ss_address ss); repeat constructor.
Qed.

Lemma connTrace_notCallback (k : nat) (l : list loc) :
  Forall (λ ev, notCallback ev = true) (connTrace k l).
Proof.
  unfold connTrace. induction l as [|x l IH]; simpl; [constructor|].
  repeat constructor. exact IH.
Qed.

Lemma closeBegin_trace (c : loc) (ch : TChannelObj) (cb : Callback) (s : State) :
  ∃ tr, trace (closeBegin c ch cb s) = trace s ++ tr ∧
        Forall (λ ev, notCallback ev = true) tr.
Proof.
  eexists. split; [reflexivity|].
  repeat first [apply Forall_cons; split; [reflexivity|] | apply Forall_app; split].
  - apply serverTrace_notCallback.
  - apply connTrace_notCallback.
Qed.

(** The start of a [close]: a new environment holding one credit. *)
Lemma closing_closeBegin (credit : nat → nat) (s : State) (c : loc)
    (ch : TChannelObj) (cb : Callback) :
  closing (parentCredit credit cb) s →
  (∀ k0, cb = CbOnClose k0 → k0 < length (closeEnvs s)) →
  credit (length (closeEnvs s)) = 0 →
  closing (plus1 credit (length (closeEnvs s))) (closeBegin c ch cb s).
Proof.
  intros Hcl Hparent Hcredit.
  pose proof (pendingFor_older (length (closeEnvs s)) _ _ Hcl (le_n _)) as Hp0.
  pose proof (openChildren_older (length (closeEnvs s)) _ _ Hcl (le_n _)) as Hk0.
  revert Hcl. rewrite !closing_alt. intros (H1 & H2 & H3).
  set (k := length (closeEnvs s)) in *.
  set (sp := serverPending c (serverSocket ch) k).
  set (cp := (λ x, AwaitClose (RConn x) k) <$> connList (serverConnections ch)).
  set (n := (1 + Z.of_nat (length sp) + Z.of_nat (length (connList (serverConnections ch))))%Z).
  set (enew := mkCloseEnv n cb c).
  assert (Henvs : closeEnvs (closeBegin c ch cb s) = closeEnvs s ++ [enew]) by reflexivity.
  assert (Hpend : pending (closeBegin c ch cb s) = pending s ++ sp ++ cp) by reflexivity.
  destruct (closeBegin_trace c ch cb s) as (tr & Htr & Hnc).
  assert (Hpf : ∀ j, pendingFor j (pending (closeBegin c ch cb s))
                = pendingFor j (pending s) +
                  (if bool_decide (j = k) then length sp + length cp else 0)).
  { intros j. rewrite Hpend, !pendingFor_app.
    rewrite (pendingFor_same j k sp) by apply serverPending_target.
    rewrite (pendingFor_same j k cp) by apply connPending_target.
    case_bool_decide; lia. }
  assert (Hkids : ∀ j, openChildren j (closeEnvs (closeBegin c ch cb s))
                = openChildren j (closeEnvs s) +
                  (if bool_decide (cb = CbOnClose j) then 1 else 0)).
  { intros j. rewrite Henvs, openChildren_app. unfold openChildren at 2. simpl.
    unfold openChildOf, enew. simpl.
    rewrite (bool_decide_eq_true_2 (0 < n)%Z) by (unfold n; lia).
    rewrite andb_true_r. case_bool_decide; lia. }
  assert (Hfired : ∀ j, fired j (closeBegin c ch cb s) = fired j s).
  { intros j. unfold fired. rewrite Htr, firedIn_app.
    rewrite (notCallback_firedIn j tr Hnc). lia. }
  assert (Hlen : length cp = length (connList (serverConnections ch))).
  { unfold cp. apply length_fmap. }
  split_and!.
  - intros j ej Hj. rewrite Henvs in Hj. unfold envOk, outstanding.
    rewrite Hpf, Hkids, Hfired. unfold plus1.
    destruct (decide (j = k)) as [->|Hne].
    + rewrite lookup_app_r in Hj by (unfold k; lia).
      replace (k - length (closeEnvs s)) with 0 in Hj by (unfold k; lia).
      injection Hj as <-. simpl.
      rewrite (bool_decide_eq_true_2 (k = k)) by done.
      assert (Hnot : bool_decide (cb = CbOnClose k) = false).
      { apply bool_decide_eq_false_2. intros E. specialize (Hparent k E). unfold k in *; lia. }
      rewrite Hnot. split; [unfold n; lia|].
      destruct cb as [|f|k0]; [exact I | | apply Hparent; reflexivity].
      unfold fired. rewrite (firedIn_known k k (trace s) H3 (le_n _)).
      rewrite bool_decide_eq_false_2 by (unfold n; lia). reflexivity.
    + assert (Hlt : j < k).
      { apply lookup_lt_Some in Hj. rewrite length_app in Hj. simpl in Hj.
        unfold k. lia. }
      rewrite lookup_app_l in Hj by exact Hlt.
      destruct (H1 j ej Hj) as [Ha Hb]. unfold outstanding in Ha.
      rewrite !(bool_decide_eq_false_2 (j = k)) by done. split; [|exact Hb].
      rewrite Ha. unfold parentCredit, plus1.
      destruct cb as [|f|k0]; rewrite ?(bool_decide_eq_false_2 (_ = CbOnClose j)) by done;
        try (f_equal; lia).
      destruct (decide (j = k0)) as [->|Hne0].
      * rewrite !bool_decide_eq_true_2 by done. f_equal; lia.
      * rewrite !bool_decide_eq_false_2 by congruence. f_equal; lia.
  - rewrite Henvs, Hpend, length_app. simpl. fold k.
    repeat (apply Forall_app; split).
    + eapply Forall_impl; [exact H2|]. simpl. intros; lia.
    + eapply Forall_impl; [apply serverPending_target|]. simpl. intros ? ->. lia.
    + eapply Forall_impl; [apply connPending_target|]. simpl. intros ? ->. lia.
  - rewrite Henvs, Htr, length_app. simpl. fold k. apply Forall_app. split.
    + eapply known_mono; [|exact H3]. lia.
    + apply notCallback_known. exact Hnc.
Qed.

Lemma closing_closedLeaf (credit : nat → nat) (s : State) (c : loc)
    (ch : TChannelObj) (cb : Callback) :
  closing (parentCredit credit cb) s →
  (∀ k0, cb = CbOnClose k0 → k0 < length (closeEnvs s)) →
  credit (length (closeEnvs s)) = 0 →
  closing credit (closedLeaf c ch cb s).
Proof.
  intros Hcl Hparent Hcredit. unfold closedLeaf. apply closing_closeEnd.
  - apply closing_closeBegin; assumption.
  - unfold closeBegin. simpl. rewrite length_app. simpl. lia.
Qed.

Lemma incremented_length (k : nat) (s : State) :
  length (closeEnvs (incremented k s)) = length (closeEnvs s).
Proof.
  simpl. destruct (closeEnvs s !! k); [apply length_insert | reflexivity].
Qed.

Lemma closedLeaf_length (c : loc) (ch : TChannelObj) (cb : Callback) (s : State) :
  length (closeEnvs (closedLeaf c ch cb s)) = S (length (closeEnvs s)).
Proof.
  unfold closedLeaf, closeEnd, closeBegin. simpl. rewrite length_app. simpl. lia.
Qed.

Lemma closeSub_length (k : nat) (s : State) (sub : loc) :
  length (closeEnvs s) ≤ length (closeEnvs (closeSub k s sub)).
Proof.
  unfold closeSub. destruct (chans s !! sub) as [sc|]; [|done].
  destruct (destroyed sc); [done|].
  rewrite closedLeaf_length, incremented_length. lia.
Qed.

Lemma closing_closeSub (credit : nat → nat) (s : State) (k : nat) (sub : loc) :
  closing credit s → 1 ≤ credit k → k < length (closeEnvs s) →
  (∀ j, length (closeEnvs s) ≤ j → credit j = 0) →
  closing credit (closeSub k s sub).
Proof.
  intros Hcl Hc Hk Hsupp. unfold closeSub.
  destruct (chans s !! sub) as [sc|]; [|exact Hcl].
  destruct (destroyed sc); [exact Hcl|].
  apply closing_closedLeaf.
  - simpl. apply closing_incremented; assumption.
  - intros k0 [= <-]. rewrite incremented_length. exact Hk.
  - apply Hsupp. rewrite incremented_length. done.
Qed.

Lemma closing_foldSub (credit : nat → nat) (k : nat) (l : list loc) :
  ∀ s, closing credit s → 1 ≤ credit k → k < length (closeEnvs s) →
    (∀ j, length (closeEnvs s) ≤ j → credit j = 0) →
    closing credit (foldl (closeSub k) s l) ∧
    length (closeEnvs s) ≤ length (closeEnvs (foldl (closeSub k) s l)).
Proof.
  induction l as [|sub l IH]; intros s Hcl Hc Hk Hsupp; [done|].
  simpl. pose proof (closeSub_length k s sub) as Hlen.
  destruct (IH (closeSub k s sub)) as [H1 H2].
  - apply closing_closeSub; assumption.
  - exact Hc.
  - lia.
  - intros j Hj. apply Hsupp. lia.
  - split; [exact H1 | lia].
Qed.

(** [close] keeps the accounts: after it has returned, every counter is
    the number of the outstanding sub-resources. *)
Lemma settled_closed (c : loc) (ch : TChannelObj) (cb : Callback) (s : State) :
  settled s → (∀ k0, cb ≠ CbOnClose k0) → settled (closed c ch cb s).
Proof.
  intros Hs Hcb. unfold settled, closed.
  assert (Hb : closing (plus1 (λ _, 0) (length (closeEnvs s))) (closeBegin c ch cb s)).
  { apply closing_closeBegin; [|intros k0 E; destruct (Hcb k0 E)|reflexivity].
    destruct cb; try exact Hs. destruct (Hcb k eq_refl). }
  assert (Hlen : length (closeEnvs (closeBegin c ch cb s)) = S (length (closeEnvs s))).
  { unfold closeBegin. simpl. rewrite length_app. simpl. lia. }
  destruct (closing_foldSub _ (length (closeEnvs s)) (subList ch) _ Hb) as [H1 H2].
  - unfold plus1. rewrite bool_decide_eq_true_2 by done. lia.
  - lia.
  - intros j Hj. unfold plus1. rewrite bool_decide_eq_false_2 by lia. reflexivity.
  - apply closing_closeEnd; [exact H1 | lia].
Qed.

Lemma live_alter_ne (m : gmap loc TChannelObj) (g : TChannelObj → TChannelObj)
    (x c : loc) :
  x ≠ c → live (alter g x m) c = live m c.
Proof. intros Hne. unfold live. rewrite lookup_alter_ne by done. reflexivity. Qed.

Lemma liveCount_alter (m : gmap loc TChannelObj) (g : TChannelObj → TChannelObj)
    (x : loc) (l : list loc) :
  x ∉ l → liveCount (alter g x m) l = liveCount m l.
Proof.
  intros Hx. unfold liveCount. apply sum_ext_in. apply Forall_forall.
  intros c Hc. rewrite live_alter_ne; [reflexivity|]. intros ->. done.
Qed.

Lemma foldSub_counter (k : nat) (l : list loc) :
  ∀ (s : State) (e : CloseEnv),
    NoDup l → closeEnvs s !! k = Some e →
    closeEnvs (foldl (closeSub k) s l) !! k =
      Some (mkCloseEnv (counter e + Z.of_nat (liveCount (chans s) l))
              (callback e) (env_self e)).
Proof.
  induction l as [|sub l IH]; intros s e Hnd He.
  - simpl. rewrite He. unfold liveCount. simpl. rewrite Z.add_0_r.
    destruct e; reflexivity.
  - apply NoDup_cons in Hnd as [Hsub Hnd]. simpl foldl.
    unfold liveCount. simpl sum_list_with. fold (liveCount (chans s) l).
    unfold closeSub at 2. unfold live.
    destruct (chans s !! sub) as [sc|] eqn:Hsc.
    + destruct (destroyed sc) eqn:Hd; simpl negb; cbv iota.
      * rewrite (IH s e Hnd He). do 2 f_equal.
      * set (s1 := closedLeaf sub sc (CbOnClose k) (incremented k s)).
        assert (He1 : closeEnvs s1 !! k =
                      Some (mkCloseEnv (counter e + 1) (callback e) (env_self e))).
        { unfold s1, closedLeaf, closeEnd, closeBegin. simpl. rewrite He.
          rewrite lookup_app_l.
          - apply list_lookup_insert_eq. apply lookup_lt_Some in He. exact He.
          - rewrite length_insert. apply lookup_lt_Some in He. exact He. }
        assert (Hch1 : chans s1 = alter shut sub (chans s))
          by reflexivity.
        rewrite (IH s1 _ Hnd He1), Hch1, liveCount_alter by exact Hsub.
        cbn [counter callback env_self]. do 2 f_equal. lia.
    + rewrite (IH s e Hnd He). do 2 f_equal.
Qed.

Lemma foldSub_destroyed (k : nat) (c : loc) (l : list loc) :
  ∀ s, (∃ ch, chans s !! c = Some ch ∧ destroyed ch = true) →
       ∃ ch, chans (foldl (closeSub k) s l) !! c = Some ch ∧ destroyed ch = true.
Proof.
  induction l as [|sub l IH]; intros s H; [exact H|].
  simpl. apply IH. destruct H as (ch & Hch & Hd).
  destruct (closeSub_chans k s sub) as [-> | ->]; [eauto|].
  destruct (decide (sub = c)) as [->|Hne].
  - exists (shut ch). rewrite lookup_alter_eq, Hch. done.
  - exists ch. rewrite lookup_alter_ne by done. done.
Qed.

(** The counter of a [close] that has returned: 1, plus one for the
    listening socket, for each inbound connection and for each sub-channel
    that was not destroyed. *)
Lemma closed_counter (c : loc) (ch : TChannelObj) (cb : Callback) (s : State) :
  NoDup (subList ch) → c ∉ subList ch →
  closeEnvs (closed c ch cb s) !! length (closeEnvs s) =
    Some (mkCloseEnv
            (1 + Z.of_nat (length (serverPending c (serverSocket ch)
                                      (length (closeEnvs s))))
               + Z.of_nat (length (connList (serverConnections ch)))
               + Z.of_nat (liveCount (chans s) (subList ch)))
            cb c).
Proof.
  intros Hnd Hc. unfold closed.
  change (closeEnvs (closeEnd ?p ?k ?t)) with (closeEnvs t).
  erewrite foldSub_counter; [|exact Hnd|].
  2:{ unfold closeBegin. simpl. rewrite lookup_app_r, Nat.sub_diag by lia.
      reflexivity. }
  simpl. rewrite liveCount_alter by exact Hc. reflexivity.
Qed.

(** *** Completions *)

Lemma openChildren_insert (j k : nat) (l : list CloseEnv) (x y : CloseEnv) :
  l !! k = Some x →
  openChildren j (<[k := y]> l) + (if openChildOf j x then 1 else 0)
  = openChildren j l + (if openChildOf j y then 1 else 0).
Proof.
  intros Hk. unfold openChildren.
  exact (sum_insert (λ e, if openChildOf j e then 1 else 0) l k x y Hk).
Qed.

(** [--counter]: what becomes of the accounts, by the new value of the
    counter and the kind of callback. *)
Lemma closing_decremented (credit : nat → nat) (s : State) (k : nat)
    (e : CloseEnv) :
  closing (plus1 credit k) s → closeEnvs s !! k = Some e →
  (0 ≤ counter e - 1)%Z ∧
  ((0 < counter e - 1)%Z → closing credit (decremented k e s)) ∧
  ((counter e - 1 = 0)%Z →
     match callback e with
     | CbOnClose k' => k' < k ∧ closing (plus1 credit k') (decremented k e s)
     | CbFun f => closing credit (logged (ECallback k f) (decremented k e s))
     | CbNone => closing credit (decremented k e s)
     end).
Proof.
  rewrite closing_alt. intros (H1 & H2 & H3) He.
  set (e' := mkCloseEnv (counter e - 1) (callback e) (env_self e)).
  pose proof (lookup_lt_Some _ _ _ He) as Hk.
  destruct (H1 k e He) as [Hcnt Hcb].
  unfold plus1 in Hcnt. rewrite bool_decide_eq_true_2 in Hcnt by done.
  assert (Henvs : closeEnvs (decremented k e s) = <[k := e']> (closeEnvs s))
    by reflexivity.
  assert (Hpend : pending (decremented k e s) = pending s) by reflexivity.
  assert (Hfired : ∀ j, fired j (decremented k e s) = fired j s).
  { intros j. unfold fired, decremented. simpl. rewrite firedIn_app. simpl.
    unfold fired. lia. }
  assert (Hkids : ∀ j, openChildren j (closeEnvs (decremented k e s))
                       + (if openChildOf j e then 1 else 0)
                     = openChildren j (closeEnvs s)
                       + (if openChildOf j e' then 1 else 0)).
  { intros j. rewrite Henvs. apply openChildren_insert. exact He. }
  assert (Hc' : counter e' = (counter e - 1)%Z) by reflexivity.
  assert (Hcb' : callback e' = callback e) by reflexivity.
  setoid_rewrite Henvs in Hkids. clearbody e'.
  assert (Hother : ∀ j ej, j ≠ k → <[k := e']> (closeEnvs s) !! j = Some ej →
            counter ej = Z.of_nat (outstanding j s + credit j) ∧
            match callback ej with
            | CbOnClose k' => k' < j
            | CbFun _ => fired j s = if bool_decide (counter ej = 0%Z) then 1 else 0
            | CbNone => True
            end).
  { intros j ej Hne Hj. rewrite list_lookup_insert_ne in Hj by done.
    destruct (H1 j ej Hj) as [Ha Hb]. unfold plus1 in Ha.
    rewrite bool_decide_eq_false_2 in Ha by done. split; [lia | exact Hb]. }
  assert (Hself : ∀ ej, <[k := e']> (closeEnvs s) !! k = Some ej → ej = e').
  { intros ej Hj. rewrite list_lookup_insert_eq in Hj by exact Hk. congruence. }
  split_and!.
  - lia.
  - intros Hpos. apply closing_alt.
    assert (Hsame : ∀ j, openChildOf j e' = openChildOf j e).
    { intros j. unfold openChildOf. rewrite Hc', Hcb'. f_equal.
      rewrite !bool_decide_eq_true_2 by lia. reflexivity. }
    split_and!.
    + intros j ej Hj. rewrite Henvs in Hj. unfold envOk, outstanding.
      rewrite Hpend, Hfired, Henvs. specialize (Hkids j). rewrite Hsame in Hkids.
      destruct (decide (j = k)) as [->|Hne].
      * rewrite (Hself _ Hj), Hc', Hcb'. unfold outstanding in Hcnt.
        split; [lia|]. destruct (callback e); try done.
        rewrite Hcb, !bool_decide_eq_false_2 by lia. reflexivity.
      * destruct (Hother j ej Hne Hj) as [Ha Hb]. unfold outstanding in Ha.
        split; [lia | exact Hb].
    + rewrite Henvs, length_insert, Hpend. exact H2.
    + rewrite Henvs, length_insert. unfold decremented. simpl.
      apply Forall_app. split; [exact H3 | repeat constructor].
  - intros Hzero.
    assert (Hopen : ∀ j, openChildOf j e = bool_decide (callback e = CbOnClose j)).
    { intros j. unfold openChildOf.
      rewrite (bool_decide_eq_true_2 (0 < counter e)%Z) by lia. apply andb_true_r. }
    assert (Hshut : ∀ j, openChildOf j e' = false).
    { intros j. unfold openChildOf. rewrite Hc'.
      rewrite (bool_decide_eq_false_2 (0 < counter e - 1)%Z) by lia. apply andb_false_r. }
    destruct (callback e) as [|f|k'] eqn:Hcallback.
    + apply closing_alt. split_and!.
      * intros j ej Hj. rewrite Henvs in Hj. unfold envOk, outstanding.
        rewrite Hpend, Hfired, Henvs. specialize (Hkids j).
        rewrite Hopen, Hshut, bool_decide_eq_false_2 in Hkids by done.
        destruct (decide (j = k)) as [->|Hne].
        -- rewrite (Hself _ Hj), Hc', Hcb'.
           unfold outstanding in Hcnt. split; [lia | exact I].
        -- destruct (Hother j ej Hne Hj) as [Ha Hb]. unfold outstanding in Ha.
           split; [lia | exact Hb].
      * rewrite Henvs, length_insert, Hpend. exact H2.
      * rewrite Henvs, length_insert. unfold decremented. simpl.
        apply Forall_app. split; [exact H3 | repeat constructor].
    + apply closing_alt. split_and!.
      * intros j ej Hj. change (closeEnvs (logged ?x ?t)) with (closeEnvs t) in Hj.
        rewrite Henvs in Hj. unfold envOk, outstanding.
        change (pending (logged ?x ?t)) with (pending t).
        change (closeEnvs (logged ?x ?t)) with (closeEnvs t).
        rewrite Hpend, Henvs. specialize (Hkids j).
        rewrite Hopen, Hshut, bool_decide_eq_false_2 in Hkids by done.
        assert (Hf : fired j (logged (ECallback k f) (decremented k e s))
                     = fired j s + (if bool_decide (k = j) then 1 else 0)).
        { unfold fired. simpl. rewrite !firedIn_app. simpl. unfold fired. lia. }
        rewrite Hf.
        destruct (decide (j = k)) as [->|Hne].
        -- rewrite (Hself _ Hj), Hc', Hcb'.
           unfold outstanding in Hcnt. split; [lia|].
           rewrite Hcb, (bool_decide_eq_false_2 (counter e = 0%Z)) by lia.
           rewrite !bool_decide_eq_true_2 by (done || lia). reflexivity.
        -- destruct (Hother j ej Hne Hj) as [Ha Hb]. unfold outstanding in Ha.
           split; [lia|]. rewrite (bool_decide_eq_false_2 (k = j)) by done.
           destruct (callback ej); try done. rewrite Hb. lia.
      * change (closeEnvs (logged ?x ?t)) with (closeEnvs t).
        change (pending (logged ?x ?t)) with (pending t).
        rewrite Henvs, length_insert, Hpend. exact H2.
      * change (closeEnvs (logged ?x ?t)) with (closeEnvs t).
        rewrite Henvs, length_insert. unfold decremented. simpl.
        rewrite <- app_assoc. apply Forall_app. split; [exact H3|].
        repeat constructor. simpl. exact Hk.
    + split; [exact Hcb|]. apply closing_alt. split_and!.
      * intros j ej Hj. rewrite Henvs in Hj. unfold envOk, outstanding.
        rewrite Hpend, Hfired, Henvs. specialize (Hkids j).
        rewrite Hopen, Hshut in Hkids. unfold plus1.
        destruct (decide (j = k)) as [->|Hne].
        -- rewrite (Hself _ Hj), Hc', Hcb'.
           rewrite (bool_decide_eq_false_2 (CbOnClose k' = CbOnClose k)) in Hkids
             by (intros [= ->]; lia).
           rewrite (bool_decide_eq_false_2 (k = k')) by lia.
           unfold outstanding in Hcnt. split; [lia | exact Hcb].
        -- destruct (Hother j ej Hne Hj) as [Ha Hb]. unfold outstanding in Ha.
           split; [|exact Hb].
           destruct (decide (j = k')) as [->|Hne'].
           ++ rewrite !bool_decide_eq_true_2 in * by done. lia.
           ++ rewrite (bool_decide_eq_false_2 (CbOnClose k' = CbOnClose j)) in Hkids
                by congruence.
              rewrite (bool_decide_eq_false_2 (j = k')) by done. lia.
      * rewrite Henvs, length_insert, Hpend. exact H2.
      * rewrite Henvs, length_insert. unfold decremented. simpl.
        apply Forall_app. split; [exact H3 | repeat constructor].
Qed.

Lemma closeEnv_eq (k : nat) (s : State) (e : CloseEnv) :
  closeEnvs s !! k = Some e → closeEnv k s = Ok e s.
Proof. intros H. unfold closeEnv. rewrite bind_gets, H. reflexivity. Qed.

(** [onClose] of an environment that holds one credit too many: it always
    returns, the accounts are settled afterwards, the counter of [k] is one
    less, and nothing but counters and the trace has changed. *)
Lemma onClose_closing (fuel : nat) :
  ∀ (k : nat) (s : State) (credit : nat → nat),
    k < fuel → closing (plus1 credit k) s → k < length (closeEnvs s) →
    ∃ s' e e',
      onClose fuel k s = Ok () s' ∧ closing credit s' ∧
      closeEnvs s !! k = Some e ∧ closeEnvs s' !! k = Some e' ∧
      counter e' = (counter e - 1)%Z ∧
      (∀ j, k < j → closeEnvs s' !! j = closeEnvs s !! j) ∧
      length (closeEnvs s') = length (closeEnvs s) ∧
      chans s' = chans s ∧ pending s' = pending s ∧
      callback <$> closeEnvs s' = callback <$> closeEnvs s ∧
      (∃ tr, trace s' = trace s ++ ECounterDec k :: tr).
Proof.
  induction fuel as [|fuel IH]; intros k s credit Hfuel Hcl Hk; [lia|].
  destruct (lookup_lt_is_Some_2 _ _ Hk) as [e He].
  destruct (closing_decremented credit s k e Hcl He) as (Hnn & Hpos & Hzero).
  simpl onClose. rewrite (bind_eq _ _ _ _ _ (closeEnv_eq _ _ _ He)).
  rewrite bind_modify, bind_effect.
  change (logged (ECounterDec k) (set_closeEnvs _ s)) with (decremented k e s).
  assert (Hk' : closeEnvs (decremented k e s) !! k =
                Some (mkCloseEnv (counter e - 1) (callback e) (env_self e))).
  { unfold decremented. simpl. apply list_lookup_insert_eq. exact Hk. }
  assert (Hab : ∀ j, k < j → closeEnvs (decremented k e s) !! j = closeEnvs s !! j).
  { intros j Hj. unfold decremented. simpl. apply list_lookup_insert_ne. lia. }
  assert (Hlen : length (closeEnvs (decremented k e s)) = length (closeEnvs s)).
  { unfold decremented. simpl. apply length_insert. }
  assert (Hcbs : callback <$> closeEnvs (decremented k e s) = callback <$> closeEnvs s).
  { unfold decremented. simpl. rewrite list_fmap_insert. simpl.
    apply list_insert_id. rewrite list_lookup_fmap, He. reflexivity. }
  destruct (Z.leb_spec (counter e - 1) 0) as [Hle|Hgt].
  - assert (Hz : (counter e - 1 = 0)%Z) by lia. specialize (Hzero Hz).
    rewrite (proj2 (Z.ltb_ge _ _)) by lia. rewrite bind_ret.
    destruct (callback e) as [|f|k'] eqn:Hcallback.
    + eexists _, e, _. split_and!; try reflexivity; try done.
      exists []. reflexivity.
    + eexists _, e, _. split_and!; try reflexivity; try done.
      eexists. unfold decremented. simpl. rewrite <- app_assoc. reflexivity.
    + destruct Hzero as [Hlt Hcl'].
      destruct (IH k' (decremented k e s) credit) as
        (s' & e1 & e1' & Hrun & Hcl'' & _ & _ & _ & Hab' & Hlen' & Hch' & Hpe' & Hcbs' &
         tr & Htr');
        [lia | exact Hcl' | rewrite Hlen; lia |].
      eexists s', e, _.
      split_and!; try done.
      * rewrite Hab' by lia. exact Hk'.
      * reflexivity.
      * intros j Hj. rewrite Hab' by lia. apply Hab. exact Hj.
      * lia.
      * congruence.
      * eexists. rewrite Htr'. unfold decremented. simpl.
        rewrite <- app_assoc. reflexivity.
  - eexists _, e, _. split_and!; try reflexivity; try done.
    + apply Hpos. lia.
    + exists []. reflexivity.
Qed.

(** C3, last part, and the step of C1: the completion of a pending close
    calls [onClose]: it returns, the counter of the [close] call that waits
    for it is one less, and the accounts stay settled. *)
Lemma completes_settled (i : nat) (s : State) (r : Resource) (k : nat) :
  settled s → pending s !! i = Some (AwaitClose r k) →
  ∃ s' e e',
    completes i s = Ok () s' ∧ settled s' ∧
    closeEnvs s !! k = Some e ∧ closeEnvs s' !! k = Some e' ∧
    counter e' = (counter e - 1)%Z ∧
    pending s' = delete i (pending s) ∧ chans s' = chans s ∧
    callback <$> closeEnvs s' = callback <$> closeEnvs s.
Proof.
  intros Hs Hi. unfold completes. rewrite bind_gets, Hi, bind_modify.
  set (s0 := set_pending (delete i) s).
  assert (Hk : k < length (closeEnvs s)).
  { destruct Hs as (_ & H2 & _). rewrite Forall_forall in H2.
    apply (H2 (AwaitClose r k)). eapply list_elem_of_lookup_2. exact Hi. }
  assert (Hcl : closing (plus1 (λ _, 0) k) s0).
  { apply closing_alt. apply closing_alt in Hs as (H1 & H2 & H3). split_and!.
    - intros j ej Hj. destruct (H1 j ej Hj) as [Ha Hb].
      unfold envOk, outstanding, fired in *. simpl.
      pose proof (sum_delete (λ p, if bool_decide (target p = j) then 1 else 0)
                    (pending s) i _ Hi) as Hd. simpl in Hd.
      unfold pendingFor in *. unfold plus1. split; [|exact Hb].
      repeat case_bool_decide; subst; try done; lia.
    - simpl. apply Forall_forall. intros p Hp. rewrite Forall_forall in H2.
      apply H2. eapply list_elem_of_delete_inv. exact Hp.
    - exact H3. }
  destruct (onClose_closing (S k) k s0 (λ _, 0)) as
    (s' & e & e' & Hrun & Hcl' & He & He' & Hc & _ & _ & Hch & Hpe & Hcbs & _);
    [lia | exact Hcl | exact Hk |].
  exists s', e, e'. split_and!; try done.
Qed.

(** *** The other calls and events leave the accounts alone *)

Lemma closing_logged (credit : nat → nat) (e : Effect) (s : State) :
  notCallback e = true → closing credit s → closing credit (logged e s).
Proof.
  intros He. rewrite !closing_alt. intros (H1 & H2 & H3). split_and!.
  - intros j ej Hj. destruct (H1 j ej Hj) as [Ha Hb]. split; [exact Ha|].
    destruct (callback ej); try done. unfold fired in *. simpl.
    rewrite firedIn_app, Hb. simpl. destruct e; simpl; try lia. discriminate.
  - exact H2.
  - simpl. apply Forall_app. split; [exact H3|]. repeat constructor.
    destruct e; simpl; try exact I. discriminate.
Qed.

Lemma closing_resumed (credit : nat → nat) (self : loc) (s : State) :
  closing credit s → closing credit (set_pending (fmap (resumed self)) s).
Proof.
  rewrite !closing_alt. intros (H1 & H2 & H3).
  assert (Ht : ∀ p, target (resumed self p) = target p).
  { intros [r k|c k]; simpl; [reflexivity|]. case_bool_decide; reflexivity. }
  split_and!.
  - intros j ej Hj. destruct (H1 j ej Hj) as [Ha Hb]. split; [|exact Hb].
    rewrite Ha. unfold outstanding, pendingFor. simpl. rewrite sum_fmap.
    do 3 f_equal. apply sum_ext_in. apply Forall_forall. intros p _.
    rewrite Ht. reflexivity.
  - simpl. apply Forall_fmap. eapply Forall_impl; [exact H2|].
    intros p Hp. simpl. rewrite Ht. exact Hp.
  - exact H3.
Qed.

Ltac accounts_prim :=
  preserves_prim;
  match goal with
  | H : accounts _ _ |- _ =>
      destruct H as [? ?]; split;
      [ first [ assumption
              | apply closing_logged; [reflexivity | assumption]
              | apply closing_resumed; assumption ]
      | assumption ]
  end.

Lemma accounts_request (cbs : list Callback) (fuel : nat) :
  ∀ self opt, preserves (accounts cbs) (request fuel self opt).
Proof.
  induction fuel as [|fuel IH]; intros self opt; [intros s _; exact I|].
  simpl. repeat first [preserves_step | apply IH | accounts_prim].
Qed.

Lemma accounts_completes (cbs : list Callback) (i : nat) :
  preserves (accounts cbs) (completes i).
Proof.
  intros s [Hs Hcbs].
  destruct (pending s !! i) as [[r k|c k]|] eqn:E.
  - destruct (completes_settled i s r k Hs E)
      as (s' & e & e' & -> & Hs' & _ & _ & _ & _ & _ & Hcbs').
    split; [exact Hs' | congruence].
  - unfold completes. rewrite bind_gets, E. split; assumption.
  - unfold completes. rewrite bind_gets, E. split; assumption.
Qed.

Lemma accounts_perform (cbs : list Callback) (a : Action) :
  notClose a → preserves (accounts cbs) (perform a).
Proof.
  intros Ha. destruct a; unfold perform, void; try destruct Ha.
  - unfold TChannel, TChannelPeers. repeat first [preserves_step | accounts_prim].
  - unfold makeSubChannel, TChannel, TChannelPeers, attachPeer, peers_add,
      peers_addPeer, getPool.
    repeat first [preserves_step | accounts_prim].
  - unfold listen, getServer, server_listen.
    repeat first [preserves_step | accounts_prim].
  - unfold register. repeat first [preserves_step | accounts_prim].
  - apply preserves_bind; [apply accounts_request | intros ?; apply preserves_ret].
  - unfold serverListening, onServerSocketListening, resumeCloses, server_close.
    repeat first [preserves_step | accounts_prim].
  - unfold onServerSocketConnection.
    repeat first [preserves_step | accounts_prim].
  - unfold socketClosed, onSocketClose.
    repeat first [preserves_step | accounts_prim].
  - apply accounts_completes.
Qed.

Lemma accounts_run (cbs : list Callback) (l : list Action) :
  ∀ s s', Forall notClose l → accounts cbs s → run l s = Some s' → accounts cbs s'.
Proof.
  induction l as [|a l IH]; intros s s' Hl H E; simpl in E.
  - injection E as <-. exact H.
  - apply Forall_cons in Hl as [Ha Hl].
    destruct (after (perform a s)) as [s1|] eqn:E1; [|discriminate].
    simpl in E. eapply IH; [exact Hl| |exact E].
    eapply preserves_after; [apply accounts_perform; exact Ha | exact H | exact E1].
Qed.

(** When nothing is pending any more, every counter is at 0. *)
Lemma settled_all_closed (s : State) :
  settled s → pending s = [] →
  ∀ n k e, length (closeEnvs s) - k ≤ n → closeEnvs s !! k = Some e →
           counter e = 0%Z.
Proof.
  intros Hs Hp. apply closing_alt in Hs as (H1 & _ & _).
  induction n as [|n IH]; intros k e Hn Hk.
  - apply lookup_lt_Some in Hk. lia.
  - destruct (H1 k e Hk) as [Ha _]. rewrite Ha. unfold outstanding.
    rewrite Hp. unfold pendingFor. simpl.
    assert (Hz : openChildren k (closeEnvs s) = 0).
    { apply sum_zero. apply Forall_lookup. intros j ej Hj.
      unfold openChildOf. destruct (H1 j ej Hj) as [_ Hb].
      destruct (decide (callback ej = CbOnClose k)) as [Hcb|Hcb].
      - rewrite Hcb in Hb.
        rewrite (IH j ej); [by rewrite andb_false_r | | exact Hj].
        apply lookup_lt_Some in Hj. lia.
      - rewrite (bool_decide_eq_false_2 _ Hcb). reflexivity. }
    rewrite Hz. reflexivity.
Qed.

Lemma hierarchy_subList (s : State) (c : loc) (ch : TChannelObj) :
  hierarchy s → chans s !! c = Some ch →
  NoDup (subList ch) ∧ c ∉ subList ch.
Proof.
  intros Hh Hch. destruct (Hh c ch Hch) as (_ & _ & Hnd). unfold subList.
  destruct (subChannels ch) as [subs|] eqn:Hsubs; simpl in Hnd.
  - split; [exact Hnd|]. intros Hin.
    apply list_elem_of_fmap in Hin as ([n x] & -> & Hx).
    apply elem_of_map_to_list in Hx.
    destruct (hierarchy_sub _ _ _ _ _ _ Hh Hch Hsubs Hx) as (_ & _ & _ & Hne).
    done.
  - split; [constructor | apply not_elem_of_nil].
Qed.

(** C1: [close] on a destroyed channel throws the failed assertion and
    leaves the store alone. On a channel that is not destroyed, in a
    one-level hierarchy, it returns with [destroyed] set; what it then
    waits for are the listening socket (if there is one), every inbound
    connection, every sub-channel that was not destroyed, and the pool; and
    whatever calls and events follow, in whatever order the completions
    arrive, the callback has been invoked exactly once when none of these is
    outstanding and not at all as long as one is. In particular it has been
    invoked exactly once when nothing is pending any more. *)
Theorem close_callback_exactly_once (self : loc) (f : nat) (s : State)
    (ch : TChannelObj) :
  hierarchy s → settled s → chans s !! self = Some ch →
  (destroyed ch = true →
     ∀ fuel cb, close (S fuel) self cb s = Throw DoubleCloseError s) ∧
  (destroyed ch = false →
   let k := length (closeEnvs s) in
   ∃ s1,
     (∀ fuel, close (S (S fuel)) self (CbFun f) s = Ok () s1) ∧
     (∃ ch1, chans s1 !! self = Some ch1 ∧ destroyed ch1 = true) ∧
     outstanding k s1 =
       (if serverSocket ch is Some _ then 1 else 0)
       + from_option size 0 (serverConnections ch)
       + liveCount (chans s) (subList ch) + 1 ∧
     fired k s1 = 0 ∧
     ∀ l s2, Forall notClose l → run l s1 = Some s2 →
       fired k s2 = (if bool_decide (outstanding k s2 = 0) then 1 else 0) ∧
       (pending s2 = [] → fired k s2 = 1)).
Proof.
  intros Hh Hs Hch. split.
  - intros Hd fuel cb. simpl close.
    rewrite (bind_eq _ _ _ _ _ (chan_eq _ _ _ Hch)), Hd. reflexivity.
  - intros Hd k. exists (closed self ch (CbFun f) s).
    destruct (hierarchy_subList s self ch Hh Hch) as [Hnd Hni].
    pose proof (settled_closed self ch (CbFun f) s Hs (λ k0, ltac:(discriminate)))
      as Hs1.
    pose proof (closed_counter self ch (CbFun f) s Hnd Hni) as Hk. fold k in Hk.
    assert (Hcount : outstanding k (closed self ch (CbFun f) s) =
              (if serverSocket ch is Some _ then 1 else 0)
              + from_option size 0 (serverConnections ch)
              + liveCount (chans s) (subList ch) + 1
            ∧ fired k (closed self ch (CbFun f) s) = 0).
    { pose proof Hs1 as Hs1'. apply closing_alt in Hs1' as (H1 & _ & _).
      destruct (H1 _ _ Hk) as [Ha Hb]. simpl in Ha, Hb.
      assert (HS : length (serverPending self (serverSocket ch) k)
                   = if serverSocket ch is Some _ then 1 else 0).
      { destruct (serverSocket ch); reflexivity. }
      assert (HN : length (connList (serverConnections ch))
                   = from_option size 0 (serverConnections ch)).
      { destruct (serverConnections ch) as [t|]; simpl; [|reflexivity].
        rewrite length_fmap. apply length_map_to_list. }
      rewrite HS, HN in Ha, Hb. split; [lia|].
      rewrite Hb, bool_decide_eq_false_2 by lia. reflexivity. }
    split_and!.
    + intros fuel. apply close_closed; assumption.
    + unfold closed. change (chans (closeEnd ?p ?j ?t)) with (chans t).
      apply foldSub_destroyed. exists (shut ch).
      unfold closeBegin. simpl. rewrite lookup_alter_eq, Hch. done.
    + apply Hcount.
    + apply Hcount.
    + intros l s2 Hl Hrun.
      assert (Hacc : accounts (callback <$> closeEnvs (closed self ch (CbFun f) s)) s2).
      { eapply accounts_run; [exact Hl | | exact Hrun]. split; [exact Hs1 | reflexivity]. }
      destruct Hacc as [Hs2 Hcbs].
      assert (∃ e2, closeEnvs s2 !! k = Some e2 ∧ callback e2 = CbFun f)
        as (e2 & He2 & Hcb2).
      { assert (Hl2 : (callback <$> closeEnvs s2) !! k = Some (CbFun f)).
        { rewrite Hcbs, list_lookup_fmap, Hk. reflexivity. }
        rewrite list_lookup_fmap in Hl2.
        destruct (closeEnvs s2 !! k) as [e2|]; [|discriminate].
        injection Hl2 as Hl2. eauto. }
      pose proof Hs2 as Hs2'. apply closing_alt in Hs2' as (H1 & _ & _).
      destruct (H1 _ _ He2) as [Ha Hb]. rewrite Hcb2 in Hb.
      split.
      * rewrite Hb. repeat case_bool_decide; try reflexivity; lia.
      * intros Hp. rewrite Hb.
        rewrite (settled_all_closed s2 Hs2 Hp _ k e2 (le_n _) He2).
        reflexivity.
Qed.

(** *** The order of increments and starts *)

Lemma incBeforeStart_app (starts : Effect → option nat) (a b : list Effect) :
  ∀ prev,
    incBeforeStart starts prev (a ++ b) =
      incBeforeStart starts prev a &&
      incBeforeStart starts (from_option Some prev (last a)) b.
Proof.
  induction a as [|x a IH]; intros prev; [reflexivity|].
  simpl. rewrite IH. rewrite andb_assoc. do 2 f_equal.
  destruct a as [|y a]; [reflexivity|].
  rewrite last_cons_cons. destruct (last (y :: a)) eqn:E; [reflexivity|].
  apply last_None in E. discriminate.
Qed.

Lemma selfContained_app (a b : list Effect) :
  selfContained a → selfContained b → selfContained (a ++ b).
Proof.
  intros Ha Hb prev. rewrite incBeforeStart_app, Ha, Hb. reflexivity.
Qed.

Lemma selfContained_nil : selfContained [].
Proof. intros prev. reflexivity. Qed.

Lemma selfContained_server (c : loc) (ss : option ServerSocket) (k : nat) :
  selfContained (serverTrace c ss k).
Proof.
  intros prev. destruct ss as [ss|]; [|reflexivity]. simpl.
  destruct (ss_address ss); simpl; rewrite bool_decide_eq_true_2 by done;
    reflexivity.
Qed.

Lemma selfContained_conns (k : nat) (l : list loc) :
  selfContained (connTrace k l).
Proof.
  unfold connTrace. induction l as [|x l IH]; [apply selfContained_nil|].
  change (selfContained ([ECounterInc k; EConnClose x k] ++ (l ≫= λ c, [ECounterInc k; EConnClose c k]))).
  apply selfContained_app; [|exact IH].
  intros prev. simpl. rewrite bool_decide_eq_true_2 by done. reflexivity.
Qed.

Lemma countInc_app (k : nat) (a b : list Effect) :
  countInc k (a ++ b) = countInc k a + countInc k b.
Proof. apply sum_list_with_app. Qed.

Lemma countInc_server (c : loc) (ss : option ServerSocket) (j k : nat) :
  countInc j (serverTrace c ss k)
  = if bool_decide (k = j) then length (serverPending c ss k) else 0.
Proof.
  destruct ss as [ss|]; simpl; [|by case_bool_decide].
  unfold countInc. destruct (ss_address ss); simpl; case_bool_decide; reflexivity.
Qed.

Lemma countInc_conns (j k : nat) (l : list loc) :
  countInc j (connTrace k l) = if bool_decide (k = j) then length l else 0.
Proof.
  unfold connTrace. induction l as [|x l IH].
  - by case_bool_decide.
  - change (countInc j ([ECounterInc k; EConnClose x k] ++
                        (l ≫= λ c, [ECounterInc k; EConnClose c k]))
            = if bool_decide (k = j) then S (length l) else 0).
    rewrite countInc_app, IH. unfold countInc. simpl.
    case_bool_decide; reflexivity.
Qed.

Lemma closedLeaf_trace (c : loc) (ch : TChannelObj) (cb : Callback) (s : State) :
  trace (closedLeaf c ch cb s) =
    trace s ++ [EClose c cb; ECounterInit (length (closeEnvs s))] ++
      serverTrace c (serverSocket ch) (length (closeEnvs s)) ++
      connTrace (length (closeEnvs s)) (connList (serverConnections ch)) ++
      [EPeersClose (peers ch) (length (closeEnvs s))].
Proof.
  unfold closedLeaf, closeEnd, closeBegin. simpl. rewrite <- !app_assoc.
  simpl. rewrite <- !app_assoc. reflexivity.
Qed.

(** The trace of the [close] of a sub-channel, with the increment that the
    enclosing [close] makes before it. *)
Lemma closeSub_trace (k : nat) (s : State) (sub : loc) :
  k < length (closeEnvs s) →
  ∃ tr, trace (closeSub k s sub) = trace s ++ tr ∧
        selfContained tr ∧
        countInc k tr = (if live (chans s) sub then 1 else 0).
Proof.
  intros Hk. unfold closeSub, live.
  destruct (chans s !! sub) as [sc|];
    [|exists []; rewrite app_nil_r; split_and!; [done|apply selfContained_nil|done]].
  destruct (destroyed sc);
    [exists []; rewrite app_nil_r; split_and!; [done|apply selfContained_nil|done]|].
  set (j := length (closeEnvs (incremented k s))).
  assert (Hj : j ≠ k) by (unfold j; rewrite incremented_length; lia).
  exists ([ECounterInc k; EClose sub (CbOnClose k); ECounterInit j] ++
          serverTrace sub (serverSocket sc) j ++
          connTrace j (connList (serverConnections sc)) ++
          [EPeersClose (peers sc) j]).
  split_and!.
  - rewrite closedLeaf_trace. fold j.
    change (trace (incremented k s)) with (trace s ++ [ECounterInc k]).
    rewrite <- !app_assoc. reflexivity.
  - apply selfContained_app.
    + intros prev. simpl. rewrite bool_decide_eq_true_2 by done. reflexivity.
    + apply selfContained_app; [apply selfContained_server|].
      apply selfContained_app; [apply selfContained_conns|].
      intros prev. reflexivity.
  - rewrite !countInc_app, countInc_server, countInc_conns.
    rewrite !(bool_decide_eq_false_2 (j = k)) by done.
    unfold countInc. simpl. rewrite bool_decide_eq_true_2 by done. reflexivity.
Qed.

Lemma foldSub_trace (k : nat) (l : list loc) :
  ∀ s, NoDup l → k < length (closeEnvs s) →
    ∃ tr, trace (foldl (closeSub k) s l) = trace s ++ tr ∧
          selfContained tr ∧
          countInc k tr = liveCount (chans s) l.
Proof.
  induction l as [|sub l IH]; intros s Hnd Hk.
  - exists []. rewrite app_nil_r. split_and!; [done | apply selfContained_nil | done].
  - apply NoDup_cons in Hnd as [Hsub Hnd]. simpl foldl.
    destruct (closeSub_trace k s sub Hk) as (t1 & Ht1 & Hsc1 & Hc1).
    destruct (IH (closeSub k s sub) Hnd) as (t2 & Ht2 & Hsc2 & Hc2).
    { pose proof (closeSub_length k s sub). lia. }
    exists (t1 ++ t2). split_and!.
    + rewrite Ht2, Ht1, app_assoc. reflexivity.
    + apply selfContained_app; assumption.
    + rewrite countInc_app, Hc1, Hc2. unfold liveCount at 2. simpl. f_equal.
      destruct (closeSub_chans k s sub) as [-> | ->]; [reflexivity|].
      apply liveCount_alter. exact Hsub.
Qed.

(** C3 (as the code has it): in [close] the counter starts at 1; the
    listening socket, every inbound connection and every sub-channel that is
    not destroyed each get one increment, made right before their close is
    started; the close of the Peer Pool is started last and without an
    increment of its own, so that the counter then equals the number of
    closes started, the pool's included; and the completion of each of them,
    the pool's too, decrements the counter by one. *)
Theorem close_counter_protocol (self : loc) (cb : Callback) (s : State)
    (ch : TChannelObj) :
  hierarchy s → settled s → chans s !! self = Some ch → destroyed ch = false →
  (∀ k0, cb ≠ CbOnClose k0) →
  let k := length (closeEnvs s) in
  let started :=
    (if serverSocket ch is Some _ then 1 else 0)
    + from_option size 0 (serverConnections ch)
    + liveCount (chans s) (subList ch) in
  newCounter self cb s =
    Ok k (logged (ECounterInit k)
            (set_closeEnvs (λ l, l ++ [mkCloseEnv 1 cb self]) s)) ∧
  ∃ s1 tr e1,
    (∀ fuel, close (S (S fuel)) self cb s = Ok () s1) ∧
    trace s1 = trace s ++ [EClose self cb; ECounterInit k] ++ tr ++
                 [EPeersClose (peers ch) k] ∧
    incBeforeStart startsButPool None
      ([EClose self cb; ECounterInit k] ++ tr ++ [EPeersClose (peers ch) k])
      = true ∧
    countInc k tr = started ∧
    closeEnvs s1 !! k = Some e1 ∧
    counter e1 = (1 + Z.of_nat (countInc k tr))%Z ∧
    outstanding k s1 = started + 1 ∧
    ∀ i r, pending s1 !! i = Some (AwaitClose r k) →
      ∃ s2 e2, completes i s1 = Ok () s2 ∧ closeEnvs s2 !! k = Some e2 ∧
               counter e2 = (counter e1 - 1)%Z.
Proof.
  intros Hh Hs Hch Hd Hcb k started. split; [reflexivity|].
  destruct (hierarchy_subList s self ch Hh Hch) as [Hnd Hni].
  pose proof (settled_closed self ch cb s Hs Hcb) as Hs1.
  pose proof (closed_counter self ch cb s Hnd Hni) as Hk. fold k in Hk.
  assert (HS : length (serverPending self (serverSocket ch) k)
               = if serverSocket ch is Some _ then 1 else 0).
  { destruct (serverSocket ch); reflexivity. }
  assert (HN : length (connList (serverConnections ch))
               = from_option size 0 (serverConnections ch)).
  { destruct (serverConnections ch) as [t|]; simpl; [|reflexivity].
    rewrite length_fmap. apply length_map_to_list. }
  destruct (foldSub_trace k (subList ch) (closeBegin self ch cb s) Hnd)
    as (t3 & Ht3 & Hsc3 & Hc3).
  { unfold closeBegin. simpl. rewrite length_app. simpl. unfold k. lia. }
  assert (Hlive : liveCount (chans (closeBegin self ch cb s)) (subList ch)
                  = liveCount (chans s) (subList ch)).
  { unfold closeBegin. simpl. apply liveCount_alter. exact Hni. }
  rewrite Hlive in Hc3.
  set (tr := serverTrace self (serverSocket ch) k ++
             connTrace k (connList (serverConnections ch)) ++ t3).
  assert (Hinc : countInc k tr = started).
  { unfold tr, started. rewrite !countInc_app, countInc_server, countInc_conns, Hc3.
    rewrite !bool_decide_eq_true_2 by done. rewrite HS, HN. lia. }
  eexists (closed self ch cb s), tr, _. split_and!.
  - intros fuel. apply close_closed; assumption.
  - unfold closed. cbv zeta. fold k.
    change (trace (closeEnd ?p ?j ?t)) with (trace t ++ [EPeersClose p j]).
    rewrite Ht3. unfold closeBegin, tr. simpl trace. fold k.
    rewrite <- !app_assoc. simpl. rewrite <- !app_assoc. reflexivity.
  - assert (Hsc : selfContained
              ([EClose self cb; ECounterInit k] ++ tr ++ [EPeersClose (peers ch) k])).
    { apply selfContained_app.
      - intros prev. destruct cb as [|f|k0]; try reflexivity. destruct (Hcb k0 eq_refl).
      - apply selfContained_app.
        + unfold tr. apply selfContained_app; [apply selfContained_server|].
          apply selfContained_app; [apply selfContained_conns | exact Hsc3].
        + intros prev. reflexivity. }
    apply Hsc.
  - exact Hinc.
  - exact Hk.
  - simpl. rewrite Hinc. unfold started. rewrite HS, HN. lia.
  - pose proof Hs1 as Hs1'. apply closing_alt in Hs1' as (H1 & _ & _).
    destruct (H1 _ _ Hk) as [Ha _]. simpl in Ha. rewrite HS, HN in Ha.
    unfold started. lia.
  - intros i r Hi.
    destruct (completes_settled i _ r k Hs1 Hi)
      as (s2 & e & e2 & Hrun & _ & He & He2 & Hc & _).
    rewrite Hk in He. injection He as <-.
    exists s2, e2. split_and!; assumption.
Qed.

(** ** The rest of the channel core *)

(** *** address *)

Lemma linked_top (s : State) (c t : loc) (ch : TChannelObj) :
  linked s → chans s !! c = Some ch → topChannel ch = Some t →
  ∃ top, chans s !! t = Some top ∧ serviceName top = "" ∧ topChannel top = None.
Proof.
  intros Hl Hch Ht. destruct (Hl c ch Hch) as [H _]. rewrite Ht in H.
  destruct H as [_ H]. destruct (chans s !! t) as [top|] eqn:E; [|done].
  simpl in H. exists top. split_and!; try done.
  destruct (Hl t top E) as [H' _].
  destruct (topChannel top); [|done]. destruct H' as [H' _]. done.
Qed.

Lemma linked_sub (s : State) (c sub : loc) (ch : TChannelObj)
    (subs : gmap string loc) (name : string) :
  linked s → chans s !! c = Some ch → subChannels ch = Some subs →
  subs !! name = Some sub →
  ∃ sc, chans s !! sub = Some sc ∧ topChannel sc = Some c ∧ serviceName sc = name.
Proof.
  intros Hl Hch Hs Hn. destruct (Hl c ch Hch) as [_ H]. rewrite Hs in H.
  specialize (H name sub Hn). simpl in H.
  destruct (chans s !! sub) as [sc|]; [|done]. exists sc. simpl in H. tauto.
Qed.

(** X1: [address] ends after at most one step up the hierarchy, writes
    nothing, and answers with the address of the channel's own server
    socket if it has one, else with that of its top channel's, else with
    [null]; a socket that is not bound yet gives [null]. *)
Theorem address_resolves (self : loc) (s : State) (ch : TChannelObj) (fuel : nat) :
  linked s → chans s !! self = Some ch →
  address (S (S fuel)) self s =
    Ok (match serverSocket ch with
        | Some ss => ss_address ss
        | None =>
            ((topChannel ch ≫= (λ t, chans s !! t)) ≫= serverSocket) ≫= ss_address
        end) s.
Proof.
  intros Hl Hch. simpl. rewrite (bind_eq _ _ _ _ _ (chan_eq _ _ _ Hch)).
  destruct (serverSocket ch) as [ss|]; [reflexivity|].
  destruct (topChannel ch) as [t|] eqn:Ht; [|reflexivity].
  destruct (linked_top s self t ch Hl Hch Ht) as (top & Htop & _ & Hnone).
  rewrite (bind_eq _ _ _ _ _ (chan_eq _ _ _ Htop)). simpl. rewrite Htop. simpl.
  destruct (serverSocket top) as [ss|]; [reflexivity|]. rewrite Hnone.
  destruct fuel; reflexivity.
Qed.

(** *** getServer *)

(** X2: the server socket is made once: a second [getServer] changes
    nothing, whatever the store, so [getServer] twice is [getServer]. When it
    returns, the channel has a server socket and an inbound table, and a
    socket that was there before is left as it was. *)
Theorem getServer_idempotent (self : loc) (s : State) :
  (getServer self ;; getServer self) s = getServer self s ∧
  ∀ s', getServer self s = Ok () s' →
    ∃ ch ch', chans s !! self = Some ch ∧ chans s' !! self = Some ch' ∧
      is_Some (serverSocket ch') ∧
      (is_Some (serverSocket ch) → s' = s) ∧
      (serverSocket ch = None →
         serverSocket ch' = Some (mkServerSocket None None) ∧
         serverConnections ch' = Some ∅ ∧
         trace s' = trace s ++ [ECreateServer self; EServerOn self "listening";
                                EServerOn self "error"]).
Proof.
  unfold getServer. destruct (chans s !! self) as [ch|] eqn:Hch.
  - rewrite bind_bind, !(bind_eq _ _ _ _ _ (chan_eq _ _ _ Hch)).
    destruct (serverSocket ch) as [ss|] eqn:Hss.
    + rewrite bind_ret, (bind_eq _ _ _ _ _ (chan_eq _ _ _ Hch)), Hss.
      split; [reflexivity|]. intros s' [= <-]. exists ch, ch.
      rewrite Hss. split_and!; eauto; done.
    + split.
      * run_monad. rewrite !lookup_alter_eq, Hch. reflexivity.
      * run_monad. intros s' [= <-]. simpl. rewrite !lookup_alter_eq, Hch. simpl.
        eexists _, _. split_and!; try reflexivity; eauto.
        -- intros [? ?]. congruence.
        -- intros _. rewrite <- !app_assoc. split_and!; reflexivity.
  - split.
    + unfold mbind, M_bind, chan. rewrite Hch. reflexivity.
    + unfold mbind, M_bind, chan. rewrite Hch. discriminate.
Qed.

(** *** makeSubChannel, refused *)

(** X3: [makeSubChannel] checks, in this order, that the caller is a top
    channel, that a service name is given and that the name is not taken;
    a failed check throws and leaves the store as it was: no channel and no
    pool is made. A name counts as taken when a sub-channel is registered
    under it, and also when the registry inherits a member of that name from
    [Object.prototype]. *)
Theorem makeSubChannel_rejects (self : loc) (opts : Options) (s : State)
    (ch : TChannelObj) :
  chans s !! self = Some ch →
  (serviceName ch ≠ "" →
     makeSubChannel self opts s =
       Throw (AssertionError "arbitrary-depth sub channels are unsupported") s) ∧
  (serviceName ch = "" → o_serviceName opts = "" →
     makeSubChannel self opts s =
       Throw (AssertionError "must specify serviceName") s) ∧
  (∀ subs sub,
     serviceName ch = "" → o_serviceName opts ≠ "" →
     subChannels ch = Some subs → subs !! o_serviceName opts = Some sub →
     makeSubChannel self opts s =
       Throw (AssertionError "duplicate sub channel creation") s) ∧
  (∀ subs,
     serviceName ch = "" → subChannels ch = Some subs →
     o_serviceName opts ∈ objectPrototype →
     makeSubChannel self opts s =
       Throw (AssertionError "duplicate sub channel creation") s).
Proof.
  intros Hch. unfold makeSubChannel.
  rewrite (bind_eq _ _ _ _ _ (chan_eq _ _ _ Hch)). split_and!.
  - intros Hn. apply String.eqb_neq in Hn. rewrite Hn. reflexivity.
  - intros Hn Ho. rewrite Hn, Ho. reflexivity.
  - intros subs sub Hn Ho Hs Hsub. rewrite Hn. apply String.eqb_neq in Ho.
    unfold mbind, M_bind, assert. simpl. rewrite Ho, Hs. simpl.
    rewrite bool_decide_eq_false_2 by (unfold read; rewrite Hsub; discriminate).
    reflexivity.
  - intros subs Hn Hs Hin. rewrite Hn.
    assert (Ho : String.eqb (o_serviceName opts) "" = false).
    { apply String.eqb_neq. intros E. rewrite E in Hin.
      apply (bool_decide_pack _) in Hin. vm_compute in Hin. exact Hin. }
    unfold mbind, M_bind, assert. simpl. rewrite Ho, Hs. simpl.
    rewrite bool_decide_eq_false_2; [reflexivity|].
    unfold read, inherited. rewrite (bool_decide_eq_true_2 _ Hin).
    destruct (subs !! o_serviceName opts); discriminate.
Qed.

(** *** A completion too many *)

(** X4: [onClose] does not guard against a resource that signals its
    completion once more than counted: when the counter is at 1 or below,
    [onClose] invokes the callback, and the next [onClose] takes the
    counter below 0, logs "closed more channel sockets than expected",
    does not throw and invokes the callback once more. *)
Theorem over_completion_calls_back_again (fuel k : nat) (s : State)
    (e : CloseEnv) (f : nat) :
  closeEnvs s !! k = Some e → callback e = CbFun f → (counter e ≤ 1)%Z →
  ∃ s1 s2,
    onClose (S fuel) k s = Ok () s1 ∧
    onClose (S fuel) k s1 = Ok () s2 ∧
    fired k s1 = fired k s + 1 ∧
    fired k s2 = fired k s + 2 ∧
    trace s2 = trace s1 ++
      [ECounterDec k;
       ELoggerError "closed more channel sockets than expected";
       ECallback k f] ∧
    counter <$> closeEnvs s2 !! k = Some (counter e - 2)%Z ∧
    chans s2 = chans s ∧ pending s2 = pending s.
Proof.
  intros He Hcb Hle.
  assert (Hk : k < length (closeEnvs s)) by (eapply lookup_lt_Some; exact He).
  set (e1 := mkCloseEnv (counter e - 1) (CbFun f) (env_self e)).
  assert (H1 : ∃ s1, onClose (S fuel) k s = Ok () s1 ∧
                 closeEnvs s1 = <[k := e1]> (closeEnvs s) ∧
                 fired k s1 = fired k s + 1 ∧ chans s1 = chans s ∧
                 pending s1 = pending s).
  { simpl onClose. rewrite (bind_eq _ _ _ _ _ (closeEnv_eq _ _ _ He)).
    rewrite bind_modify, bind_effect.
    rewrite (proj2 (Z.leb_le _ _)) by lia. rewrite Hcb.
    destruct (Z.ltb_spec (counter e - 1) 0).
    - rewrite bind_effect. eexists. split; [reflexivity|].
      unfold fired, firedIn. simpl. rewrite !sum_list_with_app. simpl.
      rewrite bool_decide_eq_true_2 by done. split_and!; try done; lia.
    - rewrite bind_ret. eexists. split; [reflexivity|].
      unfold fired, firedIn. simpl. rewrite !sum_list_with_app. simpl.
      rewrite bool_decide_eq_true_2 by done. split_and!; try done; lia. }
  destruct H1 as (s1 & Hrun1 & Henv1 & Hf1 & Hc1 & Hp1).
  assert (He1 : closeEnvs s1 !! k = Some e1).
  { rewrite Henv1. apply list_lookup_insert_eq. exact Hk. }
  exists s1. eexists. split; [exact Hrun1|].
  simpl onClose. rewrite (bind_eq _ _ _ _ _ (closeEnv_eq _ _ _ He1)).
  rewrite bind_modify, bind_effect.
  change (counter e1) with (counter e - 1)%Z. change (callback e1) with (CbFun f).
  rewrite (proj2 (Z.leb_le _ _)) by lia.
  rewrite (proj2 (Z.ltb_lt _ _)) by lia. rewrite bind_effect.
  split; [reflexivity|].
  unfold fired, firedIn in *. simpl. rewrite !sum_list_with_app. simpl.
  rewrite bool_decide_eq_true_2 by done.
  split_and!; try done; try lia.
  - rewrite <- !app_assoc. reflexivity.
  - rewrite list_lookup_insert_eq by (rewrite Henv1, length_insert; exact Hk).
    simpl. f_equal. lia.
Qed.

(** *** The handler a channel is made with *)

(** X5: the constructor never fails and makes the channel at the next free
    location. Without a [handler] option a channel without a service name
    gets the service-name handler, so [register] on it throws
    [TopLevelRegisterError], and a channel with a service name gets an
    endpoint handler, so [register] on it hands the endpoint over; a
    [handler] option of another type makes [register] throw
    [InvalidHandlerForRegister]. *)
Theorem constructed_register (opts : Options) (name : string) (fn : nat)
    (s : State) :
  ∃ s1,
    TChannel opts s = Ok (nextLoc s) s1 ∧
    (o_handler opts = None → o_serviceName opts = "" →
       register (nextLoc s) name fn s1 = Throw TopLevelRegisterError s1) ∧
    (o_handler opts = None → o_serviceName opts ≠ "" →
       register (nextLoc s) name fn s1 =
         Ok () (logged (EHandlerRegister (nextLoc s) name fn) s1)) ∧
    (∀ t, o_handler opts = Some (CustomHandler t) →
       t ≠ VStr "tchannel.endpoint-handler" →
       t ≠ VStr "tchannel.service-name-handler" →
       register (nextLoc s) name fn s1 =
         Throw (InvalidHandlerForRegister t (CustomHandler t)) s1).
Proof.
  destruct (TChannel_Ok opts s) as
    (s1 & new & Hrun & Hc & _ & _ & _ & _ & _ & _ & _ & _ & _ & _ & _ & _ & _ & _ &
     _ & _ & _ & _ & H).
  assert (Hnew : chans s1 !! nextLoc s = Some new).
  { rewrite Hc. apply lookup_insert_eq. }
  exists s1. split; [exact Hrun|]. unfold register.
  rewrite (bind_eq _ _ _ _ _ (chan_eq _ _ _ Hnew)), H. split_and!.
  - intros -> ->. reflexivity.
  - intros -> Hn. apply String.eqb_neq in Hn. rewrite Hn. reflexivity.
  - intros t -> H1 H2. simpl. rewrite !bool_decide_eq_false_2 by done. reflexivity.
Qed.

(** *** What request leaves alone *)

(** X6: [request] writes nothing to the store. When it throws (the channel
    it ends on is destroyed, or a top channel has no sub-channel to hand the
    request to, or finds a member of [Object.prototype] in its place) it has
    done nothing at all; when it returns it has made one
    request, through the pool or single-shot, and emitted one [request]
    event carrying it, and nothing else. *)
Theorem request_writes_nothing (fuel : nat) :
  ∀ (self : loc) (opt : gmap string value) (s : State),
    match request fuel self opt s with
    | Ok req s' =>
        sameStore s s' ∧
        ∃ c made, trace s' = trace s ++ [made; EEmit c (EvRequest req)] ∧
          match req with
          | PoolRequest p o => made = EPeersRequest p o
          | TChannelRequest c' o => made = ENewRequest c' o ∧ c' = c
          end
    | Throw e s' =>
        s' = s ∧
        (e = UseAfterCloseError ∨ e = TopLevelRequestError ∨ e = TypeError)
    | OutOfFuel => True
    end.
Proof.
  induction fuel as [|fuel IH]; intros self opt s; [exact I|].
  simpl. unfold mbind at 1, M_bind at 1, chan.
  destruct (chans s !! self) as [ch|]; [|auto].
  unfold mbind at 1, M_bind at 1, assert.
  destruct (destroyed ch); simpl; [auto|].
  match goal with |- context [if ?b then _ else _] => destruct b end.
  - match goal with |- context [match ?x with Some _ => _ | None => _ end] =>
      destruct x as [[sub|]|] end; [apply IH | unfold throw; auto..].
  - match goal with |- context [if ?b then _ else _] => destruct b end;
      simpl; (split; [unfold sameStore; simpl; done|]);
      eexists _, _; (split; [rewrite <- app_assoc; reflexivity | done]).
Qed.

(** *** Where the options of a request come from *)

(** X7: a request on a channel that was just made carries, for every key
    but [service], the caller's option if there is one, else the channel's
    [requestDefaults] option, else, for [timeout],
    [TChannelRequest.defaultTimeout]; with tracing switched on and
    [requestDefaults.trace] not [false], the default for [trace] is [true].
    On a channel with a service name the request is made with exactly
    these options. *)
Theorem request_option_precedence (opts : Options) (opt : gmap string value)
    (s : State) :
  ∃ s1 new,
    TChannel opts s = Ok (nextLoc s) s1 ∧
    chans s1 !! nextLoc s = Some new ∧
    (∀ k, k ≠ "service" →
       requestOptions new opt !! k =
         match opt !! k with
         | Some v => Some v
         | None => requestDefaults new !! k
         end) ∧
    (∀ k, k ≠ "trace" →
       requestDefaults new !! k =
         match default ∅ (o_requestDefaults opts) !! k with
         | Some v => Some v
         | None => if bool_decide (k = "timeout") then Some defaultTimeout else None
         end) ∧
    (o_trace opts = Some true →
     default ∅ (o_requestDefaults opts) !! "trace" ≠ Some (VBool false) →
       requestDefaults new !! "trace" = Some (VBool true)) ∧
    (o_serviceName opts ≠ "" →
       ∃ req s2, request 1 (nextLoc s) opt s1 = Ok req s2 ∧
         (req = TChannelRequest (nextLoc s) (requestOptions new opt) ∨
          req = PoolRequest (peers new) (requestOptions new opt))).
Proof.
  unfold TChannel, TChannelPeers. run_monad.
  set (rd := default ∅ (o_requestDefaults opts) ∪ <["timeout" := defaultTimeout]> ∅).
  assert (Hrd : ∀ k, rd !! k =
            match default ∅ (o_requestDefaults opts) !! k with
            | Some v => Some v
            | None => if bool_decide (k = "timeout") then Some defaultTimeout else None
            end).
  { intros k. unfold rd. rewrite lookup_union.
    destruct (default ∅ (o_requestDefaults opts) !! k) as [v|]; simpl.
    - destruct (_ !! k); reflexivity.
    - case_bool_decide as Hk.
      + subst k. rewrite lookup_insert_eq. reflexivity.
      + rewrite lookup_insert_ne by done. reflexivity. }
  assert (Hopt : ∀ (ch : TChannelObj) k, k ≠ "service" →
            requestOptions ch opt !! k =
              match opt !! k with Some v => Some v | None => requestDefaults ch !! k end).
  { intros ch k Hk. unfold requestOptions.
    match goal with |- context [if ?b then _ else _] => destruct b end;
      rewrite ?lookup_insert_ne by done; rewrite lookup_union;
      destruct (opt !! k); destruct (requestDefaults ch !! k); reflexivity. }
  assert (Hreq : ∀ (t : State) (new : TChannelObj),
            chans t !! nextLoc s = Some new → destroyed new = false →
            serviceName new ≠ "" →
            ∃ req s2, request 1 (nextLoc s) opt t = Ok req s2 ∧
              (req = TChannelRequest (nextLoc s) (requestOptions new opt) ∨
               req = PoolRequest (peers new) (requestOptions new opt))).
  { intros t new Hnew Hd Hn. simpl.
    rewrite (bind_eq _ _ _ _ _ (chan_eq _ _ _ Hnew)), Hd.
    change (negb false) with true. rewrite bind_assert_true.
    replace (negb (serviceName new =? "")%string) with true
      by (symmetry; apply negb_true_iff, String.eqb_neq; exact Hn).
    simpl.
    match goal with |- context [if ?b then _ else _] => destruct b end;
      eexists _, _; (split; [reflexivity|]); auto. }
  destruct (bool_decide (o_trace opts = Some true)) eqn:Htr; simpl.
  - eexists _, _. split; [reflexivity|].
    split; [simpl; apply lookup_insert_eq|]. split_and!.
    + intros k Hk. apply Hopt. exact Hk.
    + intros k Hk. cbn [requestDefaults]. fold rd.
      destruct (bool_decide (prop rd "trace" = VBool false)); simpl;
        rewrite ?lookup_insert_ne by done; apply Hrd.
    + intros _ Hne. cbn [requestDefaults]. fold rd.
      rewrite bool_decide_eq_false_2; [simpl; apply lookup_insert_eq|].
      unfold prop. rewrite Hrd.
      destruct (default ∅ (o_requestDefaults opts) !! "trace") as [v|]; simpl;
        [congruence | discriminate].
    + intros Hn. apply Hreq; [simpl; apply lookup_insert_eq | reflexivity | exact Hn].
  - eexists _, _. split; [reflexivity|].
    split; [simpl; apply lookup_insert_eq|]. split_and!.
    + intros k Hk. apply Hopt. exact Hk.
    + intros k Hk. apply Hrd.
    + intros Ht. apply bool_decide_eq_false_1 in Htr. done.
    + intros Hn. apply Hreq; [simpl; apply lookup_insert_eq | reflexivity | exact Hn].
Qed.

(** *** The bind completes *)

Lemma hierarchy_chans (s t : State) :
  chans t = chans s → hierarchy s → hierarchy t.
Proof.
  intros E H. unfold hierarchy, isSubChannel in *. rewrite E. exact H.
Qed.

Lemma hierarchy_update (c : loc) (f : TChannelObj → TChannelObj) (s : State) :
  (∀ ch, chans s !! c = Some ch →
     serviceName (f ch) = serviceName ch ∧ subChannels (f ch) = subChannels ch) →
  hierarchy s → hierarchy (set_chans (alter f c) s).
Proof.
  intros Hf H.
  assert (Hsub : ∀ sub, isSubChannel s sub →
                   isSubChannel (set_chans (alter f c) s) sub).
  { intros sub. unfold isSubChannel. simpl. rewrite lookup_alter.
    case_decide; subst; destruct (chans s !! sub) as [x|] eqn:E; simpl; try done.
    rewrite (proj2 (Hf x eq_refl)). done. }
  intros i ch Hi. simpl in Hi.
  apply lookup_alter_Some in Hi as [(-> & ch0 & Hi & ->)|[Hne Hi]].
  - destruct (Hf ch0 Hi) as [E1 E2]. rewrite E1, E2.
    destruct (H _ _ Hi) as (H1 & H2 & H3). split_and!; try done.
    intros n sub Hn. apply Hsub. exact (H2 n sub Hn).
  - destruct (H _ _ Hi) as (H1 & H2 & H3). split_and!; try done.
    intros n sub Hn. apply Hsub. exact (H2 n sub Hn).
Qed.

(** The [listening] event on a channel that is not destroyed is [bound]. *)
Lemma onServerSocketListening_bound (self : loc) (s : State) (ch : TChannelObj)
    (ss : ServerSocket) (port : Z) :
  hierarchy s → chans s !! self = Some ch →
  serverSocket ch = Some ss → ss_address ss = Some port → destroyed ch = false →
  onServerSocketListening self s = Ok () (bound self ch port s).
Proof.
  intros Hh Hch Hss Haddr Hd. unfold onServerSocketListening.
  rewrite (bind_eq _ _ _ _ _ (chan_eq _ _ _ Hch)), Hss. simpl. rewrite Haddr, Hd.
  rewrite (bind_eq _ _ _ _ _ (update_eq _ _ _)).
  rewrite (bind_eq _ _ _ _ _ (update_eq _ _ _)).
  unfold bound. cbv zeta.
  set (hp := VStr (toStr (host ch) +:+ ":" +:+ pretty port)).
  remember (set_chans (alter (with_listening true) self)
              (set_chans (alter (with_hostPort hp) self) s)) as t2 eqn:Et2.
  set (top2 := with_listening true (with_hostPort hp ch)).
  assert (Htop2 : chans t2 !! self = Some top2).
  { subst t2. simpl. rewrite !lookup_alter_eq, Hch. reflexivity. }
  assert (Hother : ∀ x, x ≠ self → chans t2 !! x = chans s !! x).
  { intros x Hx. subst t2. simpl. rewrite !lookup_alter_ne by done. done. }
  clear Et2.
  destruct (subChannels ch) as [subs|] eqn:Hsubs.
  - assert (Hall : ∀ x, x ∈ map_to_list subs → is_Some (chans t2 !! x.2)).
    { intros [name sub] Hx. apply elem_of_map_to_list in Hx. simpl.
      destruct (hierarchy_sub _ _ _ _ _ _ Hh Hch Hsubs Hx) as (sc & Hsc & _ & Hne).
      rewrite Hother by done. eauto. }
    rewrite (bind_eq _ _ _ _ _ (propagate_loop self hp _ t2 top2 Htop2 eq_refl Hall)).
    reflexivity.
  - rewrite bind_ret. simpl. rewrite map_to_list_empty. unfold propagate. simpl.
    rewrite set_chans_id. reflexivity.
Qed.

Lemma with_closedServer_idemp (ch : TChannelObj) :
  with_closedServer (with_closedServer ch) = with_closedServer ch.
Proof. destruct ch as [? ? ? ? ? ? ? ? ? ? ? ? ? ? [?|] ?]; reflexivity. Qed.

Lemma resumedChans_ne (self x : loc) (l : list nat) :
  ∀ m, x ≠ self → resumedChans self l m !! x = m !! x.
Proof.
  induction l as [|k l IH]; intros m Hx; [reflexivity|].
  unfold resumedChans in *. simpl. rewrite IH by done.
  apply lookup_alter_ne. done.
Qed.

Lemma resumedChans_self (self : loc) (l : list nat) :
  ∀ m, resumedChans self l m !! self =
       (if l is [] then id else with_closedServer) <$> m !! self.
Proof.
  induction l as [|k l IH]; intros m.
  - simpl. destruct (m !! self); reflexivity.
  - unfold resumedChans in *. simpl. rewrite IH, lookup_alter_eq.
    destruct (m !! self) as [x|]; [|destruct l; reflexivity].
    destruct l; simpl; [reflexivity|]. rewrite with_closedServer_idemp. reflexivity.
Qed.

Lemma resumedChans_hostPort (self x : loc) (l : list nat)
    (m : gmap loc TChannelObj) :
  hostPort <$> resumedChans self l m !! x = hostPort <$> m !! x.
Proof.
  destruct (decide (x = self)) as [->|Hne].
  - rewrite resumedChans_self. destruct (m !! self); destruct l; reflexivity.
  - rewrite resumedChans_ne by done. reflexivity.
Qed.

Lemma server_close_eq (self : loc) (s : State) :
  server_close self s =
    Ok () (logged (EServerClose self) (set_chans (alter with_closedServer self) s)).
Proof. reflexivity. Qed.

Lemma resumeLoop_eq (self : loc) (l : list nat) :
  ∀ s, forEach l (λ k, effect (EServerOnce self "close" k) ;;
                        server_close self) s =
       Ok () (mkState (resumedChans self l (chans s)) (pools s) (peerObjs s)
                (conns s) (nextLoc s)
                (closeEnvs s) (pending s) (socketClose s)
                (trace s ++ (l ≫= λ k, [EServerOnce self "close" k;
                                        EServerClose self]))).
Proof.
  induction l as [|k l IH]; intros s.
  - simpl. rewrite app_nil_r. destruct s; reflexivity.
  - cbn [forEach]. rewrite bind_bind, bind_effect.
    rewrite (bind_eq _ _ _ _ _ (server_close_eq _ _)), IH. simpl.
    rewrite <- !app_assoc. reflexivity.
Qed.

Lemma resumeCloses_eq (self : loc) (s : State) :
  resumeCloses self s =
    Ok () (mkState (resumedChans self (waitingForListening self (pending s)) (chans s))
             (pools s) (peerObjs s) (conns s) (nextLoc s)
             (closeEnvs s) (resumed self <$> pending s) (socketClose s)
             (trace s ++ resumeTrace self (pending s))).
Proof.
  unfold resumeCloses. rewrite bind_gets.
  rewrite (bind_eq _ _ _ _ _ (resumeLoop_eq _ _ _)). reflexivity.
Qed.

(** The state of the channels after the bind of [self] has completed. *)
Lemma serverListening_chans (self : loc) (port : Z) (s : State)
    (ch : TChannelObj) (ss : ServerSocket) :
  hierarchy s → chans s !! self = Some ch → serverSocket ch = Some ss →
  let ch1 := with_serverSocket (Some (mkServerSocket (Some port) (ss_callback ss))) ch in
  let s1 := set_chans (alter (λ _, ch1) self) s in
  ∃ s', serverListening self port s = Ok () s' ∧
    chans s' =
      resumedChans self (waitingForListening self (pending s))
        (if destroyed ch then chans s1 else chans (bound self ch1 port s1)) ∧
    pending s' = resumed self <$> pending s ∧
    closeEnvs s' = closeEnvs s ∧ nextLoc s' = nextLoc s ∧
    trace s' = trace s ++
      [if destroyed ch
       then ELoggerError "got serverSocket listen whilst destroyed"
       else EEmit self EvListening] ++
      from_option (λ f, [ECall f]) [] (ss_callback ss) ++
      resumeTrace self (pending s).
Proof.
  intros Hh Hch Hss ch1 s1. unfold serverListening.
  rewrite (bind_eq _ _ _ _ _ (chan_eq _ _ _ Hch)), Hss.
  rewrite (bind_eq _ _ _ _ _ (update_eq _ _ _)).
  assert (Es1 : set_chans
                  (alter (with_serverSocket
                            (Some (mkServerSocket (Some port) (ss_callback ss)))) self) s
                = s1).
  { unfold s1, set_chans. f_equal. apply alter_ext. intros x Hx.
    rewrite Hch in Hx. injection Hx as <-. reflexivity. }
  rewrite Es1.
  assert (Hch1 : chans s1 !! self = Some ch1).
  { unfold s1. simpl. rewrite lookup_alter_eq, Hch. reflexivity. }
  assert (Hh1 : hierarchy s1).
  { rewrite <- Es1. apply hierarchy_update; [|exact Hh]. intros x _. split; reflexivity. }
  destruct (destroyed ch) eqn:Hd.
  - assert (E : onServerSocketListening self s1 =
                Ok () (logged (ELoggerError "got serverSocket listen whilst destroyed") s1)).
    { unfold onServerSocketListening.
      rewrite (bind_eq _ _ _ _ _ (chan_eq _ _ _ Hch1)). simpl. rewrite Hd. reflexivity. }
    rewrite (bind_eq _ _ _ _ _ E).
    destruct (ss_callback ss) as [f|]; simpl.
    + rewrite bind_effect, resumeCloses_eq. eexists. split; [reflexivity|]. simpl.
      split_and!; try reflexivity. rewrite <- !app_assoc. reflexivity.
    + rewrite bind_ret, resumeCloses_eq. eexists. split; [reflexivity|]. simpl.
      split_and!; try reflexivity. rewrite <- !app_assoc. reflexivity.
  - rewrite (bind_eq _ _ _ _ _
               (onServerSocketListening_bound self s1 ch1 _ port Hh1 Hch1 eq_refl eq_refl Hd)).
    destruct (ss_callback ss) as [f|]; simpl.
    + rewrite bind_effect, resumeCloses_eq. eexists. split; [reflexivity|]. simpl.
      split_and!; try reflexivity. rewrite <- !app_assoc. reflexivity.
    + rewrite bind_ret, resumeCloses_eq. eexists. split; [reflexivity|]. simpl.
      split_and!; try reflexivity. rewrite <- !app_assoc. reflexivity.
Qed.

(** A successful [listen], in one piece. *)
Lemma listen_Ok (self : loc) (p : Z) (h : string) (cb : option nat) (s : State)
    (ch : TChannelObj) :
  chans s !! self = Some ch → listened ch = false → h ≠ "0.0.0.0" →
  ∃ s1 ch1,
    listen self (VNum p) (VStr h) cb s = Ok () s1 ∧
    chans s1 = alter (λ _, ch1) self (chans s) ∧
    listened ch1 = true ∧ host ch1 = VStr h ∧ requestedPort ch1 = VNum p ∧
    serverSocket ch1 =
      Some (mkServerSocket (serverSocket ch ≫= ss_address) cb) ∧
    serverConnections ch1 =
      (if serverSocket ch is Some _ then serverConnections ch else Some ∅) ∧
    hostPort ch1 = hostPort ch ∧ listening ch1 = listening ch ∧
    destroyed ch1 = destroyed ch ∧ serviceName ch1 = serviceName ch ∧
    subChannels ch1 = subChannels ch ∧ topChannel ch1 = topChannel ch ∧
    peers ch1 = peers ch ∧
    pools s1 = pools s ∧ peerObjs s1 = peerObjs s ∧ conns s1 = conns s ∧
    nextLoc s1 = nextLoc s ∧ closeEnvs s1 = closeEnvs s ∧
    pending s1 = pending s ∧ socketClose s1 = socketClose s ∧
    trace s1 = trace s ++
      (if serverSocket ch is Some _ then []
       else [ECreateServer self; EServerOn self "listening"; EServerOn self "error"]) ++
      [EServerListen self p h cb].
Proof.
  intros Hch Hl Hne. unfold listen, getServer, server_listen. run_monad.
  rewrite Hch. simpl. rewrite Hl. simpl.
  rewrite bool_decide_eq_false_2 by congruence. simpl.
  rewrite lookup_alter_eq, Hch. simpl.
  destruct (serverSocket ch) as [ss|] eqn:Hss; simpl.
  - eexists _, (with_serverSocket (Some (mkServerSocket (ss_address ss) cb))
                  (with_listen (VNum p) (VStr h) ch)).
    split; [reflexivity|]. simpl. split_and!; try reflexivity.
    + apply map_eq. intros i. destruct (decide (i = self)) as [->|Hi].
      * rewrite !lookup_alter_eq, Hch. simpl. rewrite Hss. reflexivity.
      * rewrite !lookup_alter_ne by done. reflexivity.
  - eexists _, (with_serverSocket (Some (mkServerSocket None cb))
                  (with_serverSocket (Some (mkServerSocket None None))
                     (with_serverConnections (Some ∅)
                        (with_listen (VNum p) (VStr h) ch)))).
    split; [reflexivity|]. simpl. split_and!; try reflexivity.
    + apply map_eq. intros i. destruct (decide (i = self)) as [->|Hi].
      * rewrite !lookup_alter_eq, Hch. reflexivity.
      * rewrite !lookup_alter_ne by done. reflexivity.
    + rewrite <- !app_assoc. reflexivity.
Qed.

Lemma hierarchy_const (c : loc) (ch ch1 : TChannelObj) (s t : State) :
  chans s !! c = Some ch → chans t = alter (λ _, ch1) c (chans s) →
  serviceName ch1 = serviceName ch → subChannels ch1 = subChannels ch →
  hierarchy s → hierarchy t.
Proof.
  intros Hch Ht E1 E2 Hh.
  apply (hierarchy_chans (set_chans (alter (λ _, ch1) c) s)); [exact Ht|].
  apply hierarchy_update; [|exact Hh]. intros x Hx.
  rewrite Hch in Hx. injection Hx as <-. done.
Qed.

(** X8: from [listen] to the [listening] event. The host given to [listen]
    and the port the socket was bound to, not the port asked for, make up
    [hostPort]; [listening] is set only then; the [listening] event is
    emitted before the callback given to [listen] is invoked. *)
Theorem listen_then_bind (self : loc) (p port : Z) (h : string)
    (cb : option nat) (s : State) (ch : TChannelObj) :
  hierarchy s → chans s !! self = Some ch →
  listened ch = false → destroyed ch = false → h ≠ "0.0.0.0" →
  ∃ s1 s2 ch1 ch2,
    listen self (VNum p) (VStr h) cb s = Ok () s1 ∧
    chans s1 !! self = Some ch1 ∧
    hostPort ch1 = hostPort ch ∧ listening ch1 = listening ch ∧
    serverListening self port s1 = Ok () s2 ∧
    chans s2 !! self = Some ch2 ∧
    hostPort ch2 = VStr (h +:+ ":" +:+ pretty port) ∧
    listening ch2 = true ∧ requestedPort ch2 = VNum p ∧
    trace s2 = trace s1 ++ [EEmit self EvListening] ++
                 from_option (λ f, [ECall f]) [] cb ++
                 resumeTrace self (pending s).
Proof.
  intros Hh Hch Hl Hd Hne.
  destruct (listen_Ok self p h cb s ch Hch Hl Hne) as
    (s1 & ch1 & Hrun & Hc1 & Hl1 & Hh1 & Hp1 & Hss1 & _ & Hhp1 & Hg1 & Hd1 & Hn1 &
     Hs1 & _ & _ & _ & _ & _ & _ & _ & Hpe1 & _ & _).
  assert (Hch1 : chans s1 !! self = Some ch1).
  { rewrite Hc1, lookup_alter_eq, Hch. reflexivity. }
  assert (Hhier : hierarchy s1)
    by exact (hierarchy_const self ch ch1 s s1 Hch Hc1 Hn1 Hs1 Hh).
  destruct (serverListening_chans self port s1 ch1 _ Hhier Hch1 Hss1) as
    (s2 & Hrun2 & Hc2 & _ & _ & _ & Htr2).
  rewrite Hd1, Hd in Hc2, Htr2. simpl in Htr2.
  set (w := waitingForListening self (pending s1)) in *.
  exists s1, s2, ch1.
  exists ((if w is [] then id else with_closedServer)
            (with_listening true
               (with_hostPort (VStr (toStr (host ch1) +:+ ":" +:+ pretty port))
                  (with_serverSocket (Some (mkServerSocket (Some port) cb)) ch1)))).
  split_and!; try assumption.
  - rewrite Hc2, resumedChans_self. unfold bound. simpl. rewrite propagate_lookup.
    rewrite !lookup_alter_eq, Hch1. simpl.
    case_bool_decide; simpl; [|reflexivity].
    rewrite inherit_same; reflexivity.
  - destruct w; simpl; rewrite Hh1; reflexivity.
  - destruct w; reflexivity.
  - destruct w; simpl; exact Hp1.
  - rewrite Htr2, Hpe1. reflexivity.
Qed.

Lemma inherit_fields (hp : value) (c : TChannelObj) :
  serverSocket (inherit hp c) = serverSocket c ∧
  topChannel (inherit hp c) = topChannel c ∧
  serviceName (inherit hp c) = serviceName c ∧
  subChannels (inherit hp c) = subChannels c ∧
  destroyed (inherit hp c) = destroyed c ∧
  serverConnections (inherit hp c) = serverConnections c ∧
  peers (inherit hp c) = peers c.
Proof. unfold inherit. destruct (truthy (hostPort c)); done. Qed.

Lemma foldSub_unbound (k : nat) (c : loc) (l : list loc) :
  ∀ s, (∃ ch, chans s !! c = Some ch ∧ serverSocket ch ≫= ss_address = None) →
       ∃ ch, chans (foldl (closeSub k) s l) !! c = Some ch ∧
             serverSocket ch ≫= ss_address = None.
Proof.
  induction l as [|sub l IH]; intros s H; [exact H|].
  simpl. apply IH. destruct H as (ch & Hch & Hd).
  destruct (closeSub_chans k s sub) as [-> | ->]; [eauto|].
  destruct (decide (sub = c)) as [->|Hne].
  - exists (shut ch). rewrite lookup_alter_eq, Hch. split; [reflexivity|].
    simpl. destruct (serverSocket ch); reflexivity.
  - exists ch. rewrite lookup_alter_ne by done. done.
Qed.

(** X9: [address] around the bind and the close of the socket. Once the
    bind of a channel's socket has completed, [address] on the channel gives
    the bound port, and so does [address] on every registered sub-channel
    that has no server socket of its own: it asks its top channel. That is
    so unless a [close] of the channel was waiting for the bind: then its
    [closeServerSocket] runs among the listeners of the [listening] event
    and closes the socket, and [address] gives [null]. And after [close] on
    a channel whose socket is bound, [address] gives [null]. *)
Theorem address_after_bind (self : loc) (port : Z) (s : State)
    (ch : TChannelObj) (ss : ServerSocket) :
  hierarchy s → linked s → chans s !! self = Some ch →
  serverSocket ch = Some ss →
  let answer :=
    if waitingForListening self (pending s) is [] then Some port else None in
  address 1 self s = Ok (ss_address ss) s ∧
  (∃ s', serverListening self port s = Ok () s' ∧
     address 1 self s' = Ok answer s' ∧
     ∀ subs name sub sc,
       subChannels ch = Some subs → subs !! name = Some sub →
       chans s !! sub = Some sc → serverSocket sc = None →
       address 2 sub s' = Ok answer s') ∧
  (destroyed ch = false →
     ∀ cb, ∃ s1, close 2 self cb s = Ok () s1 ∧ address 1 self s1 = Ok None s1).
Proof.
  intros Hh Hl Hch Hss answer. split.
  { simpl. rewrite (bind_eq _ _ _ _ _ (chan_eq _ _ _ Hch)), Hss. reflexivity. }
  split.
  - destruct (serverListening_chans self port s ch ss Hh Hch Hss) as
      (s' & Hrun & Hc & _).
    set (ch1 := with_serverSocket (Some (mkServerSocket (Some port) (ss_callback ss))) ch) in *.
    set (hp := VStr (toStr (host ch1) +:+ ":" +:+ pretty port)).
    set (w := waitingForListening self (pending s)) in *.
    assert (Hself : ∃ ch', chans s' !! self = Some ch' ∧
                      serverSocket ch' = Some (mkServerSocket answer (ss_callback ss))).
    { rewrite Hc, resumedChans_self. destruct (destroyed ch).
      - simpl. rewrite lookup_alter_eq, Hch. simpl.
        eexists; split; [reflexivity|]. unfold answer. destruct w; reflexivity.
      - unfold bound. simpl. rewrite propagate_lookup, !lookup_alter_eq, Hch. simpl.
        case_bool_decide; simpl; eexists; (split; [reflexivity|]);
          unfold answer; destruct w; simpl;
          rewrite ?(proj1 (inherit_fields _ _)); reflexivity. }
    destruct Hself as (ch' & Hch' & Hss').
    assert (Haddr : address 1 self s' = Ok answer s').
    { simpl. rewrite (bind_eq _ _ _ _ _ (chan_eq _ _ _ Hch')), Hss'. reflexivity. }
    exists s'. split_and!; try done.
    intros subs name sub sc Hsubs Hn Hsc Hnone.
    destruct (hierarchy_sub _ _ _ _ _ _ Hh Hch Hsubs Hn) as (sc0 & Hsc0 & _ & Hne).
    destruct (linked_sub _ _ _ _ _ _ Hl Hch Hsubs Hn) as (sc1 & Hsc1 & Htop & _).
    rewrite Hsc in Hsc0, Hsc1. injection Hsc0 as <-. injection Hsc1 as <-.
    assert (Hsub : ∃ sc', chans s' !! sub = Some sc' ∧ serverSocket sc' = None ∧
                     topChannel sc' = Some self).
    { rewrite Hc, resumedChans_ne by done. destruct (destroyed ch).
      - simpl. rewrite lookup_alter_ne, Hsc by done. eauto.
      - unfold bound. simpl. rewrite propagate_lookup, !lookup_alter_ne, Hsc by done.
        simpl. case_bool_decide; simpl; eexists; (split; [reflexivity|]);
          rewrite ?(proj1 (inherit_fields _ _)),
            ?(proj1 (proj2 (inherit_fields _ _))); done. }
    destruct Hsub as (sc' & Hsc' & Hnone' & Htop').
    change (address 2 sub) with
      (ch ← chan sub;
       match serverSocket ch with
       | Some ss => mret (ss_address ss)
       | None => match topChannel ch with
                 | Some top => address 1 top
                 | None => mret None
                 end
       end).
    rewrite (bind_eq _ _ _ _ _ (chan_eq _ _ _ Hsc')), Hnone', Htop'. exact Haddr.
  - intros Hd cb. exists (closed self ch cb s).
    split; [apply (close_closed 0); assumption|].
    assert (Hshut : ∃ x, chans (closed self ch cb s) !! self = Some x ∧
                      serverSocket x ≫= ss_address = None).
    { unfold closed, closeEnd. simpl. apply foldSub_unbound.
      exists (shut ch). unfold closeBegin. simpl. rewrite lookup_alter_eq, Hch.
      split; [reflexivity|]. simpl. rewrite Hss. reflexivity. }
    destruct Hshut as (x & Hx & Hnone).
    simpl. rewrite (bind_eq _ _ _ _ _ (chan_eq _ _ _ Hx)).
    destruct (serverSocket x) as [ssx|] eqn:Hssx.
    + simpl in Hnone. rewrite Hnone. reflexivity.
    + exfalso.
      assert (Hkeep : ∃ y, chans (closed self ch cb s) !! self = Some y ∧
                        is_Some (serverSocket y)).
      { unfold closed, closeEnd. simpl.
        generalize (subList ch). intros l.
        assert (H0 : ∃ y, chans (closeBegin self ch cb s) !! self = Some y ∧
                       is_Some (serverSocket y)).
        { exists (shut ch). unfold closeBegin. simpl. rewrite lookup_alter_eq, Hch.
          split; [reflexivity|]. simpl. rewrite Hss. simpl. eauto. }
        revert H0. generalize (closeBegin self ch cb s). intros t.
        revert t. induction l as [|sub l IH]; intros t Ht; [exact Ht|].
        simpl. apply IH. destruct Ht as (y & Hy & Hsome).
        destruct (closeSub_chans (length (closeEnvs s)) t sub) as [-> | ->]; [eauto|].
        destruct (decide (sub = self)) as [->|Hne].
        - exists (shut y). rewrite lookup_alter_eq, Hy. split; [reflexivity|].
          simpl. destruct Hsome as [z ->]. simpl. eauto.
        - exists y. rewrite lookup_alter_ne by done. done. }
      destruct Hkeep as (y & Hy & [z Hz]). congruence.
Qed.

(** *** A bind that fails *)

(** X10: when the bind that [listen] started fails, [onServerSocketError]
    reports the port and host given to [listen]: with the code EADDRINUSE
    the error of net is wrapped in a [TChannelListenError] carrying them,
    with any other code it is passed on as it came. The error is logged,
    with the requested port, the host and the [hostPort] (or [null]), and
    then given to [emit('error', ·)]: when the channel has a listener for
    [error] the event is delivered and the method returns; when it has none
    the error is thrown out of the method, after the log line. Either way
    nothing is written to the channel: [listened] stays set, so that no
    later [listen] on that channel succeeds. *)
Theorem bind_failure_no_retry (self : loc) (p : Z) (h : string)
    (cb : option nat) (err : NetError) (s : State) (ch : TChannelObj) :
  chans s !! self = Some ch → listened ch = false → h ≠ "0.0.0.0" →
  self < nextLoc s →
  let e := if bool_decide (err_code err = VStr "EADDRINUSE")
           then TChannelListenError err (VNum p) (VStr h) else Plain err in
  let info := mkErrorInfo e (VNum p) (VStr h)
                (if truthy (hostPort ch) then hostPort ch else VNull) in
  ∃ s1,
    listen self (VNum p) (VStr h) cb s = Ok () s1 ∧
    onServerSocketError self err true s1 =
      Ok info (logged (EEmit self (EvError e))
                 (logged (ELoggerError "server socket error") s1)) ∧
    onServerSocketError self err false s1 =
      Throw (Unhandled e) (logged (ELoggerError "server socket error") s1) ∧
    ∀ handled l s2 s3 port' hst' cb',
      after (onServerSocketError self err handled s1) = Some s2 →
      run l s2 = Some s3 →
      listen self port' hst' cb' s3 =
        Throw (AssertionError "TChannel can only listen once") s3.
Proof.
  intros Hch Hl Hne Hlt e info.
  destruct (listen_Ok self p h cb s ch Hch Hl Hne) as
    (s1 & ch1 & Hrun & Hc1 & Hl1 & Hh1 & Hp1 & _ & _ & Hhp1 & _ & _ & _ &
     _ & _ & _ & _ & _ & _ & Hn1 & _).
  assert (Hch1 : chans s1 !! self = Some ch1).
  { rewrite Hc1, lookup_alter_eq, Hch. reflexivity. }
  assert (Hrun' : ∀ handled, onServerSocketError self err handled s1 =
            if handled
            then Ok info (logged (EEmit self (EvError e))
                            (logged (ELoggerError "server socket error") s1))
            else Throw (Unhandled e) (logged (ELoggerError "server socket error") s1)).
  { intros handled. unfold onServerSocketError.
    rewrite (bind_eq _ _ _ _ _ (chan_eq _ _ _ Hch1)), bind_effect.
    rewrite Hp1, Hh1, Hhp1. destruct handled; reflexivity. }
  exists s1. split; [exact Hrun|].
  split; [exact (Hrun' true)|]. split; [exact (Hrun' false)|].
  intros handled l s2 s3 port' hst' cb' Hs2 Hr. apply listen_again.
  eapply hasListened_run; [|exact Hr].
  assert (Hhas : hasListened self (logged (ELoggerError "server socket error") s1)).
  { split; [simpl; lia|]. exists ch1. simpl. done. }
  rewrite Hrun' in Hs2. destruct handled; injection Hs2 as <-; exact Hhas.
Qed.

(** *** The hierarchy is kept *)

Lemma sameShape_refl (s : State) : sameShape s s.
Proof. intros c. reflexivity. Qed.

Lemma sameShape_update (s0 s : State) (c : loc) (f : TChannelObj → TChannelObj) :
  (∀ ch, shape (f ch) = shape ch) →
  sameShape s0 s → sameShape s0 (set_chans (alter f c) s).
Proof.
  intros Hf H x. rewrite <- H. simpl. rewrite lookup_alter.
  case_decide; subst; destruct (chans s !! x); simpl; try done.
  rewrite Hf. done.
Qed.

Lemma sameShape_lookup (s t : State) (c : loc) (ch : TChannelObj) :
  sameShape s t → chans t !! c = Some ch →
  ∃ ch0, chans s !! c = Some ch0 ∧ shape ch0 = shape ch.
Proof.
  intros H Hc. specialize (H c). rewrite Hc in H.
  destruct (chans s !! c) as [ch0|]; [|discriminate].
  exists ch0. simpl in H. split; congruence.
Qed.

Lemma sameShape_sym (s t : State) : sameShape s t → sameShape t s.
Proof. intros H c. symmetry. apply H. Qed.

Lemma hierarchy_sameShape (s t : State) :
  sameShape s t → hierarchy s → hierarchy t.
Proof.
  intros Hst Hh c ch Hc.
  destruct (sameShape_lookup _ _ _ _ Hst Hc) as (ch0 & Hc0 & [= E1 E2 E3]).
  destruct (Hh c ch0 Hc0) as (H1 & H2 & H3). rewrite <- E1, <- E3.
  split_and!; try done.
  intros n sub Hn. specialize (H2 n sub Hn). unfold isSubChannel in *.
  destruct (chans s !! sub) as [sc|] eqn:Hsc; [|done].
  pose proof (Hst sub) as Hs. rewrite Hsc in Hs.
  destruct (chans t !! sub) as [sc'|]; [|discriminate].
  simpl in Hs. injection Hs as _ _ ->. exact H2.
Qed.

Lemma linked_sameShape (s t : State) :
  sameShape s t → linked s → linked t.
Proof.
  intros Hst Hl c ch Hc.
  destruct (sameShape_lookup _ _ _ _ Hst Hc) as (ch0 & Hc0 & [= E1 E2 E3]).
  destruct (Hl c ch0 Hc0) as (H1 & H2). rewrite <- E1, <- E2, <- E3. split.
  - destruct (topChannel ch0) as [t0|]; [|done]. destruct H1 as [H1 H1'].
    split; [exact H1|].
    destruct (chans s !! t0) as [top|] eqn:Htop; [|done].
    pose proof (Hst t0) as Hs. rewrite Htop in Hs.
    destruct (chans t !! t0) as [top'|]; [|discriminate].
    simpl in *. injection Hs as -> _ _. exact H1'.
  - intros n sub Hn. specialize (H2 n sub Hn). simpl in H2.
    destruct (chans s !! sub) as [sc|] eqn:Hsc; [|done].
    pose proof (Hst sub) as Hs. rewrite Hsc in Hs.
    destruct (chans t !! sub) as [sc'|]; [|discriminate].
    simpl in *. injection Hs as -> -> _. exact H2.
Qed.

Ltac sameShape_prim :=
  preserves_prim;
  first
    [ assumption
    | apply sameShape_update; [intros []; reflexivity | assumption] ].

Lemma sameShape_request (s0 : State) (fuel : nat) :
  ∀ self opt, preserves (sameShape s0) (request fuel self opt).
Proof.
  induction fuel as [|fuel IH]; intros self opt; [intros s _; exact I|].
  simpl. repeat first [preserves_step | apply IH | sameShape_prim].
Qed.

Lemma sameShape_close (s0 : State) (fuel : nat) :
  ∀ self cb, preserves (sameShape s0) (close fuel self cb).
Proof.
  induction fuel as [|fuel IH]; intros self cb; [intros s _; exact I|].
  simpl. unfold newCounter, incr, closeServerSocket, server_close, await.
  repeat first [preserves_step | apply IH | sameShape_prim].
Qed.

Lemma sameShape_onClose (s0 : State) (fuel : nat) :
  ∀ k, preserves (sameShape s0) (onClose fuel k).
Proof.
  induction fuel as [|fuel IH]; intros k; [intros s _; exact I|].
  simpl. unfold closeEnv.
  repeat first [preserves_step | apply IH | sameShape_prim].
Qed.

(** Every call and event but the two that make channels leaves each
    channel at its place in the hierarchy. *)
Lemma sameShape_perform (s0 : State) (a : Action) :
  match a with ANew _ | AMakeSubChannel _ _ => False | _ => True end →
  preserves (sameShape s0) (perform a).
Proof.
  intros Ha. destruct a; unfold perform, void; try destruct Ha.
  - unfold listen, getServer, server_listen.
    repeat first [preserves_step | sameShape_prim].
  - unfold register. repeat first [preserves_step | sameShape_prim].
  - apply preserves_bind; [apply sameShape_request | intros ?; apply preserves_ret].
  - apply sameShape_close.
  - unfold serverListening, onServerSocketListening, resumeCloses, server_close.
    repeat first [preserves_step | sameShape_prim].
  - unfold onServerSocketConnection.
    repeat first [preserves_step | sameShape_prim].
  - unfold socketClosed, onSocketClose.
    repeat first [preserves_step | sameShape_prim].
  - unfold completes.
    repeat first [preserves_step | apply sameShape_onClose | sameShape_prim].
Qed.

(** *** Locations are handed out once *)

Lemma preserves_alloc {B} (I : State → Prop) (f : loc → M B) :
  (∀ s, I s →
     I (mkState (chans s) (pools s) (peerObjs s) (conns s) (S (nextLoc s))
          (closeEnvs s) (pending s) (socketClose s) (trace s))) →
  (∀ p, preserves (λ s, I s ∧ p < nextLoc s) (f p)) →
  preserves I (alloc ≫= f).
Proof.
  intros Hb Hf s H. unfold mbind, M_bind, alloc.
  specialize (Hf (nextLoc s) _ (conj (Hb s H) (Nat.lt_succ_diag_r _))).
  destruct (f _ _); tauto.
Qed.

Lemma fresh_mono (s t : State) :
  fresh s → nextLoc s ≤ nextLoc t →
  (∀ c ch, chans t !! c = Some ch →
     (∃ ch0, chans s !! c = Some ch0 ∧ peers ch = peers ch0) ∨
     (c < nextLoc t ∧ peers ch < nextLoc t)) →
  (∀ p x, pools t !! p = Some x → is_Some (pools s !! p) ∨ p < nextLoc t) →
  (∀ p x, peerObjs t !! p = Some x → is_Some (peerObjs s !! p) ∨ p < nextLoc t) →
  (∀ c x, conns t !! c = Some x → is_Some (conns s !! c) ∨ c < nextLoc t) →
  fresh t.
Proof.
  intros (H1 & H2 & H3 & H4) Hn G1 G2 G3 G4. split_and!.
  - intros c ch Hc. destruct (G1 c ch Hc) as [(ch0 & Hc0 & ->)|H]; [|exact H].
    destruct (H1 c ch0 Hc0). split; lia.
  - intros p x Hp. destruct (G2 p x Hp) as [[y Hy]|H]; [|exact H].
    specialize (H2 p y Hy). simpl in H2. lia.
  - intros p x Hp. destruct (G3 p x Hp) as [[y Hy]|H]; [|exact H].
    specialize (H3 p y Hy). simpl in H3. lia.
  - intros c x Hc. destruct (G4 c x Hc) as [[y Hy]|H]; [|exact H].
    specialize (H4 c y Hy). simpl in H4. lia.
Qed.

Ltac fresh_map :=
  simpl; intros ? ? ?;
  repeat match goal with
  | H : <[_ := _]> _ !! _ = Some _ |- _ =>
      apply lookup_insert_Some in H as [[<- <-]|[? H]]
  | H : alter _ _ _ !! _ = Some _ |- _ =>
      apply lookup_alter_Some in H as [(<- & ? & H & ->)|[? H]]
  | H : delete _ _ !! _ = Some _ |- _ =>
      apply lookup_delete_Some in H as [? H]
  end;
  first [ left; eexists; split; [eassumption | destruct_all TChannelObj; reflexivity]
        | left; eauto; fail
        | right; simpl; try split; lia ].

Ltac fresh_goal :=
  match goal with
  | |- _ ∧ _ < _ => split; [fresh_goal | simpl; lia]
  | H : fresh ?s |- fresh _ =>
      first [ exact H
            | apply (fresh_mono s); [exact H | simpl; lia | fresh_map ..] ]
  end.

Ltac fresh_prim :=
  preserves_prim;
  repeat match goal with H : _ ∧ _ < _ |- _ => destruct H end;
  fresh_goal.

Lemma fresh_TChannel (opts : Options) : preserves fresh (TChannel opts).
Proof.
  intros s H.
  destruct (TChannel_Ok opts s) as
    (s' & new & -> & Hc & Hp & Hpo & Hcn & Hn & _ & _ & _ & _ & _ & _ & Hpe & _).
  apply (fresh_mono s); [exact H | lia | ..].
  - rewrite Hc. intros c ch Hi.
    apply lookup_insert_Some in Hi as [[<- <-]|[? Hi]]; [right; lia | left; eauto].
  - rewrite Hp. intros p x Hi.
    apply lookup_insert_Some in Hi as [[<- <-]|[? Hi]]; [right; lia | left; eauto].
  - rewrite Hpo. eauto.
  - rewrite Hcn. eauto.
Qed.

Lemma fresh_request (fuel : nat) :
  ∀ self opt, preserves fresh (request fuel self opt).
Proof.
  induction fuel as [|fuel IH]; intros self opt; [intros s _; exact I|].
  simpl. repeat first [preserves_step | apply IH | fresh_prim].
Qed.

Lemma fresh_close (fuel : nat) :
  ∀ self cb, preserves fresh (close fuel self cb).
Proof.
  induction fuel as [|fuel IH]; intros self cb; [intros s _; exact I|].
  simpl. unfold newCounter, incr, closeServerSocket, server_close, await.
  repeat first [preserves_step | apply IH | fresh_prim].
Qed.

Lemma fresh_onClose (fuel : nat) :
  ∀ k, preserves fresh (onClose fuel k).
Proof.
  induction fuel as [|fuel IH]; intros k; [intros s _; exact I|].
  simpl. unfold closeEnv.
  repeat first [preserves_step | apply IH | fresh_prim].
Qed.

Ltac fresh_alloc :=
  apply preserves_alloc;
  [ intros ? ?;
    repeat match goal with H : _ ∧ _ < _ |- _ => destruct H end;
    fresh_goal
  | intros ? ].

Lemma fresh_attachPeer (topPeers chanPeers : loc) (a : PeerArg) :
  preserves fresh (attachPeer topPeers chanPeers a).
Proof.
  unfold attachPeer, peers_add, peers_addPeer, getPool.
  repeat first [fresh_alloc | preserves_step | apply preserves_ret | fresh_prim].
Qed.

(** Every call and event keeps the store fresh. *)
Lemma fresh_perform (a : Action) : preserves fresh (perform a).
Proof.
  destruct a; unfold perform, void.
  - apply preserves_bind; [apply fresh_TChannel | intros ?; apply preserves_ret].
  - unfold makeSubChannel.
    repeat first [ apply fresh_TChannel | apply fresh_attachPeer
                 | preserves_step | fresh_prim ].
  - unfold listen, getServer, server_listen.
    repeat first [preserves_step | fresh_prim].
  - unfold register. repeat first [preserves_step | fresh_prim].
  - apply preserves_bind; [apply fresh_request | intros ?; apply preserves_ret].
  - apply fresh_close.
  - unfold serverListening, onServerSocketListening, resumeCloses, server_close.
    repeat first [preserves_step | fresh_prim].
  - unfold onServerSocketConnection.
    repeat first [fresh_alloc | preserves_step | apply preserves_ret | fresh_prim].
  - unfold socketClosed, onSocketClose.
    repeat first [preserves_step | fresh_prim].
  - unfold completes.
    repeat first [preserves_step | apply fresh_onClose | fresh_prim].
Qed.

(** *** A new channel in the hierarchy *)

Lemma hierarchy_insert (s t : State) (c : loc) (new : TChannelObj) :
  chans s !! c = None → chans t = <[c := new]> (chans s) →
  (subChannels new = None ↔ serviceName new ≠ "") →
  default ∅ (subChannels new) = ∅ →
  hierarchy s → hierarchy t.
Proof.
  intros Hc Ht Hn He Hh.
  assert (Hsub : ∀ sub, isSubChannel s sub → isSubChannel t sub).
  { intros sub. unfold isSubChannel. rewrite Ht.
    destruct (decide (sub = c)) as [->|Hne]; [rewrite Hc; done|].
    rewrite lookup_insert_ne by done. done. }
  intros i ch Hi. rewrite Ht in Hi.
  apply lookup_insert_Some in Hi as [[<- <-]|[Hne Hi]].
  - rewrite He. split_and!; [exact Hn | apply map_Forall_empty |].
    rewrite map_to_list_empty. constructor.
  - destruct (Hh i ch Hi) as (H1 & H2 & H3). split_and!; try done.
    intros n sub Hs. apply Hsub. exact (H2 n sub Hs).
Qed.

Lemma linked_insert (s t : State) (c : loc) (new : TChannelObj) :
  chans s !! c = None → chans t = <[c := new]> (chans s) →
  default ∅ (subChannels new) = ∅ →
  match topChannel new with
  | Some top =>
      serviceName new ≠ "" ∧
      from_option (λ x, serviceName x = "") False (chans s !! top)
  | None => True
  end →
  linked s → linked t.
Proof.
  intros Hc Ht He Hn Hl.
  assert (Hsame : ∀ x, is_Some (chans s !! x) → chans t !! x = chans s !! x).
  { intros x [y Hx]. rewrite Ht, lookup_insert_ne; [done|]. congruence. }
  assert (Htop : ∀ x, from_option (λ y, serviceName y = "") False (chans s !! x) →
                   from_option (λ y, serviceName y = "") False (chans t !! x)).
  { intros x Hx. destruct (chans s !! x) as [y|] eqn:E; [|done].
    rewrite Hsame, E by eauto. exact Hx. }
  intros i ch Hi. rewrite Ht in Hi.
  apply lookup_insert_Some in Hi as [[<- <-]|[Hne Hi]].
  - rewrite He. split; [|apply map_Forall_empty].
    destruct (topChannel new); [|done]. destruct Hn. split; [done|]. by apply Htop.
  - destruct (Hl i ch Hi) as (H1 & H2). split.
    + destruct (topChannel ch); [|done]. destruct H1. split; [done|]. by apply Htop.
    + intros n sub Hs. specialize (H2 n sub Hs). simpl in *.
      destruct (chans s !! sub) as [y|] eqn:E; [|done].
      rewrite Hsame, E by eauto. exact H2.
Qed.

Lemma fresh_None (s : State) : fresh s → chans s !! nextLoc s = None.
Proof.
  intros (H & _). destruct (chans s !! nextLoc s) as [x|] eqn:E; [|done].
  destruct (H _ _ E). lia.
Qed.

Lemma wellFormed_TChannel (opts : Options) : preserves wellFormed (TChannel opts).
Proof.
  intros s (Hf & Hh & Hl). pose proof (fresh_TChannel opts s Hf) as Hf'.
  destruct (TChannel_Ok opts s) as
    (s' & new & E & Hc & _ & _ & _ & _ & _ & _ & _ & _ & Hname & Hsubs & _ & Htop & _).
  rewrite E in *. pose proof (fresh_None s Hf) as Hnone.
  assert (He : default ∅ (subChannels new) = ∅).
  { rewrite Hsubs. destruct (String.eqb _ _); reflexivity. }
  split_and!; [exact Hf' | |].
  - eapply hierarchy_insert; try eassumption.
    rewrite Hsubs, Hname. destruct (String.eqb_spec (o_serviceName opts) ""); split; done.
  - eapply linked_insert; try eassumption. rewrite Htop. exact I.
Qed.

Lemma hierarchy_register (s t : State) (self c : loc) (ch new : TChannelObj)
    (subs : gmap string loc) (name : string) :
  hierarchy s → chans s !! self = Some ch → serviceName ch = "" →
  subChannels ch = Some subs → subs !! name = None → chans s !! c = None →
  chans t =
    <[c := new]>
      (<[self := with_subChannels (Some (<[name := c]> subs)) ch]> (chans s)) →
  serviceName new ≠ "" → subChannels new = None →
  hierarchy t.
Proof.
  intros Hh Hch Hn Hsubs Hname Hc Ht Hnn Hns.
  assert (Hcs : c ≠ self) by congruence.
  assert (Hsub : ∀ sub, isSubChannel s sub → isSubChannel t sub).
  { intros sub. unfold isSubChannel. rewrite Ht.
    destruct (decide (sub = c)) as [->|Hne]; [rewrite Hc; done|].
    rewrite lookup_insert_ne by done.
    destruct (decide (sub = self)) as [->|Hne'].
    - rewrite Hch, lookup_insert_eq. simpl. rewrite Hsubs. done.
    - rewrite lookup_insert_ne by done. done. }
  assert (Hnew : isSubChannel t c).
  { unfold isSubChannel. rewrite Ht, lookup_insert_eq. exact Hns. }
  intros i x Hi. rewrite Ht in Hi.
  apply lookup_insert_Some in Hi as [[<- <-]|[Hne Hi]].
  - rewrite Hns. split_and!; [done | apply map_Forall_empty |].
    simpl. rewrite map_to_list_empty. constructor.
  - apply lookup_insert_Some in Hi as [[<- <-]|[Hne' Hi]].
    + destruct (Hh _ _ Hch) as (H1 & H2 & H3). rewrite Hsubs in H2, H3.
      simpl in *. rewrite Hn. split_and!; [split; done | |].
      * apply map_Forall_insert_2; [exact Hnew|].
        intros n sub Hs. apply Hsub. exact (H2 n sub Hs).
      * rewrite map_to_list_insert by done. rewrite fmap_cons. simpl.
        constructor; [|exact H3]. intros Hin.
        apply list_elem_of_fmap in Hin as ([n y] & Ey & Hy). simpl in Ey. subst y.
        apply elem_of_map_to_list in Hy. specialize (H2 n c Hy).
        unfold isSubChannel in H2. simpl in H2. rewrite Hc in H2. done.
    + destruct (Hh i x Hi) as (H1 & H2 & H3). split_and!; try done.
      intros n sub Hs. apply Hsub. exact (H2 n sub Hs).
Qed.

Lemma linked_register (s t : State) (self c : loc) (ch new : TChannelObj)
    (subs : gmap string loc) (name : string) :
  linked s → chans s !! self = Some ch → serviceName ch = "" →
  subChannels ch = Some subs → chans s !! c = None →
  chans t =
    <[c := new]>
      (<[self := with_subChannels (Some (<[name := c]> subs)) ch]> (chans s)) →
  serviceName new = name → name ≠ "" → subChannels new = None →
  topChannel new = Some self →
  linked t.
Proof.
  intros Hl Hch Hn Hsubs Hc Ht Hname Hne0 Hns Htop.
  assert (Hcs : c ≠ self) by congruence.
  set (ch' := with_subChannels (Some (<[name := c]> subs)) ch) in *.
  assert (Hself : chans t !! self = Some ch').
  { rewrite Ht, lookup_insert_ne, lookup_insert_eq by done. done. }
  assert (Hnew : chans t !! c = Some new).
  { rewrite Ht, lookup_insert_eq. done. }
  assert (Hnotop : topChannel ch = None).
  { destruct (Hl _ _ Hch) as [H _]. destruct (topChannel ch); [|done].
    destruct H. done. }
  assert (Hother : ∀ x y, chans s !! x = Some y → x ≠ self → chans t !! x = Some y).
  { intros x y Hx Hxs. rewrite Ht, !lookup_insert_ne; [done..|]. congruence. }
  assert (Htops : ∀ x, from_option (λ y, serviceName y = "") False (chans s !! x) →
                    from_option (λ y, serviceName y = "") False (chans t !! x)).
  { intros x Hx. destruct (chans s !! x) as [y|] eqn:E; [|done].
    destruct (decide (x = self)) as [->|Hxs].
    - rewrite Hself. simpl. exact Hn.
    - rewrite (Hother _ _ E Hxs). exact Hx. }
  assert (Hsubs' : ∀ i n sub,
            from_option (λ sc, topChannel sc = Some i ∧ serviceName sc = n) False
              (chans s !! sub) →
            from_option (λ sc, topChannel sc = Some i ∧ serviceName sc = n) False
              (chans t !! sub)).
  { intros i n sub Hx. destruct (chans s !! sub) as [y|] eqn:E; [|done].
    destruct (decide (sub = self)) as [->|Hxs].
    - rewrite Hch in E. injection E as <-. simpl in Hx. destruct Hx. congruence.
    - rewrite (Hother _ _ E Hxs). exact Hx. }
  intros i x Hi. rewrite Ht in Hi.
  apply lookup_insert_Some in Hi as [[<- <-]|[Hne Hi]].
  - rewrite Htop, Hns. split; [|apply map_Forall_empty].
    split; [congruence|]. rewrite Hself. exact Hn.
  - apply lookup_insert_Some in Hi as [[<- <-]|[Hne' Hi]].
    + simpl. rewrite Hnotop. split; [done|].
      apply map_Forall_insert_2; [rewrite Hnew; done|].
      destruct (Hl _ _ Hch) as [_ H2]. rewrite Hsubs in H2.
      intros n sub Hs. apply Hsubs'. exact (H2 n sub Hs).
    + destruct (Hl i x Hi) as (H1 & H2). split.
      * destruct (topChannel x); [|done]. destruct H1. split; [done|]. by apply Htops.
      * intros n sub Hs. apply Hsubs'. exact (H2 n sub Hs).
Qed.

Lemma bind_Throw {A B} (m : M A) (f : A → M B) (s s' : State) (e : Error) :
  (m ≫= f) s = Throw e s' →
  m s = Throw e s' ∨ ∃ a s1, m s = Ok a s1 ∧ f a s1 = Throw e s'.
Proof.
  unfold mbind, M_bind. destruct (m s) as [a s1|e1 s1|]; try discriminate.
  - intros H. right. exists a, s1. split; [reflexivity | exact H].
  - intros [= -> ->]. left. reflexivity.
Qed.

Lemma assert_Throw (b : bool) (msg : string) (s s' : State) (e : Error) :
  assert b msg s = Throw e s' → s' = s.
Proof. destruct b; simpl; [discriminate | intros [= _ <-]; done]. Qed.

Lemma chan_Throw (c : loc) (s s' : State) (e : Error) :
  chan c s = Throw e s' → s' = s.
Proof.
  unfold chan. destruct (chans s !! c); [discriminate | intros [= _ <-]; done].
Qed.

(** A [makeSubChannel] that throws has written nothing, or it has thrown
    while attaching the peers: then the new channel is there, with its back
    reference, and is not registered. *)
Lemma makeSubChannel_Throw (self : loc) (opts : Options) (s s' : State)
    (e : Error) :
  map_Forall (λ c _, c < nextLoc s) (chans s) →
  makeSubChannel self opts s = Throw e s' →
  s' = s ∨
  ∃ ch new,
    chans s !! self = Some ch ∧ serviceName ch = "" ∧ o_serviceName opts ≠ "" ∧
    chans s' = <[nextLoc s := new]> (chans s) ∧
    serviceName new = o_serviceName opts ∧ subChannels new = None ∧
    topChannel new = Some self.
Proof.
  intros Hfresh H. unfold makeSubChannel in H.
  apply bind_Throw in H as [H|(ch & s1 & H1 & H)];
    [left; eapply chan_Throw; exact H|].
  apply chan_Ok in H1 as [Hch ->].
  apply bind_Throw in H as [H|(u & s1 & H1 & H)];
    [left; eapply assert_Throw; exact H|].
  apply assert_Ok in H1 as [Hsn ->].
  apply bind_Throw in H as [H|(u' & s1 & H1 & H)];
    [left; eapply assert_Throw; exact H|].
  apply assert_Ok in H1 as [Hon ->].
  apply bind_Throw in H as [H|(subs & s1 & H1 & H)].
  { left. destruct (subChannels ch); [discriminate|].
    unfold throw in H. injection H as _ <-. reflexivity. }
  destruct (subChannels ch) as [subs'|] eqn:Hsubs; [|discriminate].
  injection H1 as <- <-.
  apply bind_Throw in H as [H|(u'' & s1 & H1 & H)];
    [left; eapply assert_Throw; exact H|].
  apply assert_Ok in H1 as [Hdup ->].
  match type of H with (TChannel ?m ≫= _) _ = _ =>
    destruct (TChannel_Ok m s) as
      (t1 & new0 & HT & Hc1 & Hp1 & Hpo1 & Hcn1 & Hn1 & Hce1 & Hpe1 & Hsc1 & _ &
       Hname & Hsub0 & Hpeers0 & Htop0 & Hhp0 & Hl0 & _ & Hd0 & Hss0 & Hsconn0 & _)
  end.
  rewrite (bind_eq _ _ _ _ _ HT) in H.
  rewrite (bind_eq _ _ _ _ _ (update_eq _ _ _)) in H.
  assert (Hself : self < nextLoc s) by (eapply (map_Forall_lookup_1 _ _ _ _ Hfresh Hch)).
  set (f := with_topChannel (Some self)) in *.
  assert (Hnew : chans (set_chans (alter f (nextLoc s)) t1) !! nextLoc s = Some (f new0)).
  { simpl. rewrite Hc1, lookup_alter_eq, lookup_insert_eq. reflexivity. }
  rewrite (bind_eq _ _ _ _ _ (chan_eq _ _ _ Hnew)) in H.
  apply negb_true_iff, String.eqb_neq in Hon. apply String.eqb_eq in Hsn.
  assert (Hsub1 : subChannels new0 = None).
  { rewrite Hsub0. simpl. apply String.eqb_neq in Hon. rewrite Hon. reflexivity. }
  assert (Hshape : alter f (nextLoc s) (chans t1) = <[nextLoc s := f new0]> (chans s)).
  { rewrite Hc1. apply map_eq. intros i. destruct (decide (i = nextLoc s)) as [->|Hi].
    - rewrite lookup_alter_eq, !lookup_insert_eq. reflexivity.
    - rewrite lookup_alter_ne, !lookup_insert_ne by done. reflexivity. }
  assert (HF : ∀ t3 o,
            after (forEach (default [] (o_peers opts))
                     (attachPeer (peers ch) (peers (f new0)))
                     (set_chans (alter f (nextLoc s)) t1)) = Some t3 →
            o = t3 → chans t3 = <[nextLoc s := f new0]> (chans s)).
  { intros t3 o Ha _.
    assert (HP : peersFrame (set_chans (alter f (nextLoc s)) t1) (S (nextLoc s))
                   (nextLoc s) t3).
    { eapply preserves_after; [| |exact Ha].
      - apply preserves_forEach. intros x _. apply attachPeer_frame.
      - unfold peersFrame; simpl. repeat split; try done.
        rewrite Hp1, lookup_insert_eq. eauto. }
    destruct HP as (Hc3 & _). rewrite Hc3. simpl. exact Hshape. }
  apply bind_Throw in H as [H|(u3 & t3 & Hloop & H)].
  - right. exists ch, (f new0). split_and!; try done.
    apply (HF s' s'); [rewrite H|]; reflexivity.
  - exfalso. pose proof (HF t3 t3) as Hc3. rewrite Hloop in Hc3.
    specialize (Hc3 eq_refl eq_refl).
    rewrite (bind_eq _ _ _ _ _ (update_eq _ _ _)) in H.
    set (g := λ x : TChannelObj,
           with_subChannels (<[serviceName (f new0) := nextLoc s]> <$> subChannels x) x) in *.
    assert (Htop : chans (set_chans (alter g self) t3) !! self = Some (g ch)).
    { simpl. rewrite Hc3, lookup_alter_eq, lookup_insert_ne, Hch by lia. reflexivity. }
    rewrite (bind_eq _ _ _ _ _ (chan_eq _ _ _ Htop)) in H.
    destruct (truthy (hostPort (g ch))); discriminate.
Qed.

Lemma wellFormed_makeSubChannel (self : loc) (opts : Options) :
  preserves wellFormed (makeSubChannel self opts).
Proof.
  intros s (Hf & Hh & Hl).
  assert (Hf' : match makeSubChannel self opts s with
                | Ok _ s' | Throw _ s' => fresh s'
                | OutOfFuel => True
                end).
  { pose proof (fresh_perform (AMakeSubChannel self opts) s Hf) as H.
    unfold perform, void, mbind, M_bind in H.
    destruct (makeSubChannel self opts s); exact H. }
  assert (Hlt : map_Forall (λ c _, c < nextLoc s) (chans s)).
  { intros i x Hi. apply (proj1 Hf i x Hi). }
  pose proof (fresh_None s Hf) as Hnone.
  destruct (makeSubChannel self opts s) as [c s'|e s'|] eqn:E; [| |exact I].
  - destruct (makeSubChannel_Ok _ _ _ _ _ Hlt E) as
      (ch & subs & new & Hch & Hn & Hsubs & Hname & Hne & -> & Hchans & Hsn & Hss &
       Htop & _).
    split_and!; [exact Hf' | |].
    + eapply hierarchy_register; try eassumption. congruence.
    + eapply linked_register; try eassumption.
  - destruct (makeSubChannel_Throw _ _ _ _ _ Hlt E) as
      [->|(ch & new & Hch & Hn & Hne & Hchans & Hsn & Hss & Htop)]; [done|].
    split_and!; [exact Hf' | |].
    + eapply hierarchy_insert; try eassumption.
      * rewrite Hss, Hsn. split; done.
      * rewrite Hss. reflexivity.
    + eapply linked_insert; try eassumption.
      * rewrite Hss. reflexivity.
      * rewrite Htop, Hsn, Hch. done.
Qed.

(** Every call and event keeps the store well-formed. *)
Lemma wellFormed_perform (a : Action) : preserves wellFormed (perform a).
Proof.
  assert (Hgen : ∀ a,
            match a with ANew _ | AMakeSubChannel _ _ => False | _ => True end →
            preserves wellFormed (perform a)).
  { intros b Hb s (Hf & Hh & Hl).
    pose proof (fresh_perform b s Hf) as H1.
    pose proof (sameShape_perform s b Hb s (sameShape_refl s)) as H2.
    destruct (perform b s) as [u s'|e s'|]; [| |exact I];
      (split_and!; [exact H1 | eapply hierarchy_sameShape; eassumption
                   | eapply linked_sameShape; eassumption]). }
  destruct a; try (apply Hgen; exact I); unfold perform, void.
  - apply preserves_bind; [apply wellFormed_TChannel | intros ?; apply preserves_ret].
  - apply preserves_bind; [apply wellFormed_makeSubChannel | intros ?; apply preserves_ret].
Qed.

Lemma wellFormed_run (l : list Action) :
  ∀ s s', wellFormed s → run l s = Some s' → wellFormed s'.
Proof.
  induction l as [|a l IH]; intros s s' H E; simpl in E.
  - injection E as <-. exact H.
  - destruct (after (perform a s)) as [s1|] eqn:E1; [|discriminate].
    simpl in E. eapply IH; [|exact E].
    eapply preserves_after; [apply wellFormed_perform | exact H | exact E1].
Qed.

(** *** The accounts are kept by every call and event *)

Lemma settled_perform (a : Action) (s : State) :
  hierarchy s → settled s →
  match perform a s with
  | Ok _ s' | Throw _ s' => settled s'
  | OutOfFuel => True
  end.
Proof.
  intros Hh Hs.
  assert (Hgen : notClose a →
            match perform a s with
            | Ok _ s' | Throw _ s' => settled s'
            | OutOfFuel => True
            end).
  { intros Ha.
    pose proof (accounts_perform (callback <$> closeEnvs s) a Ha s (conj Hs eq_refl)) as H.
    destruct (perform a s); try exact I; exact (proj1 H). }
  destruct a; try (apply Hgen; exact I). clear Hgen. unfold perform.
  destruct (chans s !! c) as [ch|] eqn:Hch.
  - destruct (destroyed ch) eqn:Hd.
    + simpl. rewrite (bind_eq _ _ _ _ _ (chan_eq _ _ _ Hch)), Hd. exact Hs.
    + rewrite (close_closed 0 c _ s ch Hh Hch Hd).
      apply settled_closed; [exact Hs|]. destruct cb; discriminate.
  - simpl. unfold mbind, M_bind, chan. rewrite Hch. exact Hs.
Qed.

(** *** No counter goes below 0 *)

Lemma quiet_logged (e : Effect) (s : State) :
  overClosed e = false → quiet s → quiet (logged e s).
Proof.
  intros He H. unfold quiet. simpl. apply Forall_app. split; [exact H|].
  repeat constructor. exact He.
Qed.

Ltac quiet_prim :=
  preserves_prim;
  first [ assumption | apply quiet_logged; [reflexivity | assumption] ].

Lemma quiet_request (fuel : nat) :
  ∀ self opt, preserves quiet (request fuel self opt).
Proof.
  induction fuel as [|fuel IH]; intros self opt; [intros s _; exact I|].
  simpl. repeat first [preserves_step | apply IH | quiet_prim].
Qed.

Lemma quiet_close (fuel : nat) :
  ∀ self cb, preserves quiet (close fuel self cb).
Proof.
  induction fuel as [|fuel IH]; intros self cb; [intros s _; exact I|].
  simpl. unfold newCounter, incr, closeServerSocket, server_close, await.
  repeat first [preserves_step | apply IH | quiet_prim].
Qed.

(** [onClose] of an environment that holds one credit too many does not
    take a counter below 0. *)
Lemma onClose_quiet (fuel : nat) :
  ∀ (k : nat) (s s' : State) (credit : nat → nat),
    k < fuel → closing (plus1 credit k) s → k < length (closeEnvs s) →
    quiet s → onClose fuel k s = Ok () s' → quiet s'.
Proof.
  induction fuel as [|fuel IH]; intros k s s' credit Hfuel Hcl Hk Hq; [lia|].
  destruct (lookup_lt_is_Some_2 _ _ Hk) as [e He].
  destruct (closing_decremented credit s k e Hcl He) as (Hnn & Hpos & Hzero).
  simpl onClose. rewrite (bind_eq _ _ _ _ _ (closeEnv_eq _ _ _ He)).
  rewrite bind_modify, bind_effect.
  change (logged (ECounterDec k) (set_closeEnvs _ s)) with (decremented k e s).
  assert (Hq1 : quiet (decremented k e s)).
  { unfold decremented. apply quiet_logged; [reflexivity | exact Hq]. }
  assert (Hlen : length (closeEnvs (decremented k e s)) = length (closeEnvs s)).
  { unfold decremented. simpl. apply length_insert. }
  destruct (Z.leb_spec (counter e - 1) 0) as [Hle|Hgt].
  - assert (Hz : (counter e - 1 = 0)%Z) by lia. specialize (Hzero Hz).
    rewrite (proj2 (Z.ltb_ge _ _)) by lia. rewrite bind_ret.
    destruct (callback e) as [|f|k'] eqn:Hcallback.
    + intros [= <-]. exact Hq1.
    + intros [= <-]. apply quiet_logged; [reflexivity | exact Hq1].
    + destruct Hzero as [Hlt Hcl']. intros H.
      apply (IH k' (decremented k e s) s' credit); try done; [lia | rewrite Hlen; lia].
  - intros [= <-]. exact Hq1.
Qed.

(** A completion that is consumed leaves its [close] call one credit. *)
Lemma closing_consumed (i : nat) (s : State) (r : Resource) (k : nat) :
  settled s → pending s !! i = Some (AwaitClose r k) →
  k < length (closeEnvs s) ∧
  closing (plus1 (λ _, 0) k) (set_pending (delete i) s).
Proof.
  intros Hs Hi.
  assert (Hk : k < length (closeEnvs s)).
  { destruct Hs as (_ & H2 & _). rewrite Forall_forall in H2.
    apply (H2 (AwaitClose r k)). eapply list_elem_of_lookup_2. exact Hi. }
  split; [exact Hk|].
  apply closing_alt. apply closing_alt in Hs as (H1 & H2 & H3). split_and!.
  - intros j ej Hj. destruct (H1 j ej Hj) as [Ha Hb].
    unfold envOk, outstanding, fired in *. simpl.
    pose proof (sum_delete (λ p, if bool_decide (target p = j) then 1 else 0)
                  (pending s) i _ Hi) as Hd. simpl in Hd.
    unfold pendingFor in *. unfold plus1. split; [|exact Hb].
    repeat case_bool_decide; subst; try done; lia.
  - simpl. apply Forall_forall. intros p Hp. rewrite Forall_forall in H2.
    apply H2. eapply list_elem_of_delete_inv. exact Hp.
  - exact H3.
Qed.

Lemma quiet_completes (i : nat) (s : State) :
  settled s → quiet s →
  match completes i s with
  | Ok _ s' | Throw _ s' => quiet s'
  | OutOfFuel => True
  end.
Proof.
  intros Hs Hq. unfold completes. rewrite bind_gets.
  destruct (pending s !! i) as [[r k|c k]|] eqn:Hi; try exact Hq.
  rewrite bind_modify.
  destruct (closing_consumed i s r k Hs Hi) as [Hk Hcl].
  destruct (onClose_closing (S k) k (set_pending (delete i) s) (λ _, 0))
    as (s' & _ & _ & Hrun & _); [lia | exact Hcl | exact Hk |].
  rewrite Hrun.
  eapply (onClose_quiet (S k) k _ s' (λ _, 0)); try eassumption; lia.
Qed.

Lemma quiet_perform (a : Action) (s : State) :
  settled s → quiet s →
  match perform a s with
  | Ok _ s' | Throw _ s' => quiet s'
  | OutOfFuel => True
  end.
Proof.
  intros Hs Hq.
  assert (Hgen : preserves quiet (perform a) →
            match perform a s with
            | Ok _ s' | Throw _ s' => quiet s'
            | OutOfFuel => True
            end) by (intros H; exact (H s Hq)).
  destruct a; [apply Hgen; clear Hgen .. | clear Hgen]; unfold perform, void.
  - unfold TChannel, TChannelPeers. repeat first [preserves_step | quiet_prim].
  - unfold makeSubChannel, TChannel, TChannelPeers, attachPeer, peers_add,
      peers_addPeer, getPool.
    repeat first [preserves_step | quiet_prim].
  - unfold listen, getServer, server_listen.
    repeat first [preserves_step | quiet_prim].
  - unfold register. repeat first [preserves_step | quiet_prim].
  - apply preserves_bind; [apply quiet_request | intros ?; apply preserves_ret].
  - apply quiet_close.
  - unfold serverListening, onServerSocketListening, resumeCloses, server_close.
    repeat first [preserves_step | quiet_prim].
  - unfold onServerSocketConnection.
    repeat first [preserves_step | quiet_prim].
  - unfold socketClosed, onSocketClose.
    repeat first [preserves_step | quiet_prim].
  - apply quiet_completes; assumption.
Qed.

(** *** A server socket has its table *)

Lemma serverReady_update (c : loc) (f : TChannelObj → TChannelObj) (s : State) :
  (∀ ch, (serverSocket ch ≠ None → serverConnections ch ≠ None) →
         serverSocket (f ch) ≠ None → serverConnections (f ch) ≠ None) →
  serverReady s → serverReady (set_chans (alter f c) s).
Proof.
  intros Hf H i x Hi. simpl in Hi.
  apply lookup_alter_Some in Hi as [(-> & y & Hi & ->)|[Hne Hi]].
  - apply Hf. exact (H _ _ Hi).
  - exact (H _ _ Hi).
Qed.

Lemma serverReady_insert (c : loc) (new : TChannelObj) (s : State) :
  (serverSocket new ≠ None → serverConnections new ≠ None) →
  serverReady s → serverReady (set_chans <[c := new]> s).
Proof.
  intros Hn H i x Hi. simpl in Hi.
  apply lookup_insert_Some in Hi as [[<- <-]|[Hne Hi]]; [exact Hn | exact (H _ _ Hi)].
Qed.

Ltac serverReady_field :=
  let H1 := fresh in
  let H2 := fresh in
  intros [] H1 H2; simpl in *;
  repeat match goal with
  | x : option ServerSocket |- _ => destruct x
  | x : option (gmap string loc) |- _ => destruct x
  end;
  simpl in *;
  first [ discriminate
        | congruence
        | exfalso; apply H1; [discriminate | reflexivity]
        | exfalso; apply H2; reflexivity ].

Ltac serverReady_prim :=
  preserves_prim;
  first
    [ assumption
    | apply serverReady_update; [serverReady_field | assumption]
    | apply serverReady_insert; [simpl; congruence | assumption] ].

Lemma serverReady_getServer (self : loc) : preserves serverReady (getServer self).
Proof.
  intros s H. unfold getServer, mbind at 1, M_bind at 1, chan.
  destruct (chans s !! self) as [ch|] eqn:Hch; [|exact H].
  destruct (serverSocket ch) eqn:Hss; [exact H|]. run_monad.
  intros i x Hi. simpl in Hi. rewrite alter_alter_eq in Hi.
  apply lookup_alter_Some in Hi as [(-> & y & Hi & ->)|[Hne Hi]].
  - simpl. discriminate.
  - exact (H _ _ Hi).
Qed.

Lemma serverReady_request (fuel : nat) :
  ∀ self opt, preserves serverReady (request fuel self opt).
Proof.
  induction fuel as [|fuel IH]; intros self opt; [intros s _; exact I|].
  simpl. repeat first [preserves_step | apply IH | serverReady_prim].
Qed.

Lemma serverReady_close (fuel : nat) :
  ∀ self cb, preserves serverReady (close fuel self cb).
Proof.
  induction fuel as [|fuel IH]; intros self cb; [intros s _; exact I|].
  simpl. unfold newCounter, incr, closeServerSocket, server_close, await.
  repeat first [preserves_step | apply IH | serverReady_prim].
Qed.

Lemma serverReady_onClose (fuel : nat) :
  ∀ k, preserves serverReady (onClose fuel k).
Proof.
  induction fuel as [|fuel IH]; intros k; [intros s _; exact I|].
  simpl. unfold closeEnv.
  repeat first [preserves_step | apply IH | serverReady_prim].
Qed.

Lemma serverReady_perform (a : Action) : preserves serverReady (perform a).
Proof.
  destruct a; unfold perform, void.
  - unfold TChannel, TChannelPeers. repeat first [preserves_step | serverReady_prim].
  - unfold makeSubChannel, TChannel, TChannelPeers, attachPeer, peers_add,
      peers_addPeer, getPool.
    repeat first [preserves_step | serverReady_prim].
  - unfold listen, server_listen.
    repeat first [apply serverReady_getServer | preserves_step | serverReady_prim].
  - unfold register. repeat first [preserves_step | serverReady_prim].
  - apply preserves_bind; [apply serverReady_request | intros ?; apply preserves_ret].
  - apply serverReady_close.
  - intros s H. unfold serverListening, mbind at 1, M_bind at 1, chan.
    destruct (chans s !! c) as [ch|] eqn:Hch; [|exact H].
    destruct (serverSocket ch) as [ss|] eqn:Hss; [|exact H].
    rewrite bind_update.
    match goal with |- context [set_chans ?g s] =>
      assert (H1 : serverReady (set_chans g s)) end.
    { intros i x Hi. simpl in Hi.
      apply lookup_alter_Some in Hi as [(-> & y & Hi & ->)|[Hne Hi]].
      - simpl. intros _. apply (H _ _ Hi). rewrite Hch in Hi. injection Hi as <-.
        congruence.
      - exact (H _ _ Hi). }
    revert H1. generalize (set_chans
      (alter (with_serverSocket (Some (mkServerSocket (Some port) (ss_callback ss)))) c) s).
    change (preserves serverReady
              (onServerSocketListening c ;;
               match ss_callback ss with
               | Some f => effect (ECall f)
               | None => mret ()
               end ;; resumeCloses c)).
    unfold onServerSocketListening, resumeCloses, server_close.
    repeat first [preserves_step | serverReady_prim].
  - unfold onServerSocketConnection.
    repeat first [preserves_step | serverReady_prim].
  - unfold socketClosed, onSocketClose.
    repeat first [preserves_step | serverReady_prim].
  - unfold completes.
    repeat first [preserves_step | apply serverReady_onClose | serverReady_prim].
Qed.

(** *** Two levels of recursion are enough *)

Lemma terminates_ret {A} (a : A) : terminates (mret a).
Proof. intros s. discriminate. Qed.

Lemma terminates_throw {A} (e : Error) : terminates (@throw A e).
Proof. intros s. discriminate. Qed.

Lemma terminates_assert (b : bool) (msg : string) : terminates (assert b msg).
Proof. intros s. destruct b; discriminate. Qed.

Lemma terminates_chan (c : loc) : terminates (chan c).
Proof. intros s. unfold chan. destruct (chans s !! c); discriminate. Qed.

Lemma terminates_gets {A} (f : State → A) : terminates (gets f).
Proof. intros s. discriminate. Qed.

Lemma terminates_modify (f : State → State) : terminates (modify f).
Proof. intros s. discriminate. Qed.

Lemma terminates_effect (e : Effect) : terminates (effect e).
Proof. intros s. discriminate. Qed.

Lemma terminates_update (c : loc) (f : TChannelObj → TChannelObj) :
  terminates (update c f).
Proof. intros s. discriminate. Qed.

Lemma terminates_alloc : terminates alloc.
Proof. intros s. discriminate. Qed.

Lemma terminates_bind {A B} (m : M A) (f : A → M B) :
  terminates m → (∀ a, terminates (f a)) → terminates (m ≫= f).
Proof.
  intros Hm Hf s. unfold mbind, M_bind. specialize (Hm s).
  destruct (m s) as [a s1|e s1|]; [apply Hf | discriminate | done].
Qed.

Lemma terminates_forEach {A} (l : list A) (body : A → M unit) :
  (∀ x, terminates (body x)) → terminates (forEach l body).
Proof.
  intros Hb. induction l as [|x l IH]; simpl.
  - apply terminates_ret.
  - apply terminates_bind; [apply Hb | intros _; exact IH].
Qed.

Ltac terminates_step :=
  match goal with
  | |- terminates (mbind _ _) => apply terminates_bind; [|intros ?]
  | |- terminates (mret _) => apply terminates_ret
  | |- terminates (throw _) => apply terminates_throw
  | |- terminates (assert _ _) => apply terminates_assert
  | |- terminates (chan _) => apply terminates_chan
  | |- terminates (gets _) => apply terminates_gets
  | |- terminates (modify _) => apply terminates_modify
  | |- terminates (effect _) => apply terminates_effect
  | |- terminates (update _ _) => apply terminates_update
  | |- terminates alloc => apply terminates_alloc
  | |- terminates (forEach _ _) => apply terminates_forEach; intros ?
  | |- terminates (match ?x with _ => _ end) => destruct x
  end.

Lemma request_leaf (fuel : nat) (c : loc) (opt : gmap string value) (s : State)
    (sc : TChannelObj) :
  chans s !! c = Some sc → serviceName sc ≠ "" →
  request (S fuel) c opt s ≠ OutOfFuel.
Proof.
  intros Hsc Hn. simpl. rewrite (bind_eq _ _ _ _ _ (chan_eq _ _ _ Hsc)).
  destruct (destroyed sc); [discriminate|].
  change (negb false) with true. rewrite bind_assert_true.
  apply String.eqb_neq in Hn. simpl. rewrite Hn. simpl.
  destruct (_ || _); discriminate.
Qed.

Lemma request_total (self : loc) (opt : gmap string value) (s : State) :
  hierarchy s → request 2 self opt s ≠ OutOfFuel.
Proof.
  intros Hh.
  change (request 2 self opt) with
    (ch ← chan self;
     assert (negb (destroyed ch)) "cannot request() to destroyed tchannel" ;;
     let opts := requestOptions ch opt in
     if negb (truthy (VStr (serviceName ch))) && negb (truthy (prop opts "host"))
     then
       match (if truthy (prop opts "service")
              then subChannels ch ≫= (λ m, read m (toStr (prop opts "service")))
              else None) with
       | Some (Own sub) => request 1 sub opts
       | Some Inherited => throw TypeError
       | None => throw TopLevelRequestError
       end
     else
       req ← (if truthy (prop opts "host") || truthy (prop opts "streamed")
              then effect (EPeersRequest (peers ch) opts) ;;
                   mret (PoolRequest (peers ch) opts)
              else effect (ENewRequest self opts) ;;
                   mret (TChannelRequest self opts));
       effect (EEmit self (EvRequest req)) ;;
       mret req).
  destruct (chans s !! self) as [ch|] eqn:Hch;
    [|unfold mbind, M_bind, chan; rewrite Hch; discriminate].
  rewrite (bind_eq _ _ _ _ _ (chan_eq _ _ _ Hch)).
  destruct (destroyed ch); [discriminate|].
  change (negb false) with true. rewrite bind_assert_true. cbv zeta.
  destruct (_ && _).
  - destruct (truthy (prop _ "service")); [|discriminate].
    destruct (subChannels ch ≫= _) as [[sub|]|] eqn:Hsub; [|discriminate..].
    destruct (subChannels ch) as [subs|] eqn:Hsubs; [|discriminate]. simpl in Hsub.
    apply read_Own in Hsub.
    destruct (hierarchy_sub _ _ _ _ _ _ Hh Hch Hsubs Hsub) as (sc & Hsc & Hnone & _).
    destruct (Hh _ _ Hsc) as (Hiff & _). apply Hiff in Hnone.
    eapply request_leaf; eassumption.
  - destruct (_ || _); discriminate.
Qed.

Lemma perform_total (a : Action) (s : State) :
  hierarchy s → settled s → perform a s ≠ OutOfFuel.
Proof.
  intros Hh Hs.
  assert (Hgen : terminates (perform a) → perform a s ≠ OutOfFuel)
    by (intros H; exact (H s)).
  destruct a; unfold perform, void in *.
  - apply Hgen. unfold TChannel, TChannelPeers. repeat terminates_step.
  - apply Hgen.
    unfold makeSubChannel, TChannel, TChannelPeers, attachPeer, peers_add,
      peers_addPeer, getPool.
    repeat terminates_step.
  - apply Hgen. unfold listen, getServer, server_listen. repeat terminates_step.
  - apply Hgen. unfold register. repeat terminates_step.
  - pose proof (request_total c opts s Hh) as H. unfold mbind, M_bind.
    destruct (request 2 c opts s); [discriminate | discriminate | done].
  - destruct (chans s !! c) as [ch|] eqn:Hch.
    + destruct (destroyed ch) eqn:Hd.
      * simpl. rewrite (bind_eq _ _ _ _ _ (chan_eq _ _ _ Hch)), Hd. discriminate.
      * rewrite (close_closed 0 c _ s ch Hh Hch Hd). discriminate.
    + simpl. unfold mbind, M_bind, chan. rewrite Hch. discriminate.
  - apply Hgen. unfold serverListening, onServerSocketListening, resumeCloses, server_close.
    repeat terminates_step.
  - apply Hgen. unfold onServerSocketConnection. repeat terminates_step.
  - apply Hgen. unfold socketClosed, onSocketClose. repeat terminates_step.
  - destruct (pending s !! i) as [[r k|c k]|] eqn:E.
    + destruct (completes_settled i s r k Hs E) as (s' & e & e' & -> & _). discriminate.
    + unfold completes. rewrite bind_gets, E. discriminate.
    + unfold completes. rewrite bind_gets, E. discriminate.
Qed.

(** *** The stores of a running program *)

Lemma sound_perform (a : Action) (s : State) :
  sound s → ∃ s', after (perform a s) = Some s' ∧ sound s'.
Proof.
  intros (Hw & Hr & Hs & Hq). pose proof Hw as (Hf & Hh & Hl).
  pose proof (perform_total a s Hh Hs) as Ht.
  pose proof (wellFormed_perform a s Hw) as H1.
  pose proof (serverReady_perform a s Hr) as H2.
  pose proof (settled_perform a s Hh Hs) as H3.
  pose proof (quiet_perform a s Hs Hq) as H4.
  destruct (perform a s) as [u s'|e s'|]; [| |done];
    exists s'; (split; [reflexivity|]); split_and!; assumption.
Qed.

Lemma sound_run (l : list Action) :
  ∀ s, sound s → ∃ s', run l s = Some s' ∧ sound s'.
Proof.
  induction l as [|a l IH]; intros s H; simpl.
  - eauto.
  - destruct (sound_perform a s H) as (s1 & -> & H1). simpl. apply IH. exact H1.
Qed.

(** X11: calls and events never run out of the two levels of recursion
    that a one-level hierarchy needs: from a sound store (the empty store is
    one) every sequence of constructor calls, [makeSubChannel], [listen],
    [register], [request], [close], socket events and completions runs to
    its end, each step returning or throwing, and leaves a sound store. *)
Theorem run_never_stuck (l : list Action) (s0 : State) :
  sound s0 → ∃ s, run l s0 = Some s ∧ sound s.
Proof.
  revert s0. induction l as [|a l IH]; intros s0 H; simpl.
  - exists s0. split; [reflexivity | exact H].
  - destruct (sound_perform a s0 H) as (s1 & E & H1). rewrite E. simpl.
    apply IH. exact H1.
Qed.

(** X12: the hierarchy has one level in every store that calls and events
    lead to: a channel has a sub-channel registry exactly when it has no
    service name; a channel registered under a name is a channel with that
    service name, without a registry of its own, whose [topChannel] is the
    channel that holds the registry; and the [topChannel] of a channel is a
    channel without service name and without [topChannel]. *)
Theorem hierarchy_has_one_level (l : list Action) (s0 s : State) (c : loc)
    (ch : TChannelObj) :
  sound s0 → run l s0 = Some s → chans s !! c = Some ch →
  (subChannels ch = None ↔ serviceName ch ≠ "") ∧
  (∀ subs name sub, subChannels ch = Some subs → subs !! name = Some sub →
     ∃ sc, chans s !! sub = Some sc ∧ serviceName sc = name ∧
           subChannels sc = None ∧ topChannel sc = Some c ∧ sub ≠ c) ∧
  (∀ t, topChannel ch = Some t →
     ∃ top, chans s !! t = Some top ∧ serviceName top = "" ∧
            topChannel top = None ∧ serviceName ch ≠ "").
Proof.
  intros H0 Hr Hc. destruct (sound_run l s0 H0) as (s' & Hr' & Hs).
  rewrite Hr in Hr'. injection Hr' as <-.
  destruct Hs as ((_ & Hh & Hl) & _). split_and!.
  - exact (proj1 (Hh c ch Hc)).
  - intros subs name sub Hsubs Hn.
    destruct (hierarchy_sub _ _ _ _ _ _ Hh Hc Hsubs Hn) as (sc & Hsc & Hnone & Hne).
    destruct (linked_sub _ _ _ _ _ _ Hl Hc Hsubs Hn) as (sc' & Hsc' & Htop & Hname).
    rewrite Hsc in Hsc'. injection Hsc' as <-. exists sc. done.
  - intros t Ht. destruct (linked_top _ _ _ _ Hl Hc Ht) as (top & Htop & Hn & Hnt).
    exists top. split_and!; try done.
    destruct (Hl c ch Hc) as [H _]. rewrite Ht in H. exact (proj1 H).
Qed.

(** X13: as long as every close that was started is answered by one
    completion, no counter of a [close] call goes below 0, whatever the
    calls and events and their order: the line "closed more channel sockets
    than expected" is never logged, the counter of a [close] call is the
    number of its sub-resources that have not completed yet, and its
    callback has been invoked once if that number is 0 and not at all
    otherwise. *)
Theorem callback_at_most_once (l : list Action) (s0 s : State) (k : nat)
    (e : CloseEnv) :
  sound s0 → run l s0 = Some s → closeEnvs s !! k = Some e →
  Forall (λ ev, ev ≠ ELoggerError "closed more channel sockets than expected")
    (trace s) ∧
  counter e = Z.of_nat (outstanding k s) ∧
  ∀ f, callback e = CbFun f →
    fired k s = (if bool_decide (outstanding k s = 0) then 1 else 0).
Proof.
  intros H0 Hr Hk. destruct (sound_run l s0 H0) as (s' & Hr' & Hs).
  rewrite Hr in Hr'. injection Hr' as <-.
  destruct Hs as (_ & _ & Hs & Hq). split_and!.
  - eapply Forall_impl; [exact Hq|]. intros ev Hev ->. discriminate.
  - apply closing_alt in Hs as (H1 & _). destruct (H1 k e Hk) as [Ha _].
    rewrite Ha. f_equal. lia.
  - intros f Hf. apply closing_alt in Hs as (H1 & _).
    destruct (H1 k e Hk) as [Ha Hb]. rewrite Hf in Hb. rewrite Hb.
    rewrite Ha. repeat case_bool_decide; try reflexivity; lia.
Qed.

(** What an accepted socket leaves in the trace, on a channel that is not
    destroyed: the last three effects are the [close] listener on the
    socket, the write to the table and the [connection] event. *)
Lemma accept_trace (self : loc) (sock : Socket) (s : State) (ch : TChannelObj)
    (table : gmap string loc) :
  chans s !! self = Some ch → destroyed ch = false →
  serverConnections ch = Some table →
  let remoteAddr := remoteAddress sock +:+ ":" +:+ pretty (remotePort sock) in
  ∃ s' tr,
    onServerSocketConnection self sock s = Ok () s' ∧
    trace s' = trace s ++
      ENewConnection (nextLoc s) self sock "in" remoteAddr :: tr ++
      [ESocketOn (sock_id sock) "close";
       ETableSet self remoteAddr (nextLoc s);
       EEmit self (EvConnection (nextLoc s))].
Proof.
  intros Hch Hd Htable remoteAddr.
  unfold onServerSocketConnection. run_monad. rewrite Hch. simpl.
  rewrite Hd, Htable. simpl. fold remoteAddr.
  destruct (table !! remoteAddr) as [old|] eqn:Hold; simpl.
  - eexists _, [_; _; _]. split; [reflexivity|]. simpl.
    rewrite <- !app_assoc. reflexivity.
  - eexists _, [_]. split; [reflexivity|]. simpl.
    rewrite <- !app_assoc. reflexivity.
Qed.

(** X14: a channel that has a server socket has its inbound table, in
    every store that calls and events lead to; so an accepted socket is
    always taken in without an exception. On a destroyed channel it goes to
    the log and nothing else changes. Otherwise a connection is made for
    it, in the direction "in" and under its remote address, the table of
    the channel maps that address to the new connection and keeps its other
    entries, and the last effects are the [close] listener on the socket,
    the write to the table and the [connection] event that carries the new
    connection. *)
Theorem accept_never_throws (l : list Action) (s0 s : State) (c : loc)
    (ch : TChannelObj) (sock : Socket) :
  sound s0 → run l s0 = Some s → chans s !! c = Some ch →
  is_Some (serverSocket ch) →
  let remoteAddr := remoteAddress sock +:+ ":" +:+ pretty (remotePort sock) in
  ∃ table s',
    serverConnections ch = Some table ∧
    onServerSocketConnection c sock s = Ok () s' ∧
    (destroyed ch = true →
       s' = logged (ELoggerError "got incoming socket whilst destroyed") s) ∧
    (destroyed ch = false →
       ∃ ch' tr,
         chans s' !! c = Some ch' ∧
         serverConnections ch' = Some (<[remoteAddr := nextLoc s]> table) ∧
         conns s' !! nextLoc s = Some (mkConnection c sock "in" remoteAddr) ∧
         trace s' = trace s ++
           ENewConnection (nextLoc s) c sock "in" remoteAddr :: tr ++
           [ESocketOn (sock_id sock) "close";
            ETableSet c remoteAddr (nextLoc s);
            EEmit c (EvConnection (nextLoc s))]).
Proof.
  intros H0 Hr Hc [ss Hss] remoteAddr.
  destruct (sound_run l s0 H0) as (s' & Hr' & Hs).
  rewrite Hr in Hr'. injection Hr' as <-.
  destruct Hs as (_ & Hsr & _).
  assert (Ht : is_Some (serverConnections ch)).
  { specialize (Hsr c ch Hc). simpl in Hsr.
    destruct (serverConnections ch); [eauto|]. exfalso. apply Hsr; congruence. }
  destruct Ht as [table Ht]. exists table.
  destruct (destroyed ch) eqn:Hd.
  - exists (logged (ELoggerError "got incoming socket whilst destroyed") s).
    split; [exact Ht|]. split; [|split; [reflexivity|discriminate]].
    unfold onServerSocketConnection.
    rewrite (bind_eq _ _ _ _ _ (chan_eq _ _ _ Hc)), Hd. reflexivity.
  - destruct (accept_Ok c sock s ch table Hc Hd Ht)
      as (s' & ch' & Hrun & Hc' & _ & Ht' & _ & _ & Hcn).
    destruct (accept_trace c sock s ch table Hc Hd Ht) as (s'' & tr & Hrun' & Htr).
    rewrite Hrun in Hrun'. injection Hrun' as <-.
    exists s'. split; [exact Ht|]. split; [exact Hrun|].
    split; [discriminate|]. intros _. exists ch', tr.
    split; [exact Hc'|]. split; [exact Ht'|]. split; [|exact Htr].
    rewrite Hcn. apply lookup_insert_eq.
Qed.

(** *** Destroyed for good *)

Lemma isDestroyed_update (c x : loc) (f : TChannelObj → TChannelObj) (s : State) :
  (∀ ch, destroyed ch = true → destroyed (f ch) = true) →
  isDestroyed c s → isDestroyed c (set_chans (alter f x) s).
Proof.
  intros Hf (Hlt & ch & Hch & Hd). split; [exact Hlt|]. simpl.
  destruct (decide (x = c)) as [->|Hne].
  - exists (f ch). rewrite lookup_alter_eq, Hch. split; [reflexivity | auto].
  - exists ch. rewrite lookup_alter_ne by done. done.
Qed.

Lemma isDestroyed_TChannel (c : loc) (opts : Options) :
  preserves (isDestroyed c) (TChannel opts).
Proof.
  intros s (Hlt & ch & Hch & Hd).
  destruct (TChannel_Ok opts s) as (s' & new & -> & Hc & _ & _ & _ & Hn & _).
  split; [lia|]. exists ch. rewrite Hc, lookup_insert_ne by lia. done.
Qed.

Ltac isDestroyed_prim :=
  first
    [ apply isDestroyed_TChannel
    | preserves_prim;
      first
        [ assumption
        | apply isDestroyed_update; [intros []; simpl; auto | assumption]
        | match goal with H : isDestroyed _ _ |- _ =>
            destruct H as (? & ? & ? & ?); split; simpl; [lia | eauto] end ] ].

Lemma isDestroyed_request (c : loc) (fuel : nat) :
  ∀ self opt, preserves (isDestroyed c) (request fuel self opt).
Proof.
  induction fuel as [|fuel IH]; intros self opt; [intros s _; exact I|].
  simpl. repeat first [preserves_step | apply IH | isDestroyed_prim].
Qed.

Lemma isDestroyed_close (c : loc) (fuel : nat) :
  ∀ self cb, preserves (isDestroyed c) (close fuel self cb).
Proof.
  induction fuel as [|fuel IH]; intros self cb; [intros s _; exact I|].
  simpl. unfold newCounter, incr, closeServerSocket, server_close, await.
  repeat first [preserves_step | apply IH | isDestroyed_prim].
Qed.

Lemma isDestroyed_onClose (c : loc) (fuel : nat) :
  ∀ k, preserves (isDestroyed c) (onClose fuel k).
Proof.
  induction fuel as [|fuel IH]; intros k; [intros s _; exact I|].
  simpl. unfold closeEnv.
  repeat first [preserves_step | apply IH | isDestroyed_prim].
Qed.

Lemma isDestroyed_perform (c : loc) (a : Action) :
  preserves (isDestroyed c) (perform a).
Proof.
  destruct a; unfold perform, void.
  - repeat first [preserves_step | isDestroyed_prim].
  - unfold makeSubChannel, attachPeer, peers_add, peers_addPeer, getPool.
    repeat first [preserves_step | isDestroyed_prim].
  - unfold listen, getServer, server_listen.
    repeat first [preserves_step | isDestroyed_prim].
  - unfold register. repeat first [preserves_step | isDestroyed_prim].
  - apply preserves_bind; [apply isDestroyed_request | intros ?; apply preserves_ret].
  - apply isDestroyed_close.
  - unfold serverListening, onServerSocketListening, resumeCloses, server_close.
    repeat first [preserves_step | isDestroyed_prim].
  - unfold onServerSocketConnection.
    repeat first [preserves_step | isDestroyed_prim].
  - unfold socketClosed, onSocketClose.
    repeat first [preserves_step | isDestroyed_prim].
  - unfold completes.
    repeat first [preserves_step | apply isDestroyed_onClose | isDestroyed_prim].
Qed.

Lemma isDestroyed_run (c : loc) (l : list Action) :
  ∀ s s', isDestroyed c s → run l s = Some s' → isDestroyed c s'.
Proof.
  induction l as [|a l IH]; intros s s' H E; simpl in E.
  - injection E as <-. exact H.
  - destruct (after (perform a s)) as [s1|] eqn:E1; [|discriminate].
    simpl in E. eapply IH; [|exact E].
    eapply preserves_after; [apply isDestroyed_perform | exact H | exact E1].
Qed.

Lemma closeSub_nextLoc (k : nat) (s : State) (sub : loc) :
  nextLoc (closeSub k s sub) = nextLoc s.
Proof.
  unfold closeSub. destruct (chans s !! sub) as [sc|]; [|reflexivity].
  destruct (destroyed sc); reflexivity.
Qed.

Lemma foldSub_nextLoc (k : nat) (l : list loc) :
  ∀ s, nextLoc (foldl (closeSub k) s l) = nextLoc s.
Proof.
  induction l as [|sub l IH]; intros s; [reflexivity|].
  simpl. rewrite IH. apply closeSub_nextLoc.
Qed.

(** The loop over the sub-channels leaves every one of them destroyed. *)
Lemma foldSub_member (k : nat) (sub : loc) (l : list loc) :
  ∀ s, sub ∈ l → is_Some (chans s !! sub) →
       ∃ sc, chans (foldl (closeSub k) s l) !! sub = Some sc ∧ destroyed sc = true.
Proof.
  induction l as [|x l IH]; intros s Hin [sc Hsc]; [by apply elem_of_nil in Hin|].
  apply elem_of_cons in Hin as [<-|Hin].
  - simpl. apply foldSub_destroyed. unfold closeSub. rewrite Hsc.
    destruct (destroyed sc) eqn:Hd; [eauto|].
    exists (shut sc). simpl. rewrite lookup_alter_eq, Hsc. done.
  - simpl. apply IH; [exact Hin|].
    destruct (closeSub_chans k s x) as [-> | ->]; [eauto|].
    rewrite lookup_alter_is_Some. eauto.
Qed.

(** X15: [close] is final and reaches the sub-channels at once: when
    [close] on a channel returns, the channel and every sub-channel
    registered with it are destroyed, and they stay so whatever calls and
    events follow: every later [request] and [close] on any of them throws,
    and a socket accepted for any of them is only logged. *)
Theorem close_is_final (self : loc) (cb : Callback) (s : State)
    (ch : TChannelObj) :
  fresh s → hierarchy s → chans s !! self = Some ch → destroyed ch = false →
  ∃ s1,
    (∀ fuel, close (S (S fuel)) self cb s = Ok () s1) ∧
    ∀ c, c = self ∨ c ∈ subList ch →
      ∀ l s2, run l s1 = Some s2 →
        (∃ x, chans s2 !! c = Some x ∧ destroyed x = true) ∧
        (∀ fuel opt, request (S fuel) c opt s2 = Throw UseAfterCloseError s2) ∧
        (∀ fuel cb', close (S fuel) c cb' s2 = Throw DoubleCloseError s2) ∧
        (∀ sock, onServerSocketConnection c sock s2 =
           Ok () (logged (ELoggerError "got incoming socket whilst destroyed") s2)).
Proof.
  intros Hf Hh Hch Hd. exists (closed self ch cb s).
  split; [intros fuel; apply close_closed; assumption|].
  intros c Hc l s2 Hr.
  assert (Hn : nextLoc (closed self ch cb s) = nextLoc s).
  { unfold closed, closeEnd. simpl. rewrite foldSub_nextLoc. reflexivity. }
  assert (H1 : isDestroyed c (closed self ch cb s)).
  { split.
    - rewrite Hn. destruct Hc as [->|Hc]; [exact (proj1 (proj1 Hf _ _ Hch))|].
      unfold subList in Hc. destruct (subChannels ch) as [subs|] eqn:Hsubs;
        [|by apply elem_of_nil in Hc].
      apply list_elem_of_fmap in Hc as ([n x] & -> & Hx).
      apply elem_of_map_to_list in Hx.
      destruct (hierarchy_sub _ _ _ _ _ _ Hh Hch Hsubs Hx) as (sc & Hsc & _).
      exact (proj1 (proj1 Hf _ _ Hsc)).
    - unfold closed, closeEnd. simpl. destruct Hc as [->|Hc].
      + apply foldSub_destroyed. unfold closeBegin. simpl.
        exists (shut ch). rewrite lookup_alter_eq, Hch. done.
      + apply foldSub_member; [exact Hc|]. unfold closeBegin. simpl.
        rewrite lookup_alter_is_Some.
        unfold subList in Hc. destruct (subChannels ch) as [subs|] eqn:Hsubs;
          [|by apply elem_of_nil in Hc].
        apply list_elem_of_fmap in Hc as ([n x] & -> & Hx).
        apply elem_of_map_to_list in Hx.
        destruct (hierarchy_sub _ _ _ _ _ _ Hh Hch Hsubs Hx) as (sc & Hsc & _).
        eauto. }
  destruct (isDestroyed_run c l _ _ H1 Hr) as (_ & x & Hx & Hdx).
  split_and!.
  - eauto.
  - intros fuel opt. simpl.
    rewrite (bind_eq _ _ _ _ _ (chan_eq _ _ _ Hx)), Hdx. reflexivity.
  - intros fuel cb'. simpl.
    rewrite (bind_eq _ _ _ _ _ (chan_eq _ _ _ Hx)), Hdx. reflexivity.
  - intros sock. unfold onServerSocketConnection.
    rewrite (bind_eq _ _ _ _ _ (chan_eq _ _ _ Hx)), Hdx. reflexivity.
Qed.

(** *** A close while the bind is in flight *)

Lemma closeSub_grows (k : nat) (s : State) (sub c : loc) :
  sub ≠ c →
  chans (closeSub k s sub) !! c = chans s !! c ∧
  ∃ p tr, pending (closeSub k s sub) = pending s ++ p ∧
          trace (closeSub k s sub) = trace s ++ tr ∧
          Forall (λ ev, ev ≠ EServerClose c) tr.
Proof.
  intros Hne. unfold closeSub.
  destruct (chans s !! sub) as [sc|] eqn:Hsc;
    [|split; [done|]; exists [], []; rewrite !app_nil_r; done].
  destruct (destroyed sc);
    [split; [done|]; exists [], []; rewrite !app_nil_r; done|].
  split; [simpl; rewrite lookup_alter_ne by done; reflexivity|].
  eexists _, _. split; [|split].
  - unfold closedLeaf, closeEnd, closeBegin. simpl. rewrite <- !app_assoc. reflexivity.
  - rewrite closedLeaf_trace. simpl. rewrite <- app_assoc. reflexivity.
  - apply Forall_cons. split; [discriminate|].
    apply Forall_cons. split; [discriminate|].
    apply Forall_cons. split; [discriminate|].
    apply Forall_app. split; [|apply Forall_app; split].
    + unfold serverTrace. destruct (serverSocket sc) as [ss|]; [|constructor].
      apply Forall_cons. split; [discriminate|].
      destruct (ss_address ss); repeat constructor; congruence.
    + unfold connTrace. apply Forall_forall. intros ev Hev.
      apply list_elem_of_bind in Hev as (x & Hev & _).
      apply elem_of_cons in Hev as [->|Hev]; [discriminate|].
      apply list_elem_of_singleton in Hev as ->. discriminate.
    + repeat constructor. discriminate.
Qed.

Lemma foldSub_grows (k : nat) (c : loc) (l : list loc) :
  ∀ s, c ∉ l →
    chans (foldl (closeSub k) s l) !! c = chans s !! c ∧
    ∃ p tr, pending (foldl (closeSub k) s l) = pending s ++ p ∧
            trace (foldl (closeSub k) s l) = trace s ++ tr ∧
            Forall (λ ev, ev ≠ EServerClose c) tr.
Proof.
  induction l as [|sub l IH]; intros s Hc.
  - split; [done|]. exists [], []. rewrite !app_nil_r. done.
  - apply not_elem_of_cons in Hc as [Hne Hc]. simpl.
    destruct (closeSub_grows k s sub c) as (Hc1 & p1 & t1 & Hp1 & Ht1 & Hf1); [done|].
    destruct (IH (closeSub k s sub) Hc) as (Hc2 & p2 & t2 & Hp2 & Ht2 & Hf2).
    split; [congruence|]. exists (p1 ++ p2), (t1 ++ t2).
    rewrite Hp2, Hp1, Ht2, Ht1, <- !app_assoc. split_and!; try done.
    apply Forall_app. done.
Qed.

(** X16: when a channel is closed while the bind of its server socket is
    still in flight, [close] does not close the socket: it waits for the
    [listening] event. When the bind completes, the event finds the channel
    destroyed: it is logged, neither [hostPort] nor [listening] is written,
    and only then the socket's close is asked for, to be answered by the
    [onClose] of that [close] call. *)
Theorem close_waits_for_bind (self : loc) (cb : Callback) (port : Z)
    (s : State) (ch : TChannelObj) (ss : ServerSocket) :
  hierarchy s → chans s !! self = Some ch → destroyed ch = false →
  serverSocket ch = Some ss → ss_address ss = None →
  let k := length (closeEnvs s) in
  ∃ s1 s2 ch2 tr1 tr2,
    (∀ fuel, close (S (S fuel)) self cb s = Ok () s1) ∧
    trace s1 = trace s ++ tr1 ∧
    EServerOnce self "listening" k ∈ tr1 ∧ (EServerClose self ∉ tr1) ∧
    AwaitListening self k ∈ pending s1 ∧
    serverListening self port s1 = Ok () s2 ∧
    chans s2 !! self = Some ch2 ∧
    hostPort ch2 = hostPort ch ∧ listening ch2 = listening ch ∧
    destroyed ch2 = true ∧
    trace s2 = trace s1 ++
      ELoggerError "got serverSocket listen whilst destroyed" :: tr2 ∧
    EServerOnce self "close" k ∈ tr2 ∧ EServerClose self ∈ tr2 ∧
    AwaitClose (RServer self) k ∈ pending s2 ∧
    (AwaitListening self k ∉ pending s2).
Proof.
  intros Hh Hch Hd Hss Haddr k.
  destruct (hierarchy_subList s self ch Hh Hch) as [_ Hni].
  pose proof (close_closed 0 self cb s ch Hh Hch Hd) as Hrun.
  set (s1 := closed self ch cb s) in *.
  destruct (foldSub_grows k self (subList ch) (closeBegin self ch cb s) Hni)
    as (Hc & p & t & Hp & Ht & Hft).
  assert (Hch1 : chans s1 !! self = Some (with_destroyed true ch)).
  { unfold s1, closed, closeEnd. simpl. fold k. rewrite Hc. unfold closeBegin. simpl.
    rewrite lookup_alter_eq, Hch. simpl. rewrite shut_unbound; [reflexivity|].
    rewrite Hss. exact Haddr. }
  assert (Hpe1 : AwaitListening self k ∈ pending s1).
  { unfold s1, closed, closeEnd. simpl. fold k. rewrite Hp. unfold closeBegin. simpl.
    fold k. rewrite Hss. simpl. rewrite Haddr.
    rewrite !elem_of_app, elem_of_cons. auto 10. }
  assert (Htr1 : trace s1 = trace s ++
            ([EClose self cb; ECounterInit k; ECounterInc k;
              EServerOnce self "listening" k] ++
             connTrace k (connList (serverConnections ch)) ++ t ++
             [EPeersClose (peers ch) k])).
  { unfold s1, closed, closeEnd. simpl. fold k. rewrite Ht. unfold closeBegin. simpl.
    fold k. rewrite Hss. simpl. rewrite Haddr. simpl. rewrite <- !app_assoc.
    simpl. rewrite <- ?app_assoc. reflexivity. }
  assert (Hh1 : hierarchy s1).
  { pose proof (sameShape_close s 2 self cb s (sameShape_refl s)) as H.
    rewrite Hrun in H. eapply hierarchy_sameShape; eassumption. }
  assert (Hrun' : ∀ fuel, close (S (S fuel)) self cb s = Ok () s1)
    by (intros fuel; apply close_closed; assumption).
  clearbody s1.
  destruct (serverListening_chans self port s1 _ ss Hh1 Hch1 Hss)
    as (s2 & Hrun2 & Hc2 & Hpe2 & _ & _ & Htr2).
  simpl in Hc2, Htr2.
  assert (Hwait : k ∈ waitingForListening self (pending s1)).
  { unfold waitingForListening. apply list_elem_of_omap.
    exists (AwaitListening self k). split; [exact Hpe1|].
    rewrite bool_decide_eq_true_2 by done. reflexivity. }
  exists s1, s2.
  exists (with_closedServer
            (with_serverSocket (Some (mkServerSocket (Some port) (ss_callback ss)))
               (with_destroyed true ch))).
  eexists. eexists. split_and!.
  - exact Hrun'.
  - exact Htr1.
  - do 3 (apply elem_of_cons; right). apply elem_of_cons. left. reflexivity.
  - intros Hin. repeat (apply elem_of_cons in Hin as [Hin|Hin]; [discriminate|]).
    apply elem_of_app in Hin as [Hin|Hin].
    { unfold connTrace in Hin. apply list_elem_of_bind in Hin as (x & Hev & _).
      apply elem_of_cons in Hev as [Hev|Hev]; [discriminate|].
      apply list_elem_of_singleton in Hev. discriminate. }
    apply elem_of_app in Hin as [Hin|Hin].
    { rewrite Forall_forall in Hft. exact (Hft _ Hin eq_refl). }
    apply list_elem_of_singleton in Hin. discriminate.
  - exact Hpe1.
  - exact Hrun2.
  - rewrite Hc2, resumedChans_self.
    destruct (waitingForListening self (pending s1)) eqn:Hw;
      [by apply elem_of_nil in Hwait|].
    simpl. rewrite lookup_alter_eq, Hch1. reflexivity.
  - reflexivity.
  - reflexivity.
  - reflexivity.
  - rewrite Htr2. reflexivity.
  - apply elem_of_app. right. unfold resumeTrace.
    apply list_elem_of_bind. exists k. split; [|exact Hwait].
    apply elem_of_cons. left. reflexivity.
  - apply elem_of_app. right. unfold resumeTrace.
    apply list_elem_of_bind. exists k. split; [|exact Hwait].
    apply elem_of_cons. right. apply elem_of_cons. left. reflexivity.
  - rewrite Hpe2. apply list_elem_of_fmap. exists (AwaitListening self k).
    split; [|exact Hpe1]. simpl. rewrite bool_decide_eq_true_2 by done. reflexivity.
  - rewrite Hpe2. intros Hin. apply list_elem_of_fmap in Hin as (x & Hx & _).
    destruct x as [r j|c j]; simpl in Hx; [discriminate|].
    case_bool_decide; [discriminate|]. congruence.
Qed.

(** *** A connection comes and goes *)

(** X17: a socket accepted from a remote address that is not in the inbound
    table puts its connection into the table under that address, and the
    close of that socket takes it out again: afterwards the table, and
    every channel, is what it was before the socket came. *)
Theorem accept_close_round_trip (self : loc) (sock : Socket) (s : State)
    (ch : TChannelObj) (table : gmap string loc) :
  chans s !! self = Some ch → destroyed ch = false →
  serverConnections ch = Some table →
  let remoteAddr := remoteAddress sock +:+ ":" +:+ pretty (remotePort sock) in
  table !! remoteAddr = None →
  (∀ x, x ∈ socketClose s → x.1 ≠ sock_id sock) →
  ∃ s1 s2 ch1,
    onServerSocketConnection self sock s = Ok () s1 ∧
    chans s1 !! self = Some ch1 ∧
    serverConnections ch1 = Some (<[remoteAddr := nextLoc s]> table) ∧
    socketClosed (sock_id sock) s1 = Ok () s2 ∧
    chans s2 = chans s ∧
    trace s2 = trace s1 ++ [ETableDelete self remoteAddr].
Proof.
  intros Hch Hd Htable remoteAddr Hnone Hfresh.
  destruct (accept_Ok self sock s ch table Hch Hd Htable)
    as (s1 & ch1 & E1 & Hch1 & Hd1 & Ht1 & Hsc1 & Hn1 & Hcn1).
  fold remoteAddr in Ht1, Hsc1, Hcn1.
  assert (Hc1 : chans s1 =
            alter (with_serverConnections (Some (<[remoteAddr := nextLoc s]> table)))
              self (chans s)).
  { revert E1. unfold onServerSocketConnection. run_monad. rewrite Hch. simpl.
    rewrite Hd, Htable. simpl. fold remoteAddr. rewrite Hnone. simpl.
    intros [= <-]. simpl. apply alter_ext. intros x Hx.
    rewrite Hch in Hx. injection Hx as <-. rewrite Htable. reflexivity. }
  assert (Hfilter : filter (λ x, x.1 = sock_id sock) (socketClose s1)
                    = [(sock_id sock, (self, remoteAddr))]).
  { rewrite Hsc1, !filter_app.
    rewrite (filter_none _ (socketClose s)) by exact Hfresh.
    rewrite !filter_cons, filter_nil. simpl.
    rewrite decide_True by done. reflexivity. }
  exists s1.
  exists (logged (ETableDelete self remoteAddr)
            (set_chans
               (alter (λ x, with_serverConnections
                              (delete remoteAddr <$> serverConnections x) x) self)
               s1)).
  exists ch1. split_and!; try assumption.
  - unfold socketClosed. unfold mbind at 1, M_bind at 1, gets. rewrite Hfilter.
    simpl. unfold onSocketClose. run_monad. rewrite Hch1. simpl. rewrite Ht1. reflexivity.
  - simpl. rewrite Hc1, alter_alter_eq. apply map_eq. intros i.
    destruct (decide (i = self)) as [->|Hi].
    + rewrite lookup_alter_eq, Hch. simpl. rewrite delete_insert_id by exact Hnone.
      rewrite <- Htable. destruct ch; reflexivity.
    + rewrite lookup_alter_ne by done. reflexivity.
  - reflexivity.
Qed.

(** *** A new sub-channel takes the requests for its service *)



(** *** serviceName for service *)

(** X19: a request that names its service by [serviceName] only is the
    request that names it by [service]: when neither the caller's options
    nor the channel's request defaults give a [service], and one of them
    gives a [serviceName], [request] behaves, on every store and with every
    outcome, as if the caller had passed that name as [service]. *)
Theorem serviceName_is_service (fuel : nat) (self : loc)
    (opt : gmap string value) (s : State) (ch : TChannelObj) :
  chans s !! self = Some ch →
  let given := opt ∪ requestDefaults ch in
  truthy (prop given "service") = false →
  truthy (prop given "serviceName") = true →
  prop (requestOptions ch opt) "service" = prop given "serviceName" ∧
  request fuel self opt s =
    request fuel self (<["service" := prop given "serviceName"]> opt) s.
Proof.
  intros Hch given Hs Hn.
  assert (E1 : requestOptions ch opt = <["service" := prop given "serviceName"]> given).
  { unfold requestOptions. fold given. cbv zeta. rewrite Hs, Hn. reflexivity. }
  assert (E2 : requestOptions ch (<["service" := prop given "serviceName"]> opt)
               = <["service" := prop given "serviceName"]> given).
  { unfold requestOptions. cbv zeta. rewrite <- insert_union_l. fold given.
    unfold prop at 1. rewrite lookup_insert_eq. simpl. rewrite Hn. reflexivity. }
  split.
  - rewrite E1. unfold prop at 1. rewrite lookup_insert_eq. reflexivity.
  - destruct fuel as [|fuel]; [reflexivity|]. simpl.
    rewrite !(bind_eq _ _ _ _ _ (chan_eq _ _ _ Hch)).
    destruct (destroyed ch); [reflexivity|].
    change (negb false) with true. rewrite !bind_assert_true.
    rewrite E1, E2. reflexivity.
Qed.

(** *** hostPort, whichever comes first *)

Lemma hostPort_truthy (h : value) (port : Z) :
  truthy (VStr (toStr h +:+ ":" +:+ pretty port)) = true.
Proof. simpl. destruct (toStr h); reflexivity. Qed.

(** X20: a sub-channel gets the [hostPort] of its top channel whether it
    is made before the bind completes or after: made before, it is given
    the [hostPort] by the [listening] event; made after, by
    [makeSubChannel]; the new channel, its place and its [hostPort] are the
    same in both orders. *)
Theorem hostPort_either_order (self : loc) (opts : Options) (port : Z)
    (s sA sA' sB sB' : State) (ch : TChannelObj) (ss : ServerSocket)
    (c c' : loc) :
  wellFormed s → chans s !! self = Some ch → destroyed ch = false →
  serverSocket ch = Some ss → truthy (hostPort ch) = false →
  makeSubChannel self opts s = Ok c sA →
  serverListening self port sA = Ok () sA' →
  serverListening self port s = Ok () sB →
  makeSubChannel self opts sB = Ok c' sB' →
  let hp := VStr (toStr (host ch) +:+ ":" +:+ pretty port) in
  c' = c ∧
  hostPort <$> chans sA' !! c = Some hp ∧
  hostPort <$> chans sB' !! c = Some hp ∧
  hostPort <$> chans sA' !! self = Some hp ∧
  hostPort <$> chans sB' !! self = Some hp.
Proof.
  intros Hw Hch Hd Hss Hfalsy EA EA' EB EB' hp.
  pose proof Hw as (Hf & Hh & Hl).
  assert (Hlt : map_Forall (λ c _, c < nextLoc s) (chans s)).
  { intros i x Hi. apply (proj1 Hf i x Hi). }
  (* made first, bound afterwards *)
  destruct (makeSubChannel_Ok _ _ _ _ _ Hlt EA) as
    (ch0 & subs & new & Hch0 & Hn & Hsubs & Hname & Hne & -> & HchansA & Hsn & Hns &
     Htop & _ & Hhp & _).
  rewrite Hch in Hch0. injection Hch0 as <-. rewrite Hfalsy in Hhp.
  destruct (proj1 Hf _ _ Hch) as [Hself _].
  set (topA := with_subChannels (Some (<[o_serviceName opts := nextLoc s]> subs)) ch) in *.
  assert (HtopA : chans sA !! self = Some topA).
  { rewrite HchansA, lookup_insert_ne, lookup_insert_eq by lia. reflexivity. }
  assert (HnewA : chans sA !! nextLoc s = Some new).
  { rewrite HchansA, lookup_insert_eq. reflexivity. }
  assert (HhA : hierarchy sA).
  { pose proof (wellFormed_makeSubChannel self opts s Hw) as H. rewrite EA in H.
    exact (proj1 (proj2 H)). }
  destruct (serverListening_chans self port sA topA ss HhA HtopA Hss)
    as (x & Ex & HcA' & _).
  rewrite EA' in Ex. injection Ex as <-.
  change (destroyed topA) with (destroyed ch) in HcA'. rewrite Hd in HcA'.
  (* bound first, made afterwards *)
  destruct (serverListening_chans self port s ch ss Hh Hch Hss)
    as (x & Ex & HcB & _ & _ & HnB & _).
  rewrite EB in Ex. injection Ex as <-. rewrite Hd in HcB.
  assert (HfB : fresh sB).
  { pose proof (fresh_perform (AServerListening self port) s Hf) as H.
    unfold perform in H. rewrite EB in H. exact H. }
  assert (HltB : map_Forall (λ c _, c < nextLoc sB) (chans sB)).
  { intros i x Hi. apply (proj1 HfB i x Hi). }
  assert (HtopB : ∃ topB, chans sB !! self = Some topB ∧ hostPort topB = hp).
  { assert (H : hostPort <$> chans sB !! self = Some hp).
    { rewrite HcB, resumedChans_hostPort. unfold bound. simpl.
      rewrite propagate_lookup, !lookup_alter_eq, Hch. simpl.
      case_bool_decide; simpl; f_equal. rewrite inherit_same; reflexivity. }
    destruct (chans sB !! self) as [topB|]; [|discriminate].
    exists topB. split; [reflexivity|]. injection H as H. exact H. }
  destruct HtopB as (topB & HtopB & HhpB).
  destruct (makeSubChannel_Ok _ _ _ _ _ HltB EB') as
    (ch0 & subsB & newB & Hch0 & _ & _ & _ & _ & -> & HchansB & _ & _ &
     _ & _ & HhpB' & _).
  rewrite HtopB in Hch0. injection Hch0 as <-.
  rewrite HhpB in HhpB'. unfold hp in HhpB'. rewrite hostPort_truthy in HhpB'.
  fold hp in HhpB'.
  split; [exact HnB|]. split_and!.
  - rewrite HcA', resumedChans_hostPort. unfold bound. simpl. rewrite propagate_lookup.
    rewrite bool_decide_eq_true_2.
    + rewrite !lookup_alter_ne, HnewA by lia. simpl. f_equal.
      unfold inherit. rewrite Hhp. reflexivity.
    + apply list_elem_of_fmap. exists (o_serviceName opts, nextLoc s).
      split; [reflexivity|]. apply elem_of_map_to_list. simpl.
      apply lookup_insert_eq.
  - rewrite HchansB, HnB, lookup_insert_eq. simpl. congruence.
  - rewrite HcA', resumedChans_hostPort. unfold bound. simpl. rewrite propagate_lookup.
    rewrite !lookup_alter_eq, HtopA. simpl.
    case_bool_decide; simpl; f_equal. rewrite inherit_same; reflexivity.
  - rewrite HchansB, lookup_insert_ne, lookup_insert_eq by lia. simpl. congruence.
Qed.

(** *** The options of a sub-channel *)

(** What the constructor makes of its options. *)
Lemma TChannel_made (opts : Options) (s : State) :
  ∃ s' new,
    TChannel opts s = Ok (nextLoc s) s' ∧
    chans s' !! nextLoc s = Some new ∧
    o_requestDefaults (options new) = o_requestDefaults opts ∧
    o_trace (options new) = o_trace opts ∧
    o_peers (options new) = o_peers opts ∧
    o_handler (options new) = None ∧ o_serviceName (options new) = "" ∧
    tracer new = bool_decide (o_trace opts = Some true) ∧
    handler new = match o_handler opts with
                  | Some h => h
                  | None => if String.eqb (o_serviceName opts) ""
                            then TChannelServiceNameHandler (nextLoc s)
                            else EndpointHandler (o_serviceName opts)
                  end ∧
    (∀ k, k ≠ "trace" →
       requestDefaults new !! k =
         match default ∅ (o_requestDefaults opts) !! k with
         | Some v => Some v
         | None => if bool_decide (k = "timeout") then Some defaultTimeout else None
         end).
Proof.
  unfold TChannel, TChannelPeers. run_monad.
  set (rd := default ∅ (o_requestDefaults opts) ∪ <["timeout" := defaultTimeout]> ∅).
  assert (Hrd : ∀ k, rd !! k =
            match default ∅ (o_requestDefaults opts) !! k with
            | Some v => Some v
            | None => if bool_decide (k = "timeout") then Some defaultTimeout else None
            end).
  { intros k. unfold rd. rewrite lookup_union.
    destruct (default ∅ (o_requestDefaults opts) !! k) as [v|]; simpl.
    - destruct (_ !! k); reflexivity.
    - case_bool_decide as Hk.
      + subst k. rewrite lookup_insert_eq. reflexivity.
      + rewrite lookup_insert_ne by done. reflexivity. }
  destruct (bool_decide (o_trace opts = Some true)) eqn:Htr; simpl;
    eexists _, _; (split; [reflexivity|]);
    (split; [simpl; apply lookup_insert_eq|]); split_and!; try reflexivity.
  - intros k Hk. cbn [requestDefaults]. fold rd.
    destruct (bool_decide (prop rd "trace" = VBool false)); simpl;
      rewrite ?lookup_insert_ne by done; apply Hrd.
  - intros k Hk. apply Hrd.
Qed.

Lemma made_update (c x : loc) (m : Options * gmap string value * bool * Handler)
    (f : TChannelObj → TChannelObj) (s : State) :
  (∀ ch, made (f ch) = made ch) →
  made <$> chans s !! c = Some m →
  made <$> chans (set_chans (alter f x) s) !! c = Some m.
Proof.
  intros Hf H. simpl. rewrite lookup_alter.
  case_decide; subst; destruct (chans s !! c); simpl in *; try done.
  rewrite Hf. done.
Qed.

Ltac made_prim :=
  preserves_prim;
  first
    [ assumption
    | apply made_update; [intros []; reflexivity | assumption] ].

(** X21: [makeSubChannel] constructs the new channel from the top
    channel's options with the caller's options laid over them, [peers]
    left out: the caller's [requestDefaults], [trace] and [handler] win over
    the top channel's, the top channel's are used when the caller gives
    none, and the caller's [peers] never reach the constructor. So the new
    channel traces when the one or, failing it, the other asks for it, has
    the caller's handler or an endpoint handler for its service name, and
    takes its request defaults from the one or the other, with
    [TChannelRequest.defaultTimeout] for a missing [timeout]. *)
Theorem sub_channel_inherits_options (self : loc) (opts : Options)
    (s s' : State) (c : loc) :
  makeSubChannel self opts s = Ok c s' →
  ∃ top new,
    chans s !! self = Some top ∧ chans s' !! c = Some new ∧
    let givenHandler :=
      match o_handler opts with Some h => Some h | None => o_handler (options top) end in
    let givenDefaults :=
      match o_requestDefaults opts with
      | Some d => Some d
      | None => o_requestDefaults (options top)
      end in
    let givenTrace :=
      match o_trace opts with Some b => Some b | None => o_trace (options top) end in
    o_requestDefaults (options new) = givenDefaults ∧
    o_trace (options new) = givenTrace ∧
    o_peers (options new) = o_peers (options top) ∧
    tracer new = bool_decide (givenTrace = Some true) ∧
    handler new = from_option id (EndpointHandler (o_serviceName opts)) givenHandler ∧
    (∀ k, k ≠ "trace" →
       requestDefaults new !! k =
         match default ∅ givenDefaults !! k with
         | Some v => Some v
         | None => if bool_decide (k = "timeout") then Some defaultTimeout else None
         end).
Proof.
  intros H. unfold makeSubChannel in H.
  apply bind_Ok in H as (ch & s1 & H1 & H). apply chan_Ok in H1 as [Hch ->].
  apply bind_Ok in H as (u & s1 & H1 & H). apply assert_Ok in H1 as [Hsn ->].
  apply bind_Ok in H as (u' & s1 & H1 & H). apply assert_Ok in H1 as [Hon ->].
  apply bind_Ok in H as (subs & s1 & H1 & H).
  destruct (subChannels ch) as [subs'|] eqn:Hsubs; [|discriminate].
  injection H1 as <- <-.
  apply bind_Ok in H as (u'' & s1 & H1 & H). apply assert_Ok in H1 as [Hdup ->].
  match type of H with (TChannel ?m ≫= _) _ = _ =>
    destruct (TChannel_made m s) as
      (t1 & new0 & HT & Hnew0 & Hrd0 & Htr0 & Hpe0 & _ & _ & Htracer0 & Hh0 & Hk0)
  end.
  rewrite (bind_eq _ _ _ _ _ HT) in H.
  assert (Hkeep : made <$> chans s' !! nextLoc s = Some (made new0) ∧ c = nextLoc s).
  { match type of H with ?rest t1 = _ =>
      assert (Hp : preserves (λ t, made <$> chans t !! nextLoc s = Some (made new0)) rest)
    end.
    { unfold attachPeer, peers_add, peers_addPeer, getPool.
      repeat first [preserves_step | made_prim]. }
    assert (Hc : c = nextLoc s).
    { revert H. clear. intros H.
      repeat (apply bind_Ok in H as (? & ? & _ & H)).
      injection H as Hc _. symmetry. exact Hc. }
    split; [|exact Hc].
    eapply (preserves_Ok _ _ t1 s' c Hp); [|exact H]. rewrite Hnew0. reflexivity. }
  destruct Hkeep as [Hkeep ->].
  destruct (chans s' !! nextLoc s) as [new|] eqn:Hnew; [|discriminate].
  simpl in Hkeep. injection Hkeep as E1 E2 E3 E4.
  exists ch, new. split; [exact Hch|]. split; [reflexivity|]. cbv zeta. simpl.
  rewrite E1, E2, E3, E4. split_and!; try assumption.
  rewrite Hh0. simpl. apply negb_true_iff in Hon. rewrite Hon.
  destruct (o_handler opts); [reflexivity|]. destruct (o_handler (options ch)); reflexivity.
Qed.

(** *** The peers of a sub-channel *)

(** X22: the peers given to [makeSubChannel] are attached to the new
    channel's own pool, one after the other, after that pool was made: for
    an address string the top channel's pool is asked for the peer with
    that address and the peer it returns is the one handed to the new pool;
    a peer object is handed to the new pool as it is. Nothing else reaches
    the outside. *)
Theorem makeSubChannel_attaches_peers (self : loc) (opts : Options)
    (s s' : State) (c : loc) :
  makeSubChannel self opts s = Ok c s' →
  ∃ top tr segs,
    chans s !! self = Some top ∧
    trace s' = trace s ++ ENewPeers (S c) c :: tr ++ concat segs ∧
    (tr = [] ∨ tr = [ENewTracer c]) ∧
    Forall2 (λ a seg,
      match a with
      | PeerStr hp =>
          ∃ peer, seg = [EPeersAdd (peers top) hp peer; EPeersAddPeer (S c) peer]
      | PeerObj peer => seg = [EPeersAddPeer (S c) peer]
      end) (default [] (o_peers opts)) segs.
Proof.
  intros H. unfold makeSubChannel in H.
  apply bind_Ok in H as (ch & s1 & H1 & H). apply chan_Ok in H1 as [Hch ->].
  apply bind_Ok in H as (u & s1 & H1 & H). apply assert_Ok in H1 as [Hsn ->].
  apply bind_Ok in H as (u' & s1 & H1 & H). apply assert_Ok in H1 as [Hon ->].
  apply bind_Ok in H as (subs & s1 & H1 & H).
  destruct (subChannels ch) as [subs'|] eqn:Hsubs; [|discriminate].
  injection H1 as <- <-.
  apply bind_Ok in H as (u'' & s1 & H1 & H). apply assert_Ok in H1 as [Hdup ->].
  match type of H with (TChannel ?m ≫= _) _ = _ =>
    destruct (TChannel_Ok m s) as
      (t1 & new0 & HT & Hc1 & _ & _ & _ & _ & _ & _ & _ & (tr & Htr & Htr') & _ & _ &
       Hpeers0 & _)
  end.
  rewrite (bind_eq _ _ _ _ _ HT) in H.
  rewrite (bind_eq _ _ _ _ _ (update_eq _ _ _)) in H.
  set (f := with_topChannel (Some self)) in *.
  assert (Hnew : chans (set_chans (alter f (nextLoc s)) t1) !! nextLoc s = Some (f new0)).
  { simpl. rewrite Hc1, lookup_alter_eq, lookup_insert_eq. reflexivity. }
  rewrite (bind_eq _ _ _ _ _ (chan_eq _ _ _ Hnew)) in H.
  apply bind_Ok in H as ([] & t3 & Hloop & H).
  destruct (attachLoop_trace _ _ _ _ _ Hloop) as (segs & Hsegs & Hall).
  change (peers (f new0)) with (peers new0) in Hall. rewrite Hpeers0 in Hall.
  simpl in Hsegs.
  assert (Hend : trace s' = trace t3 ∧ c = nextLoc s).
  { rewrite (bind_eq _ _ _ _ _ (update_eq _ _ _)) in H.
    apply bind_Ok in H as (top & t4 & H1 & H). apply chan_Ok in H1 as [_ ->].
    destruct (truthy (hostPort top)).
    - rewrite (bind_eq _ _ _ _ _ (update_eq _ _ _)) in H. injection H as <- <-. done.
    - rewrite bind_ret in H. injection H as <- <-. done. }
  destruct Hend as [Hend ->].
  exists ch, tr, segs. split; [exact Hch|]. split; [|split; [exact Htr' | exact Hall]].
  rewrite Hend, Hsegs, Htr. rewrite <- !app_assoc. reflexivity.
Qed.

End Core.

(** * The properties on the sample store *)

Lemma sample_fresh : fresh sample.
Proof. apply (bool_decide_unpack _). vm_compute. exact I. Defined.

Lemma sample_hierarchy : hierarchy sample.
Proof. apply (bool_decide_unpack _). vm_compute. exact I. Defined.

Lemma sample_settled : settled sample.
Proof. apply (bool_decide_unpack _). vm_compute. exact I. Defined.

Lemma request_after_close_witness :
  request 1 0 ∅ sampleDestroyed = Throw UseAfterCloseError sampleDestroyed.
Proof.
  apply (request_after_close 0 0 ∅ sampleDestroyed (with_destroyed true sampleTop));
    reflexivity.
Defined.

Lemma register_by_handler_kind_witness :
  chans sample !! 2 = Some sampleSub ∧
  register 2 "echo" 9 sample = Ok () (logged (EHandlerRegister 2 "echo" 9) sample) ∧
  register 0 "echo" 9 sample = Throw TopLevelRegisterError sample.
Proof.
  split; [reflexivity|]. split.
  - apply (register_by_handler_kind 2 "echo" 9 sample sampleSub eq_refl). reflexivity.
  - apply (register_by_handler_kind 0 "echo" 9 sample sampleTop eq_refl). reflexivity.
Defined.

Lemma request_routing_witness :
  chans sample !! 0 = Some sampleTop ∧ destroyed sampleTop = false ∧
  request 2 0 (<["service" := VStr "svc"]> ∅) sample =
    request 1 2 (<["service" := VStr "svc"]> (<["timeout" := VNum 100]> ∅)) sample ∧
  request 2 0 ∅ sample = Throw TopLevelRequestError sample ∧
  request 2 0 (<["serviceName" := VStr "nobody"]> ∅) sample =
    Throw TopLevelRequestError sample ∧
  request 2 0 (<["host" := VStr "1.2.3.4:5"]> ∅) sample ≠ OutOfFuel.
Proof.
  split; [reflexivity|]. split; [reflexivity|]. split_and!.
  - pose proof (request_routing 1 0 (<["service" := VStr "svc"]> ∅) sample
                  sampleTop eq_refl eq_refl) as H.
    destruct H as (_ & _ & H & _). etrans; [exact H|]. vm_compute. reflexivity.
  - pose proof (request_routing 1 0 ∅ sample sampleTop eq_refl eq_refl) as H.
    destruct H as (_ & _ & H & _). etrans; [exact H|]. vm_compute. reflexivity.
  - pose proof (request_routing 1 0 (<["serviceName" := VStr "nobody"]> ∅) sample
                  sampleTop eq_refl eq_refl) as H.
    destruct H as (_ & _ & H & _). etrans; [exact H|]. vm_compute. reflexivity.
  - pose proof (request_routing 1 0 (<["host" := VStr "1.2.3.4:5"]> ∅) sample
                  sampleTop eq_refl eq_refl) as H.
    destruct H as (_ & _ & _ & _ & _ & H). exact (H sample_hierarchy).
Defined.

(** C4 as stated fails, in two ways. The routing is decided on the caller's
    options laid over the channel's request defaults, not on the caller's
    options alone: a top channel made with [requestDefaults.host], without
    any sub-channel, answers a request whose options pin no host with a
    request of the Peer Pool, where the claim has [TopLevelRequestError].
    And on the sample store, whose registry holds "svc" only, a request for
    the service "toString" ends in a [TypeError], where the claim has
    [TopLevelRequestError]. *)
Lemma request_routing_as_stated_fails :
  (∃ s1 opts s2,
     TChannel (VNum 100) "node[1]"
       (mkOptions "" None (Some (<["host" := VStr "1.2.3.4:5"]> ∅)) None None ∅)
       init = Ok 0 s1 ∧
     serviceName <$> chans s1 !! 0 = Some "" ∧
     destroyed <$> chans s1 !! 0 = Some false ∧
     subChannels <$> chans s1 !! 0 = Some (Some ∅) ∧
     truthy (prop ∅ "host") = false ∧
     request 2 0 ∅ s1 = Ok (PoolRequest 1 opts) s2) ∧
  (chans sample !! 0 = Some sampleTop ∧
   serviceName sampleTop = "" ∧ destroyed sampleTop = false ∧
   subChannels sampleTop = Some (<["svc" := 2]> ∅) ∧
   (<["svc" := 2]> ∅ : gmap string loc) !! "toString" = None ∧
   truthy (prop (<["service" := VStr "toString"]> ∅) "host") = false ∧
   request 2 0 (<["service" := VStr "toString"]> ∅) sample = Throw TypeError sample ∧
   request 2 0 (<["service" := VStr "toString"]> ∅) sample
     ≠ Throw TopLevelRequestError sample).
Proof.
  split.
  - set (r := TChannel (VNum 100) "node[1]"
                (mkOptions "" None (Some (<["host" := VStr "1.2.3.4:5"]> ∅)) None None ∅)
                init).
    set (s1 := match r with Ok _ t | Throw _ t => t | OutOfFuel => init end).
    set (q := request 2 0 ∅ s1).
    exists s1,
      (match q with Ok (PoolRequest _ o) _ | Ok (TChannelRequest _ o) _ => o | _ => ∅ end),
      (match q with Ok _ t | Throw _ t => t | OutOfFuel => init end).
    split_and!; vm_compute; reflexivity.
  - split_and!; try (vm_compute; reflexivity).
    assert (E : request 2 0 (<["service" := VStr "toString"]> ∅) sample
                = Throw TypeError sample) by (vm_compute; reflexivity).
    rewrite E. discriminate.
Qed.

Lemma accept_duplicate_remoteAddr_witness :
  chans sample !! 0 = Some sampleTop ∧
  ∃ s', onServerSocketConnection 0 (mkSocket 2 "9.9.9.9" 10) sample = Ok () s' ∧
        trace s' =
          [ENewConnection 5 0 (mkSocket 2 "9.9.9.9" 10) "in" "9.9.9.9:10";
           EConnOn 5 "span";
           EConnResetAll 4 (SocketClosedError "duplicate remoteAddr incoming conn");
           ETableDelete 0 "9.9.9.9:10";
           ESocketOn 2 "close";
           ETableSet 0 "9.9.9.9:10" 5;
           EEmit 0 (EvConnection 5)].
Proof.
  split; [reflexivity|].
  pose proof (accept_duplicate_remoteAddr 0 (mkSocket 2 "9.9.9.9" 10) sample
                sampleTop eq_refl) as H.
  destruct H as [H _].
  assert (Hold : (<["9.9.9.9:10" := 4]> ∅ : gmap string loc)
                 !! (remoteAddress (mkSocket 2 "9.9.9.9" 10) +:+ ":" +:+
                     pretty (remotePort (mkSocket 2 "9.9.9.9" 10))) = Some 4)
    by (vm_compute; reflexivity).
  assert (Hkeyed : tableKeyed sample (<["9.9.9.9:10" := 4]> ∅))
    by (apply (bool_decide_unpack _); vm_compute; exact I).
  specialize (H eq_refl (<["9.9.9.9:10" := 4]> ∅) 4 eq_refl Hold Hkeyed).
  destruct H as (s' & ch' & table' & Hrun & Htr & _).
  exists s'. split; [exact Hrun|]. rewrite Htr. vm_compute. reflexivity.
Defined.


Lemma listen_fails_fast_witness :
  chans sample !! 2 = Some sampleSub ∧
  ∃ s1, listen 2 (VNum 0) (VStr "127.0.0.1") None sample = Ok () s1 ∧
        listen 2 (VNum 1) (VStr "10.0.0.1") (Some 3) s1 =
          Throw (AssertionError "TChannel can only listen once") s1.
Proof.
  split; [reflexivity|].
  pose proof (listen_fails_fast (VNum 100) "node[1]" 2 (VNum 0)
                (VStr "127.0.0.1") None sample sampleSub eq_refl) as H.
  destruct H as (_ & _ & H).
  assert (Hne : VStr "127.0.0.1" ≠ VStr "0.0.0.0") by discriminate.
  assert (Hlt : 2 < nextLoc sample) by (vm_compute; lia).
  specialize (H eq_refl eq_refl eq_refl Hne Hlt).
  destruct H as (s1 & ch1 & Hrun & _ & _ & _ & _ & _ & Hagain).
  - exists s1. split; [exact Hrun|]. apply (Hagain [] s1). reflexivity.
Defined.

Lemma superseded_socket_close_removes_newer_witness :
  chans sample !! 0 = Some sampleTop ∧
  ∃ s2 s3,
    (onServerSocketConnection 0 (mkSocket 8 "1.1.1.1" 1) ;;
     onServerSocketConnection 0 (mkSocket 9 "1.1.1.1" 1)) sample = Ok () s2 ∧
    (chans s2 !! 0 ≫= serverConnections) ≫= (λ t, t !! "1.1.1.1:1") = Some 6 ∧
    socketClosed 8 s2 = Ok () s3 ∧
    (chans s3 !! 0 ≫= serverConnections) ≫= (λ t, t !! "1.1.1.1:1") = None.
Proof.
  split; [reflexivity|].
  assert (Hid : sock_id (mkSocket 8 "1.1.1.1" 1) ≠ sock_id (mkSocket 9 "1.1.1.1" 1))
    by (simpl; lia).
  assert (Hnew : ∀ x, x ∈ socketClose sample → x.1 ≠ sock_id (mkSocket 8 "1.1.1.1" 1)).
  { apply Forall_forall. apply (bool_decide_unpack _). vm_compute. exact I. }
  pose proof (superseded_socket_close_removes_newer 0
                (mkSocket 8 "1.1.1.1" 1) (mkSocket 9 "1.1.1.1" 1) sample
                sampleTop (<["9.9.9.9:10" := 4]> ∅)
                eq_refl eq_refl eq_refl eq_refl eq_refl Hid Hnew) as H.
  destruct H as [_ H].
  destruct H as (s2 & s3 & ch2 & ch3 & t2 & t3 & Hrun & Hch2 & Ht2 & Hl2 & _ & Hclose &
                 Hch3 & Ht3 & Hl3 & _).
  exists s2, s3. split; [exact Hrun|]. split.
  - assert (X : (Some ch2 ≫= serverConnections) ≫= (λ t, t !! "1.1.1.1:1") = Some 6)
      by (simpl; rewrite Ht2; exact Hl2).
    rewrite <- Hch2 in X. exact X.
  - split; [exact Hclose|].
    assert (X : (Some ch3 ≫= serverConnections) ≫= (λ t, t !! "1.1.1.1:1") = None)
      by (simpl; rewrite Ht3; exact Hl3).
    rewrite <- Hch3 in X. exact X.
Defined.

Lemma makeSubChannel_own_pool_witness :
  fresh sample ∧
  ∃ s', makeSubChannel (VNum 100) "node[1]" 0 sampleSubOptions sample = Ok 5 s' ∧
        ¬ sharesPool s' 0 5 ∧
        trace s' = [ENewPeers 6 5; EPeersAdd 1 "1.2.3.4:5" 7; EPeersAddPeer 6 7].
Proof.
  split; [exact sample_fresh|].
  pose (s' := match makeSubChannel (VNum 100) "node[1]" 0 sampleSubOptions sample with
               | Ok _ s' | Throw _ s' => s'
               | OutOfFuel => sample
               end).
  assert (E : makeSubChannel (VNum 100) "node[1]" 0 sampleSubOptions sample = Ok 5 s')
    by (vm_compute; reflexivity).
  pose proof (makeSubChannel_own_pool (VNum 100) "node[1]" 0 sampleSubOptions sample s' 5
                sample_fresh E) as H.
  destruct H as (top0 & top & new & pool & tr & segs &
                 _ & _ & _ & _ & _ & _ & _ & _ & Hno & _).
  exists s'. split; [exact E|]. split; [exact Hno|]. vm_compute. reflexivity.
Defined.

(** C2 as stated fails: the sub-channel made on the sample store refers to
    pool object 6, its top channel to pool object 1. *)
Lemma makeSubChannel_pool_not_shared :
  ∃ s', makeSubChannel (VNum 100) "node[1]" 0 sampleSubOptions sample = Ok 5 s' ∧
        peers <$> chans s' !! 5 = Some 6 ∧
        peers <$> chans s' !! 0 = Some 1 ∧
        ¬ sharesPool s' 0 5.
Proof.
  set (r := makeSubChannel (VNum 100) "node[1]" 0 sampleSubOptions sample).
  exists (match r with Ok _ s' | Throw _ s' => s' | OutOfFuel => sample end).
  split; [vm_compute; reflexivity|].
  split; [vm_compute; reflexivity|].
  split; [vm_compute; reflexivity|].
  intros (cht & chc & E1 & E2 & E3).
  assert (H5 : peers <$> Some chc = Some 6) by (rewrite <- E2; vm_compute; reflexivity).
  assert (H0 : peers <$> Some cht = Some 1) by (rewrite <- E1; vm_compute; reflexivity).
  simpl in H5, H0. congruence.
Qed.

Lemma close_callback_exactly_once_witness :
  hierarchy sample ∧ settled sample ∧ chans sample !! 0 = Some sampleTop ∧
  ∃ s1, close 2 0 (CbFun 7) sample = Ok () s1 ∧
        outstanding 0 s1 = 4 ∧ fired 0 s1 = 0 ∧
        ∀ l s2, Forall notClose l → run (VNum 100) "node[1]" l s1 = Some s2 →
                pending s2 = [] → fired 0 s2 = 1.
Proof.
  split; [exact sample_hierarchy|]. split; [exact sample_settled|].
  split; [reflexivity|].
  pose proof (close_callback_exactly_once (VNum 100) "node[1]" 0 7 sample
                sampleTop sample_hierarchy sample_settled eq_refl) as H.
  destruct H as [_ H]. specialize (H eq_refl).
  destruct H as (s1 & Hrun & _ & Hout & Hfired & Hlater).
  exists s1. split; [apply Hrun|].
  split; [etrans; [exact Hout | vm_compute; reflexivity]|]. split; [exact Hfired|].
  intros l s2 Hl Hr. apply (Hlater l s2 Hl Hr).
Defined.

Lemma close_counter_protocol_witness :
  hierarchy sample ∧ settled sample ∧ chans sample !! 0 = Some sampleTop ∧
  ∃ s1 tr e1,
    close 2 0 CbNone sample = Ok () s1 ∧
    trace s1 = [EClose 0 CbNone; ECounterInit 0] ++ tr ++ [EPeersClose 1 0] ∧
    countInc 0 tr = 3 ∧ closeEnvs s1 !! 0 = Some e1 ∧ counter e1 = 4%Z ∧
    outstanding 0 s1 = 4.
Proof.
  split; [exact sample_hierarchy|]. split; [exact sample_settled|].
  split; [reflexivity|].
  assert (Hcb : ∀ k0, CbNone ≠ CbOnClose k0) by discriminate.
  pose proof (close_counter_protocol 0 CbNone sample sampleTop sample_hierarchy
                sample_settled eq_refl eq_refl Hcb) as H.
  destruct H as [_ H].
  destruct H as (s1 & tr & e1 & Hrun & Htr & _ & Hinc & He1 & Hc & Hout & _).
  assert (H3 : countInc 0 tr = 3) by (etrans; [exact Hinc | vm_compute; reflexivity]).
  exists s1, tr, e1. split; [apply Hrun|]. split; [exact Htr|].
  split; [exact H3|]. split; [exact He1|]. split.
  - etrans; [exact Hc|]. change (1 + Z.of_nat (countInc 0 tr) = 4)%Z. rewrite H3. reflexivity.
  - etrans; [exact Hout | vm_compute; reflexivity].
Defined.

(** C3 as stated fails: when the top channel of the sample store is closed,
    four closes are started on behalf of its counter (socket, connection,
    sub-channel, pool) after three increments only, and the pool's close
    does not come right after an increment. *)
Lemma pool_close_without_increment :
  ∃ s1 tr,
    close 2 0 CbNone sample = Ok () s1 ∧
    trace s1 = trace sample ++ tr ∧
    incBeforeStart startsAll None tr = false ∧
    incBeforeStart startsButPool None tr = true ∧
    countInc 0 tr = 3 ∧ outstanding 0 s1 = 4 ∧
    last tr = Some (EPeersClose 1 0).
Proof.
  set (r := close 2 0 CbNone sample).
  exists (match r with Ok _ s' | Throw _ s' => s' | OutOfFuel => sample end).
  exists (trace (match r with Ok _ s' | Throw _ s' => s' | OutOfFuel => sample end)).
  split_and!; vm_compute; reflexivity.
Qed.

(** * The rest, on the sample store *)

Lemma sample_linked : linked sample.
Proof. apply (bool_decide_unpack _). vm_compute. exact I. Defined.

Lemma sample_sound : sound sample.
Proof. apply (bool_decide_unpack _). vm_compute. exact I. Defined.

Lemma init_sound : sound init.
Proof. apply (bool_decide_unpack _). vm_compute. exact I. Defined.

Lemma address_resolves_witness :
  linked sample ∧ chans sample !! 2 = Some sampleSub ∧
  address 2 2 sample = Ok (Some 4040%Z) sample.
Proof.
  split; [exact sample_linked|]. split; [reflexivity|].
  pose proof (address_resolves 2 sample sampleSub 0 sample_linked eq_refl) as H.
  etrans; [exact H|]. vm_compute. reflexivity.
Defined.

Lemma makeSubChannel_rejects_witness :
  chans sample !! 2 = Some sampleSub ∧
  makeSubChannel (VNum 100) "node[1]" 2 sampleSubOptions sample =
    Throw (AssertionError "arbitrary-depth sub channels are unsupported") sample ∧
  makeSubChannel (VNum 100) "node[1]" 0 (mkOptions "toString" None None None None ∅)
    sample = Throw (AssertionError "duplicate sub channel creation") sample.
Proof.
  split; [reflexivity|]. split.
  - pose proof (makeSubChannel_rejects (VNum 100) "node[1]" 2 sampleSubOptions sample
                  sampleSub eq_refl) as H.
    destruct H as [H _]. apply H. discriminate.
  - pose proof (makeSubChannel_rejects (VNum 100) "node[1]" 0
                  (mkOptions "toString" None None None None ∅) sample
                  sampleTop eq_refl) as H.
    destruct H as (_ & _ & _ & H). apply (H (<["svc" := 2]> ∅)).
    + reflexivity.
    + reflexivity.
    + apply (bool_decide_unpack _). vm_compute. exact I.
Defined.

Lemma over_completion_calls_back_again_witness :
  ∃ s1 s2,
    onClose 1 0 (set_closeEnvs (λ _, [mkCloseEnv 1 (CbFun 9) 2]) sample) = Ok () s1 ∧
    onClose 1 0 s1 = Ok () s2 ∧
    fired 0 s2 = 2.
Proof.
  assert (Hle : (counter (mkCloseEnv 1 (CbFun 9%nat) 2%nat) ≤ 1)%Z) by (simpl; lia).
  pose proof (over_completion_calls_back_again 0 0
                (set_closeEnvs (λ _, [mkCloseEnv 1 (CbFun 9) 2]) sample)
                (mkCloseEnv 1 (CbFun 9) 2) 9 eq_refl eq_refl Hle) as H.
  destruct H as (s1 & s2 & H1 & H2 & _ & Hf & _).
  exists s1, s2. split; [exact H1|]. split; [exact H2|].
  etrans; [exact Hf|]. vm_compute. reflexivity.
Defined.

Lemma listen_then_bind_witness :
  hierarchy sample ∧ chans sample !! 2 = Some sampleSub ∧
  ∃ s1 s2 ch2,
    listen 2 (VNum 0) (VStr "127.0.0.1") None sample = Ok () s1 ∧
    serverListening 2 4040 s1 = Ok () s2 ∧
    chans s2 !! 2 = Some ch2 ∧
    hostPort ch2 = VStr "127.0.0.1:4040" ∧ listening ch2 = true.
Proof.
  split; [exact sample_hierarchy|]. split; [reflexivity|].
  assert (Hne : "127.0.0.1" ≠ "0.0.0.0") by discriminate.
  pose proof (listen_then_bind 2 0 4040 "127.0.0.1" None sample sampleSub
                sample_hierarchy eq_refl eq_refl eq_refl Hne) as H.
  destruct H as (s1 & s2 & ch1 & ch2 & H1 & _ & _ & _ & H2 & H3 & H4 & H5 & _).
  exists s1, s2, ch2. split; [exact H1|]. split; [exact H2|]. split; [exact H3|].
  split; [|exact H5]. etrans; [exact H4|]. vm_compute. reflexivity.
Defined.

Lemma address_after_bind_witness :
  hierarchy sample ∧ linked sample ∧ chans sample !! 0 = Some sampleTop ∧
  (∃ s', serverListening 0 4040 sample = Ok () s' ∧
         address 1 0 s' = Ok (Some 4040%Z) s' ∧
         address 2 2 s' = Ok (Some 4040%Z) s') ∧
  (∃ s1, close 2 0 CbNone sample = Ok () s1 ∧ address 1 0 s1 = Ok None s1) ∧
  (∃ s0 s',
     run (VNum 100) "node[1]"
       [ANew sampleOptions; AListen 0 (VNum 0) (VStr "127.0.0.1") None;
        AClose 0 None] init = Some s0 ∧
     serverListening 0 4040 s0 = Ok () s' ∧ address 1 0 s' = Ok None s').
Proof.
  split; [exact sample_hierarchy|]. split; [exact sample_linked|].
  split; [reflexivity|].
  pose proof (address_after_bind 0 4040 sample sampleTop
                (mkServerSocket (Some 4040%Z) (Some 7))
                sample_hierarchy sample_linked eq_refl eq_refl) as H.
  destruct H as (_ & (s' & Hrun & Hself & Hsubs) & Hclose). split; [|split].
  - exists s'. split; [exact Hrun|]. split; [exact Hself|].
    exact (Hsubs (<["svc" := 2]> ∅) "svc" 2 sampleSub eq_refl eq_refl eq_refl eq_refl).
  - exact (Hclose eq_refl CbNone).
  - pose (s0 := match run (VNum 100) "node[1]"
                        [ANew sampleOptions;
                         AListen 0 (VNum 0) (VStr "127.0.0.1") None;
                         AClose 0 None] init with
                | Some t => t
                | None => init
                end).
    pose (ch0 := default sampleTop (chans s0 !! 0)).
    assert (E : run (VNum 100) "node[1]"
                  [ANew sampleOptions; AListen 0 (VNum 0) (VStr "127.0.0.1") None;
                   AClose 0 None] init = Some s0) by (vm_compute; reflexivity).
    assert (Hh : hierarchy s0) by (apply (bool_decide_unpack _); vm_compute; exact I).
    assert (Hl : linked s0) by (apply (bool_decide_unpack _); vm_compute; exact I).
    assert (Hc : chans s0 !! 0 = Some ch0) by (vm_compute; reflexivity).
    assert (Hss : serverSocket ch0 = Some (mkServerSocket None None))
      by (vm_compute; reflexivity).
    assert (Ew : waitingForListening 0 (pending s0) = [0]) by (vm_compute; reflexivity).
    pose proof (address_after_bind 0 4040 s0 ch0 (mkServerSocket None None)
                  Hh Hl Hc Hss) as H0.
    destruct H0 as (_ & (t & Hrun0 & Hself0 & _) & _).
    rewrite Ew in Hself0.
    exists s0, t. split; [exact E|]. split; [exact Hrun0 | exact Hself0].
Defined.

Lemma bind_failure_no_retry_witness :
  chans sample !! 2 = Some sampleSub ∧
  ∃ s1,
    listen 2 (VNum 0) (VStr "127.0.0.1") None sample = Ok () s1 ∧
    onServerSocketError 2 (mkNetError (VStr "EADDRINUSE")) false s1 =
      Throw (Unhandled (TChannelListenError (mkNetError (VStr "EADDRINUSE"))
                          (VNum 0) (VStr "127.0.0.1")))
        (logged (ELoggerError "server socket error") s1) ∧
    listen 2 (VNum 1) (VStr "10.0.0.1") None
        (logged (ELoggerError "server socket error") s1) =
      Throw (AssertionError "TChannel can only listen once")
        (logged (ELoggerError "server socket error") s1).
Proof.
  split; [reflexivity|].
  assert (Hne : "127.0.0.1" ≠ "0.0.0.0") by discriminate.
  assert (Hlt : 2 < nextLoc sample) by (simpl; lia).
  pose proof (bind_failure_no_retry (VNum 100) "node[1]" 2 0 "127.0.0.1" None
                (mkNetError (VStr "EADDRINUSE")) sample sampleSub
                eq_refl eq_refl Hne Hlt) as H.
  destruct H as (s1 & H1 & _ & H2 & H3).
  exists s1. split; [exact H1|]. split; [exact H2|].
  apply (H3 false [] (logged (ELoggerError "server socket error") s1)
           (logged (ELoggerError "server socket error") s1)
           (VNum 1) (VStr "10.0.0.1") None); [|reflexivity].
  rewrite H2. reflexivity.
Defined.

Lemma run_never_stuck_witness :
  sound init ∧
  ∃ s, run (VNum 100) "node[1]"
         [ANew sampleOptions; AMakeSubChannel 0 sampleSubOptions;
          AListen 0 (VNum 0) (VStr "127.0.0.1") None; AServerListening 0 4040;
          ARequest 0 (<["service" := VStr "other"]> ∅);
          AClose 0 (Some 7); ACompletes 0; ACompletes 0; ACompletes 0]
         init = Some s ∧ sound s.
Proof.
  split; [exact init_sound|].
  apply (run_never_stuck (VNum 100) "node[1]"). exact init_sound.
Defined.

Lemma hierarchy_has_one_level_witness :
  sound init ∧
  ∃ s ch,
    run (VNum 100) "node[1]"
      [ANew sampleOptions; AMakeSubChannel 0 sampleSubOptions] init = Some s ∧
    chans s !! 0 = Some ch ∧
    (subChannels ch = None ↔ serviceName ch ≠ "") ∧
    (∀ subs name sub, subChannels ch = Some subs → subs !! name = Some sub →
       ∃ sc, chans s !! sub = Some sc ∧ serviceName sc = name ∧
             subChannels sc = None ∧ topChannel sc = Some 0 ∧ sub ≠ 0).
Proof.
  split; [exact init_sound|].
  pose (s := match run (VNum 100) "node[1]"
                     [ANew sampleOptions; AMakeSubChannel 0 sampleSubOptions] init with
             | Some s => s
             | None => init
             end).
  pose (ch := default sampleTop (chans s !! 0)).
  assert (E : run (VNum 100) "node[1]"
                [ANew sampleOptions; AMakeSubChannel 0 sampleSubOptions] init = Some s)
    by (vm_compute; reflexivity).
  assert (Hc : chans s !! 0 = Some ch) by (vm_compute; reflexivity).
  pose proof (hierarchy_has_one_level (VNum 100) "node[1]" _ init s 0 ch
                init_sound E Hc) as H.
  destruct H as (H1 & H2 & _).
  exists s, ch. split; [exact E|]. split; [exact Hc|]. split; [exact H1 | exact H2].
Defined.

Lemma callback_at_most_once_witness :
  sound init ∧
  ∃ s,
    run (VNum 100) "node[1]"
      [ANew sampleOptions; AClose 0 (Some 7); ACompletes 0] init = Some s ∧
    fired 0 s = 1 ∧
    Forall (λ ev, ev ≠ ELoggerError "closed more channel sockets than expected")
      (trace s).
Proof.
  split; [exact init_sound|].
  pose (s := match run (VNum 100) "node[1]"
                     [ANew sampleOptions; AClose 0 (Some 7); ACompletes 0] init with
             | Some s => s
             | None => init
             end).
  pose (e := default (mkCloseEnv 0 CbNone 0) (closeEnvs s !! 0)).
  assert (E : run (VNum 100) "node[1]"
                [ANew sampleOptions; AClose 0 (Some 7); ACompletes 0] init = Some s)
    by (vm_compute; reflexivity).
  assert (He : closeEnvs s !! 0 = Some e) by (vm_compute; reflexivity).
  assert (Hcb : callback e = CbFun 7) by (vm_compute; reflexivity).
  pose proof (callback_at_most_once (VNum 100) "node[1]" _ init s 0 e
                init_sound E He) as H.
  destruct H as (Hq & _ & Hf). specialize (Hf 7 Hcb).
  exists s. split; [exact E|]. split; [|exact Hq].
  etrans; [exact Hf|]. vm_compute. reflexivity.
Defined.

Lemma accept_never_throws_witness :
  sound init ∧
  ∃ s,
    run (VNum 100) "node[1]"
      [ANew sampleOptions; AListen 0 (VNum 0) (VStr "127.0.0.1") None] init = Some s ∧
    ∃ s' ch',
      onServerSocketConnection 0 (mkSocket 8 "1.1.1.1" 1) s = Ok () s' ∧
      chans s' !! 0 = Some ch' ∧
      serverConnections ch' = Some (<["1.1.1.1:1" := 2]> ∅) ∧
      conns s' !! 2 = Some (mkConnection 0 (mkSocket 8 "1.1.1.1" 1) "in" "1.1.1.1:1") ∧
      last (trace s') = Some (EEmit 0 (EvConnection 2)).
Proof.
  split; [exact init_sound|].
  pose (s := match run (VNum 100) "node[1]"
                     [ANew sampleOptions;
                      AListen 0 (VNum 0) (VStr "127.0.0.1") None] init with
             | Some s => s
             | None => init
             end).
  pose (ch := default sampleTop (chans s !! 0)).
  assert (E : run (VNum 100) "node[1]"
                [ANew sampleOptions; AListen 0 (VNum 0) (VStr "127.0.0.1") None] init
              = Some s)
    by (vm_compute; reflexivity).
  assert (Hc : chans s !! 0 = Some ch) by (vm_compute; reflexivity).
  assert (Hss : is_Some (serverSocket ch)) by (eexists; vm_compute; reflexivity).
  assert (Hd : destroyed ch = false) by (vm_compute; reflexivity).
  pose proof (accept_never_throws (VNum 100) "node[1]" _ init s 0 ch
                (mkSocket 8 "1.1.1.1" 1) init_sound E Hc Hss) as H.
  destruct H as (table & s' & Ht & Hrun & _ & H).
  destruct (H Hd) as (ch' & tr & Hc' & Ht' & Hcn & Htr).
  assert (Etable : table = ∅).
  { assert (E0 : serverConnections ch = Some ∅) by (vm_compute; reflexivity).
    congruence. }
  exists s. split; [exact E|]. exists s', ch'.
  split; [exact Hrun|]. split; [exact Hc'|].
  split; [rewrite Ht', Etable; vm_compute; reflexivity|].
  split; [etrans; [exact Hcn | vm_compute; reflexivity]|].
  rewrite Htr, last_app, last_cons, last_app. reflexivity.
Defined.

Lemma close_is_final_witness :
  fresh sample ∧ hierarchy sample ∧ chans sample !! 0 = Some sampleTop ∧
  ∃ s1, close 2 0 CbNone sample = Ok () s1 ∧
        request 1 2 ∅ s1 = Throw UseAfterCloseError s1 ∧
        close 1 0 CbNone s1 = Throw DoubleCloseError s1.
Proof.
  split; [exact sample_fresh|]. split; [exact sample_hierarchy|].
  split; [reflexivity|].
  pose proof (close_is_final (VNum 100) "node[1]" 0 CbNone sample sampleTop
                sample_fresh sample_hierarchy eq_refl eq_refl) as H.
  destruct H as (s1 & Hrun & Hall).
  assert (Hin : 2 ∈ subList sampleTop)
    by (apply (bool_decide_unpack _); vm_compute; exact I).
  pose proof (Hall 2 (or_intror Hin) [] s1 eq_refl) as H2.
  pose proof (Hall 0 (or_introl eq_refl) [] s1 eq_refl) as H0.
  destruct H2 as (_ & Hreq & _). destruct H0 as (_ & _ & Hcl & _).
  exists s1. split; [exact (Hrun 0)|]. split; [exact (Hreq 0 ∅) | exact (Hcl 0 CbNone)].
Defined.

Lemma close_waits_for_bind_witness :
  ∃ s1 s2,
    close 2 2 CbNone
      (set_chans (alter (with_serverSocket (Some (mkServerSocket None None))) 2)
         sample) = Ok () s1 ∧
    AwaitListening 2 0 ∈ pending s1 ∧
    serverListening 2 4040 s1 = Ok () s2 ∧
    AwaitClose (RServer 2) 0 ∈ pending s2.
Proof.
  assert (Hh : hierarchy
                 (set_chans
                    (alter (with_serverSocket (Some (mkServerSocket None None))) 2)
                    sample))
    by (apply (bool_decide_unpack _); vm_compute; exact I).
  assert (Hc : chans
                 (set_chans
                    (alter (with_serverSocket (Some (mkServerSocket None None))) 2)
                    sample) !! 2 =
               Some (with_serverSocket (Some (mkServerSocket None None)) sampleSub))
    by (vm_compute; reflexivity).
  pose proof (close_waits_for_bind 2 CbNone 4040 _ _ (mkServerSocket None None)
                Hh Hc eq_refl eq_refl eq_refl) as H.
  destruct H as (s1 & s2 & ch2 & tr1 & tr2 & H1 & _ & _ & _ & H2 & H3 & _ & _ & _ &
                 _ & _ & _ & _ & H4 & _).
  exists s1, s2. split; [exact (H1 0)|]. split; [exact H2|].
  split; [exact H3 | exact H4].
Defined.

Lemma accept_close_round_trip_witness :
  chans sample !! 0 = Some sampleTop ∧
  ∃ s1 s2,
    onServerSocketConnection 0 (mkSocket 8 "1.1.1.1" 1) sample = Ok () s1 ∧
    socketClosed 8 s1 = Ok () s2 ∧
    chans s2 = chans sample.
Proof.
  split; [reflexivity|].
  assert (Hnone : (<["9.9.9.9:10" := 4]> ∅ : gmap string loc)
                  !! (remoteAddress (mkSocket 8 "1.1.1.1" 1) +:+ ":" +:+
                      pretty (remotePort (mkSocket 8 "1.1.1.1" 1))) = None)
    by (vm_compute; reflexivity).
  assert (Hnew : ∀ x, x ∈ socketClose sample → x.1 ≠ sock_id (mkSocket 8 "1.1.1.1" 1)).
  { apply Forall_forall. apply (bool_decide_unpack _). vm_compute. exact I. }
  pose proof (accept_close_round_trip 0 (mkSocket 8 "1.1.1.1" 1) sample sampleTop
                (<["9.9.9.9:10" := 4]> ∅) eq_refl eq_refl eq_refl Hnone Hnew) as H.
  destruct H as (s1 & s2 & ch1 & H1 & _ & _ & H2 & H3 & _).
  exists s1, s2. split; [exact H1|]. split; [exact H2 | exact H3].
Defined.


Lemma serviceName_is_service_witness :
  chans sample !! 0 = Some sampleTop ∧
  request 2 0 (<["serviceName" := VStr "svc"]> ∅) sample =
    request 2 0 (<["service" := VStr "svc"]> (<["serviceName" := VStr "svc"]> ∅))
      sample.
Proof.
  split; [reflexivity|].
  assert (Hs : truthy (prop (<["serviceName" := VStr "svc"]> ∅
                             ∪ requestDefaults sampleTop) "service") = false)
    by (vm_compute; reflexivity).
  assert (Hn : truthy (prop (<["serviceName" := VStr "svc"]> ∅
                             ∪ requestDefaults sampleTop) "serviceName") = true)
    by (vm_compute; reflexivity).
  pose proof (serviceName_is_service 2 0 (<["serviceName" := VStr "svc"]> ∅) sample
                sampleTop eq_refl Hs Hn) as H.
  destruct H as [_ H]. etrans; [exact H|]. vm_compute. reflexivity.
Defined.

Lemma sample_wellFormed : wellFormed sample.
Proof. apply (bool_decide_unpack _). vm_compute. exact I. Defined.

Lemma hostPort_either_order_witness :
  wellFormed sample ∧ chans sample !! 0 = Some sampleTop ∧
  ∃ sA sA' sB sB',
    makeSubChannel (VNum 100) "node[1]" 0 sampleSubOptions sample = Ok 5 sA ∧
    serverListening 0 4040 sA = Ok () sA' ∧
    serverListening 0 4040 sample = Ok () sB ∧
    makeSubChannel (VNum 100) "node[1]" 0 sampleSubOptions sB = Ok 5 sB' ∧
    hostPort <$> chans sA' !! 5 = Some (VStr "127.0.0.1:4040") ∧
    hostPort <$> chans sB' !! 5 = Some (VStr "127.0.0.1:4040").
Proof.
  split; [exact sample_wellFormed|]. split; [reflexivity|].
  pose (sA := match makeSubChannel (VNum 100) "node[1]" 0 sampleSubOptions sample with
              | Ok _ t | Throw _ t => t
              | OutOfFuel => sample
              end).
  pose (sA' := match serverListening 0 4040 sA with
               | Ok _ t | Throw _ t => t
               | OutOfFuel => sample
               end).
  pose (sB := match serverListening 0 4040 sample with
              | Ok _ t | Throw _ t => t
              | OutOfFuel => sample
              end).
  pose (sB' := match makeSubChannel (VNum 100) "node[1]" 0 sampleSubOptions sB with
               | Ok _ t | Throw _ t => t
               | OutOfFuel => sample
               end).
  assert (EA : makeSubChannel (VNum 100) "node[1]" 0 sampleSubOptions sample = Ok 5 sA)
    by (vm_compute; reflexivity).
  assert (EA' : serverListening 0 4040 sA = Ok () sA') by (vm_compute; reflexivity).
  assert (EB : serverListening 0 4040 sample = Ok () sB) by (vm_compute; reflexivity).
  assert (EB' : makeSubChannel (VNum 100) "node[1]" 0 sampleSubOptions sB = Ok 5 sB')
    by (vm_compute; reflexivity).
  pose proof (hostPort_either_order (VNum 100) "node[1]" 0 sampleSubOptions 4040
                sample sA sA' sB sB' sampleTop
                (mkServerSocket (Some 4040%Z) (Some 7)) 5 5
                sample_wellFormed eq_refl eq_refl eq_refl eq_refl EA EA' EB EB') as H.
  destruct H as (_ & H1 & H2 & _).
  exists sA, sA', sB, sB'. split; [exact EA|]. split; [exact EA'|].
  split; [exact EB|]. split; [exact EB'|]. split.
  - etrans; [exact H1|]. vm_compute. reflexivity.
  - etrans; [exact H2|]. vm_compute. reflexivity.
Defined.

Lemma sub_channel_inherits_options_witness :
  ∃ s' top new,
    makeSubChannel (VNum 100) "node[1]" 0 sampleSubOptions sample = Ok 5 s' ∧
    chans sample !! 0 = Some top ∧ chans s' !! 5 = Some new ∧
    o_peers (options new) = o_peers (options top) ∧
    handler new = EndpointHandler "other" ∧
    requestDefaults new !! "timeout" = Some (VNum 100).
Proof.
  pose (s' := match makeSubChannel (VNum 100) "node[1]" 0 sampleSubOptions sample with
               | Ok _ s' | Throw _ s' => s'
               | OutOfFuel => sample
               end).
  assert (E : makeSubChannel (VNum 100) "node[1]" 0 sampleSubOptions sample = Ok 5 s')
    by (vm_compute; reflexivity).
  pose proof (sub_channel_inherits_options (VNum 100) "node[1]" 0 sampleSubOptions
                sample s' 5 E) as H.
  destruct H as (top & new & H0 & H1 & _ & _ & H2 & _ & H3 & H4).
  assert (Htop : Some top = Some sampleTop) by (rewrite <- H0; reflexivity).
  injection Htop as ->.
  assert (Hk : "timeout" ≠ "trace") by discriminate.
  exists s', sampleTop, new. split; [exact E|]. split; [reflexivity|].
  split; [exact H1|]. split; [exact H2|]. split.
  - etrans; [exact H3|]. vm_compute. reflexivity.
  - etrans; [exact (H4 "timeout" Hk)|]. vm_compute. reflexivity.
Defined.

Lemma makeSubChannel_attaches_peers_witness :
  ∃ s' top tr segs,
    makeSubChannel (VNum 100) "node[1]" 0 sampleSubOptions sample = Ok 5 s' ∧
    chans sample !! 0 = Some top ∧
    trace s' = trace sample ++ ENewPeers 6 5 :: tr ++ concat segs ∧
    Forall2 (λ a seg,
      match a with
      | PeerStr hp =>
          ∃ peer, seg = [EPeersAdd (peers top) hp peer; EPeersAddPeer 6 peer]
      | PeerObj peer => seg = [EPeersAddPeer 6 peer]
      end) [PeerStr "1.2.3.4:5"] segs.
Proof.
  pose (s' := match makeSubChannel (VNum 100) "node[1]" 0 sampleSubOptions sample with
               | Ok _ s' | Throw _ s' => s'
               | OutOfFuel => sample
               end).
  assert (E : makeSubChannel (VNum 100) "node[1]" 0 sampleSubOptions sample = Ok 5 s')
    by (vm_compute; reflexivity).
  pose proof (makeSubChannel_attaches_peers (VNum 100) "node[1]" 0 sampleSubOptions
                sample s' 5 E) as H.
  destruct H as (top & tr & segs & H0 & H1 & _ & H2).
  exists s', top, tr, segs. split; [exact E|]. split; [exact H0|].
  split; [exact H1 | exact H2].
Defined.

End Channel.
